(** * sms-messenger: the message aggregator of [src/utils/api.ts]

    A shallow embedding of the [ApiService] class: the timestamp
    normaliser, the transport client, the message store with its set of
    processed identifiers, the poll cycle and the conversation
    aggregator, followed by the properties of the specification.

    Conventions.
    - A JavaScript [string] is a [string]; [undefined] in an optional field
      is [None].
    - A [Date] is its time value: [Some t] for [t] milliseconds since the
      epoch, [None] for an invalid date (time value NaN).
    - The class instance is a record threaded through a small monad that
      also carries the trace of external effects (network requests, timers,
      subscriber calls) and JavaScript's abrupt completions.
    - What the platform decides (the answer of the network, the clock, the
      handle of a timer) is an explicit argument of the operation that
      consumes it; [Date] parsing and printing are an interface, with an
      ISO 8601 instance to run the service on concrete data.
    - [console] output is left out, except where evaluating its arguments
      can throw. *)

From Stdlib Require Import Ascii String ZArith.
From stdpp Require Import gmap strings list sorting pretty.

Local Open Scope string_scope.
Local Open Scope list_scope.
Local Open Scope Z_scope.

(** ** JavaScript string primitives used by the service *)

Module JsString.

(** [s.includes(c)] for a one-character needle. *)
Fixpoint includes_char (c : ascii) (s : string) : bool :=
  match s with
  | EmptyString => false
  | String d rest => if decide (c = d) then true else includes_char c rest
  end.

(** White space and line terminators stripped by [trim], within ASCII. *)
Definition is_white_space (c : ascii) : bool :=
  let n := nat_of_ascii c in
  bool_decide (n = 9 ∨ n = 10 ∨ n = 11 ∨ n = 12 ∨ n = 13 ∨ n = 32)%nat.

Fixpoint trimStart (s : string) : string :=
  match s with
  | EmptyString => EmptyString
  | String c rest => if is_white_space c then trimStart rest else s
  end.

Fixpoint rev_acc (s acc : string) : string :=
  match s with
  | EmptyString => acc
  | String c rest => rev_acc rest (String c acc)
  end.

Definition rev (s : string) : string := rev_acc s EmptyString.

Definition trim (s : string) : string := rev (trimStart (rev (trimStart s))).

(** [s.replace(/\D/g, '')]: keep the decimal digits. *)
Definition is_digit (c : ascii) : bool :=
  let n := nat_of_ascii c in bool_decide (48 ≤ n ≤ 57)%nat.

Fixpoint digits_only (s : string) : string :=
  match s with
  | EmptyString => EmptyString
  | String c rest =>
      if is_digit c then String c (digits_only rest) else digits_only rest
  end.

(** [s.substring(i, j)] and [s.substring(i)] for [0 <= i <= j]. *)
Definition substring (i j : nat) (s : string) : string :=
  String.substring i (j - i) s.

Definition substring_from (i : nat) (s : string) : string :=
  String.substring i (String.length s - i) s.

Definition startsWith (p s : string) : bool := String.prefix p s.

(** [s.includes(needle)] *)
Fixpoint includes (needle s : string) : bool :=
  String.prefix needle s
  || match s with
     | EmptyString => false
     | String _ rest => includes needle rest
     end.

(** Truthiness of a string: only the empty string is falsy. *)
Definition truthy (s : string) : bool :=
  match s with EmptyString => false | _ => true end.

Fixpoint map_chars (f : ascii → ascii) (s : string) : string :=
  match s with
  | EmptyString => EmptyString
  | String c rest => String (f c) (map_chars f rest)
  end.

(** [toUpperCase] and [toLowerCase], within ASCII. *)
Definition upper_char (c : ascii) : ascii :=
  let n := nat_of_ascii c in
  if bool_decide (97 ≤ n ≤ 122)%nat then ascii_of_nat (n - 32) else c.

Definition lower_char (c : ascii) : ascii :=
  let n := nat_of_ascii c in
  if bool_decide (65 ≤ n ≤ 90)%nat then ascii_of_nat (n + 32) else c.

Definition toUpperCase (s : string) : string := map_chars upper_char s.

Definition toLowerCase (s : string) : string := map_chars lower_char s.

(** [s.split(c)] for a one-character separator: never empty, the empty
    string splits into one empty segment. *)
Fixpoint split_on (c : ascii) (s : string) : list string :=
  match s with
  | EmptyString => [EmptyString]
  | String d rest =>
      match split_on c rest with
      | [] => [String d EmptyString]
      | seg :: segs =>
          if decide (d = c) then EmptyString :: seg :: segs
          else String d seg :: segs
      end
  end.

(** [n[0]] as [join] sees it: [undefined] joins as the empty string. *)
Definition first_char (s : string) : string :=
  match s with
  | EmptyString => EmptyString
  | String c _ => String c EmptyString
  end.

(** [l.join('')] *)
Definition join (l : list string) : string := foldr String.append EmptyString l.

(** [s.slice(0, n)] and [s.slice(-n)] *)
Definition slice_to (n : nat) (s : string) : string := String.substring 0 n s.

Definition slice_last (n : nat) (s : string) : string :=
  String.substring (String.length s - n) n s.

End JsString.

(** ** The platform's [Date]

  [Date_parse] is [new Date(s).getTime()], with [None] for NaN;
  [toISOString] is applied to valid time values only.  ECMAScript fixes
  the ISO 8601 format and leaves every other format to the engine, so the
  two functions are an interface of the development. *)

Class DateApi := {
Date_parse : string → option Z;
toISOString : Z → string
}.

(** The time values of valid dates: at most 8.64e15 ms from the epoch. *)
Definition valid_time (t : Z) : Prop :=
  -8640000000000000 ≤ t ≤ 8640000000000000.

(** ECMAScript, Date.parse: a parsed time value is that of a valid date,
    and [Date.parse(x.toISOString())] is the time value of [x]. *)
Class DateLaws `{DateApi} := {
  parse_valid : ∀ (s : string) (t : Z), Date_parse s = Some t → valid_time t;
  parse_toISOString :
    ∀ t : Z, valid_time t → Date_parse (toISOString t) = Some t
}.

(** ** Abrupt completions *)

(** A thrown value: an [Error] object with its [name] and [message], or
  anything else. *)
Inductive Thrown :=
| ThrownError (name message : string)
| ThrownOther.

Inductive Completion (A : Type) :=
| Normal (a : A)
| Throw (e : Thrown).
Arguments Normal {A} a.
Arguments Throw {A} e.

(** ** Data model ([src/types/index.ts]) *)

Inductive Direction := Incoming | Outgoing.

Inductive Status := sent | delivered | read | failed.

Record Message := {
conversationId : string;
timestamp : string;
body : string;
direction : Direction;
id : option string;
status : option Status
}.

Record Contact := {
phone : string;
name : string;
lastMessage : string;
contact_timestamp : string;
unread : option bool
}.

Record ApiResponse (T : Type) := {
data : T;
error : option string
}.
Arguments data {T} _.
Arguments error {T} _.

Global Instance Direction_eq_dec : EqDecision Direction.
Proof. solve_decision. Defined.
Global Instance Status_eq_dec : EqDecision Status.
Proof. solve_decision. Defined.
Global Instance Message_eq_dec : EqDecision Message.
Proof. solve_decision. Defined.
Global Instance Contact_eq_dec : EqDecision Contact.
Proof. solve_decision. Defined.

(** ** Timestamp normaliser *)

Section Normaliser.
Context `{DateApi}.

(** [date.toISOString()] on a [Date] object: a RangeError when the date
    is invalid. *)
Definition Date_toISOString (d : option Z) : Completion string :=
  match d with
  | Some t => Normal (toISOString t)
  | None => Throw (ThrownError "RangeError" "Invalid time value")
  end.

Definition isNaN_getTime (d : option Z) : bool :=
  match d with Some _ => false | None => true end.

(** The body of the [try] block.  [now] is the clock at the moment
    [new Date()] is evaluated. *)
Definition convertTimestamp_try (now : Z) (timestamp : string)
  : Completion string :=
  let direct :=
    let date := Date_parse timestamp in
    if negb (isNaN_getTime date) then Date_toISOString date
    else Date_toISOString (Some now) in
  if JsString.includes_char "/"%char timestamp
     && JsString.includes_char ","%char timestamp
  then
    let date := Date_parse timestamp in
    if negb (isNaN_getTime date) then Date_toISOString date
    else direct
  else direct.

(** [try { ... } catch (error) { return new Date().toISOString(); }] *)
Definition convertTimestamp_completion (now : Z) (timestamp : string)
  : Completion string :=
  match convertTimestamp_try now timestamp with
  | Normal s => Normal s
  | Throw _ => Date_toISOString (Some now)
  end.

Definition convertTimestamp (now : Z) (timestamp : string) : string :=
  match convertTimestamp_completion now timestamp with
  | Normal s => s
  | Throw _ => toISOString now
  end.

End Normaliser.

(** ** JSON values, as [response.json()] delivers them *)

(** Numbers are the integral ones (a phone number sent as a number); an
    object is the list of its own properties, looked up by name. *)
Local Unset Elimination Schemes.
Inductive Json :=
  | JNull
  | JBool (b : bool)
  | JNumber (n : Z)
  | JString (s : string)
  | JArray (items : list Json)
  | JObject (fields : list (string * Json)).
Local Set Elimination Schemes.

Fixpoint assoc_get {V : Type} (k : string) (l : list (string * V)) : option V :=
  match l with
  | [] => None
  | (k', v) :: rest => if decide (k = k') then Some v else assoc_get k rest
  end.

(** [msg.f] where [f] is one of the message fields: a TypeError on [null],
    [undefined] ([None]) on a primitive or an array. *)
Definition get_prop (f : string) (v : Json) : Completion (option Json) :=
  match v with
  | JNull =>
      Throw (ThrownError "TypeError"
               ("Cannot read properties of null (reading '" +:+ f +:+ "')"))
  | JObject fields => Normal (assoc_get f fields)
  | _ => Normal None
  end.

Definition prop (f : string) (v : Json) : option Json :=
  match v with
  | JObject fields => assoc_get f fields
  | _ => None
  end.

Definition is_JString (v : option Json) : bool :=
  match v with Some (JString _) => true | _ => false end.

Definition is_JNumber (v : option Json) : bool :=
  match v with Some (JNumber _) => true | _ => false end.

Definition is_string_value (s : string) (v : option Json) : bool :=
  match v with Some (JString s') => bool_decide (s' = s) | _ => false end.

Definition typeof_object (v : Json) : bool :=
  match v with JNull | JArray _ | JObject _ => true | _ => false end.

Definition json_truthy (v : Json) : bool :=
  match v with
  | JNull => false
  | JBool b => b
  | JNumber n => negb (n =? 0)
  | JString s => JsString.truthy s
  | JArray _ | JObject _ => true
  end.

(** The raw message of the read endpoint ([ApiMessage]); the phone number
    arrives as a number or as a string. *)
Inductive PhoneNumber :=
  | PhoneNum (n : Z)
  | PhoneStr (s : string).

Inductive ApiDirection := INBOUND | OUTBOUND.

Record ApiMessage := {
  api_id : string;
  phoneNumber : PhoneNumber;
  api_direction : ApiDirection;
  api_lastMessage : string;
  lastMessageHK : string;
  lastMessageSL : string
}.

(** The predicate of [messagesArray.filter]: the six field checks are
    evaluated first (reading [msg.id] throws on [null]), then combined. *)
Definition isValid (msg : Json) : bool :=
  let hasId := is_JString (prop "id" msg) in
  let hasPhone :=
    is_JNumber (prop "phoneNumber" msg) || is_JString (prop "phoneNumber" msg) in
  let hasDirection :=
    is_string_value "INBOUND" (prop "direction" msg)
    || is_string_value "OUTBOUND" (prop "direction" msg) in
  let hasMessage := is_JString (prop "lastMessage" msg) in
  let hasHKTime := is_JString (prop "lastMessageHK" msg) in
  let hasSLTime := is_JString (prop "lastMessageSL" msg) in
  json_truthy msg && typeof_object msg && hasId && hasPhone && hasDirection
  && hasMessage && hasHKTime && hasSLTime.

Definition isValid_completion (msg : Json) : Completion bool :=
  match get_prop "id" msg with
  | Throw e => Throw e
  | Normal _ => Normal (isValid msg)
  end.

(** A message that passed the filter, read at its declared type. *)
Definition toApiMessage (msg : Json) : option ApiMessage :=
  match prop "id" msg, prop "phoneNumber" msg, prop "direction" msg,
        prop "lastMessage" msg, prop "lastMessageHK" msg,
        prop "lastMessageSL" msg with
  | Some (JString i), Some p, Some (JString d), Some (JString m),
    Some (JString hk), Some (JString sl) =>
      match (match p with
             | JNumber n => Some (PhoneNum n)
             | JString s => Some (PhoneStr s)
             | _ => None
             end),
            (if decide (d = "INBOUND") then Some INBOUND
             else if decide (d = "OUTBOUND") then Some OUTBOUND else None) with
      | Some p', Some d' =>
          Some {| api_id := i; phoneNumber := p'; api_direction := d';
                  api_lastMessage := m; lastMessageHK := hk;
                  lastMessageSL := sl |}
      | _, _ => None
      end
  | _, _, _, _, _, _ => None
  end.

(** [messagesArray.filter(...)] as a whole: the first [null] element aborts
    the filter with its TypeError. *)
Fixpoint validMessages (items : list Json) : Completion (list ApiMessage) :=
  match items with
  | [] => Normal []
  | msg :: rest =>
      match isValid_completion msg with
      | Throw e => Throw e
      | Normal ok =>
          match validMessages rest with
          | Throw e => Throw e
          | Normal l =>
              Normal (if ok then
                        match toApiMessage msg with
                        | Some m => m :: l
                        | None => l
                        end
                      else l)
          end
      end
  end.

(** ** The service instance, its effects and its monad *)

Record Settings := {
  n8nWebhookUrl : string;
  n8nGetMessagesUrl : string;
  pollingInterval : Z
}.

(** [pollingTimer] is the field [pollingInterval] of the class (the handle
    of [setInterval]); subscribers and timers are known by their handles. *)
Record ApiService := {
  settings : Settings;
  processedMessageIds : gset string;
  allMessages : list Message;
  pollingTimer : option nat;
  retryTimeout : option nat;
  onNewMessageCallback : option nat;
  onErrorCallback : option nat
}.

Inductive Effect :=
  | NetGet (url : string)
  | NetPost (url to body timestamp : string)
  | CallError (subscriber : nat) (message : string)
  | CallNewMessages (subscriber : nat) (messages : list Message)
  | SetTimeoutPoll (handle : nat) (delay : Z)
  | SetIntervalPoll (handle : nat) (delay : Z)
  | ClearInterval (handle : nat)
  | ClearTimeout (handle : nat).

Global Instance Effect_eq_dec : EqDecision Effect.
Proof. solve_decision. Defined.

Definition Js (A : Type) : Type :=
  ApiService → Completion A * ApiService * list Effect.

Definition ret {A} (a : A) : Js A := λ s, (Normal a, s, []).

Definition throw {A} (e : Thrown) : Js A := λ s, (Throw e, s, []).

Definition bind {A B} (m : Js A) (k : A → Js B) : Js B :=
  λ s,
    match m s with
    | (Normal a, s1, t1) =>
        match k a s1 with (r, s2, t2) => (r, s2, t1 ++ t2) end
    | (Throw e, s1, t1) => (Throw e, s1, t1)
    end.

Definition try_catch {A} (m : Js A) (handler : Thrown → Js A) : Js A :=
  λ s,
    match m s with
    | (Normal a, s1, t1) => (Normal a, s1, t1)
    | (Throw e, s1, t1) =>
        match handler e s1 with (r, s2, t2) => (r, s2, t1 ++ t2) end
    end.

Definition gets {A} (f : ApiService → A) : Js A := λ s, (Normal (f s), s, []).

Definition modify (f : ApiService → ApiService) : Js unit :=
  λ s, (Normal tt, f s, []).

Definition emit (e : Effect) : Js unit := λ s, (Normal tt, s, [e]).

Definition lift {A} (c : Completion A) : Js A := λ s, (c, s, []).

Global Instance Js_ret : MRet Js := @ret.
Global Instance Js_bind : MBind Js := λ A B k m, bind m k.

Definition result_of {A} (r : Completion A * ApiService * list Effect)
  : Completion A := r.1.1.
Definition state_of {A} (r : Completion A * ApiService * list Effect)
  : ApiService := r.1.2.
Definition trace_of {A} (r : Completion A * ApiService * list Effect)
  : list Effect := r.2.

Definition set_allMessages (l : list Message) (s : ApiService) : ApiService :=
  {| settings := settings s; processedMessageIds := processedMessageIds s;
     allMessages := l; pollingTimer := pollingTimer s;
     retryTimeout := retryTimeout s;
     onNewMessageCallback := onNewMessageCallback s;
     onErrorCallback := onErrorCallback s |}.

Definition set_processedMessageIds (ids : gset string) (s : ApiService)
  : ApiService :=
  {| settings := settings s; processedMessageIds := ids;
     allMessages := allMessages s; pollingTimer := pollingTimer s;
     retryTimeout := retryTimeout s;
     onNewMessageCallback := onNewMessageCallback s;
     onErrorCallback := onErrorCallback s |}.

Definition set_retryTimeout (h : option nat) (s : ApiService) : ApiService :=
  {| settings := settings s; processedMessageIds := processedMessageIds s;
     allMessages := allMessages s; pollingTimer := pollingTimer s;
     retryTimeout := h;
     onNewMessageCallback := onNewMessageCallback s;
     onErrorCallback := onErrorCallback s |}.

Definition set_pollingTimer (h : option nat) (s : ApiService) : ApiService :=
  {| settings := settings s; processedMessageIds := processedMessageIds s;
     allMessages := allMessages s; pollingTimer := h;
     retryTimeout := retryTimeout s;
     onNewMessageCallback := onNewMessageCallback s;
     onErrorCallback := onErrorCallback s |}.

Definition set_onNewMessageCallback (h : option nat) (s : ApiService)
  : ApiService :=
  {| settings := settings s; processedMessageIds := processedMessageIds s;
     allMessages := allMessages s; pollingTimer := pollingTimer s;
     retryTimeout := retryTimeout s;
     onNewMessageCallback := h;
     onErrorCallback := onErrorCallback s |}.

Definition set_onErrorCallback (h : option nat) (s : ApiService)
  : ApiService :=
  {| settings := settings s; processedMessageIds := processedMessageIds s;
     allMessages := allMessages s; pollingTimer := pollingTimer s;
     retryTimeout := retryTimeout s;
     onNewMessageCallback := onNewMessageCallback s;
     onErrorCallback := h |}.

(** The instance the constructor builds when nothing is saved. *)
Definition default_settings : Settings :=
  {| n8nWebhookUrl := "https://cloud.automationhoster.org/webhook/send-sms";
     n8nGetMessagesUrl :=
       "https://cloud.automationhoster.org/webhook/get-messages";
     pollingInterval := 30 |}.

Definition new_ApiService (cfg : Settings) : ApiService :=
  {| settings := cfg; processedMessageIds := ∅; allMessages := [];
     pollingTimer := None; retryTimeout := None;
     onNewMessageCallback := None; onErrorCallback := None |}.

(** ** Transport *)

(** What [fetch] does with a request: the promise rejects (network failure,
    or the 10 second [AbortSignal.timeout] fires), or a response arrives.
    [resp_text] is [None] when [response.text()] rejects; [resp_json] is the
    completion of [response.json()]. *)
Record Response := {
  resp_status : Z;
  resp_statusText : string;
  resp_text : option string;
  resp_json : Completion Json
}.

Inductive FetchOutcome :=
  | FetchRejects (e : Thrown)
  | FetchResponds (r : Response).

Definition resp_ok (r : Response) : bool :=
  (200 <=? resp_status r) && (resp_status r <=? 299).

(** [`HTTP ${status}: ${statusText}${errorText ? ` - ${errorText}` : ''}`] *)
Definition http_error_message (r : Response) : string :=
  let errorText := default "Unknown error" (resp_text r) in
  "HTTP " +:+ pretty (resp_status r) +:+ ": " +:+ resp_statusText r
  +:+ (if JsString.truthy errorText then " - " +:+ errorText else "").

Definition url_blank (url : string) : bool :=
  negb (JsString.truthy url) || bool_decide (JsString.trim url = "").

Definition get_url_not_configured : string :=
  "n8n Get Messages URL not configured. Please check Settings.".

Definition send_url_not_configured : string :=
  "n8n Send Message URL not configured. Please check Settings.".

Definition not_an_array_message : string :=
  "API response must be an array of message objects. Please check your n8n webhook configuration.".

(** The [catch] block of [fetchMessagesFromApi]. *)
Definition fetch_error_message (error : Thrown) : string :=
  match error with
  | ThrownError name message =>
      if decide (name = "AbortError") then
        "Request timeout - n8n endpoint took too long to respond"
      else if JsString.includes "NetworkError" message
              || JsString.includes "ERR_NETWORK" message then
        "Network error - cannot reach n8n endpoint. Please check your internet connection and n8n URL in Settings."
      else if JsString.includes "Failed to fetch" message then
        "Cannot connect to n8n endpoint. Please check your internet connection and n8n URL in Settings."
      else if JsString.includes "ENOTFOUND" message
              || JsString.includes "ECONNREFUSED" message then
        "n8n endpoint not found or refused connection. Please verify the URL in Settings and ensure n8n is running."
      else message
  | ThrownOther => "Network connection failed"
  end.

(** The [catch] block of [sendMessage]. *)
Definition send_error_message (error : Thrown) : string :=
  match error with
  | ThrownError name message =>
      if decide (name = "AbortError") then
        "Send timeout - n8n endpoint took too long to respond"
      else if JsString.includes "Failed to fetch" message then
        "Cannot connect to n8n endpoint. Please check your internet connection and n8n URL in Settings."
      else message
  | ThrownOther => "Failed to send message"
  end.

Definition fetchMessagesFromApi (net : FetchOutcome)
  : Js (ApiResponse (list ApiMessage)) :=
  try_catch
    (url ← gets (λ s, n8nGetMessagesUrl (settings s));
     if url_blank url then
       throw (ThrownError "Error" get_url_not_configured)
     else
       emit (NetGet url);;
       match net with
       | FetchRejects e => throw e
       | FetchResponds response =>
           if negb (resp_ok response) then
             throw (ThrownError "Error" (http_error_message response))
           else
             data ← lift (resp_json response);
             match data with
             | JArray messagesArray =>
                 valid ← lift (validMessages messagesArray);
                 ret {| data := valid; error := None |}
             | _ => ret {| data := []; error := Some not_an_array_message |}
             end
       end)
    (λ error,
       ret {| data := []; error := Some (fetch_error_message error) |}).

(** ** Sorting

    [Array.prototype.sort] is stable, and sorts according to the comparator
    whenever the comparator is consistent; a NaN result counts as [+0].
    Insertion of each element before the first one it is not greater than is
    such a sort. *)

Definition time_diff (a b : option Z) : option Z :=
  match a, b with
  | Some x, Some y => Some (x - y)
  | _, _ => None
  end.

Definition positive_number (v : option Z) : bool :=
  match v with Some d => 0 <? d | None => false end.

Fixpoint js_insert {A} (cmp : A → A → option Z) (x : A) (l : list A) : list A :=
  match l with
  | [] => [x]
  | y :: rest =>
      if positive_number (cmp x y) then y :: js_insert cmp x rest
      else x :: l
  end.

Definition js_sort {A} (cmp : A → A → option Z) (l : list A) : list A :=
  foldr (js_insert cmp) [] l.

(** Order by a key that may be undefined: both keys defined and in order. *)
Definition key_le {A} (key : A → option Z) (a b : A) : Prop :=
  ∃ ta tb, key a = Some ta ∧ key b = Some tb ∧ ta ≤ tb.

(** [Map<string, Contact>]: insertion-ordered, [set] on a present key
    keeps its position. *)
Fixpoint map_set {V} (k : string) (v : V) (m : list (string * V))
  : list (string * V) :=
  match m with
  | [] => [(k, v)]
  | (k', v') :: rest =>
      if decide (k = k') then (k, v) :: rest else (k', v') :: map_set k v rest
  end.

Definition map_values {V} (m : list (string * V)) : list V := m.*2.

(** ** The store, the poll cycle and the aggregator *)

(** What the platform contributes to one poll cycle: the outcome of the
    request, the clock at the conversion of the k-th message, and the handle
    [setTimeout] returns. *)
Record PollEnv := {
  poll_outcome : FetchOutcome;
  poll_clock : nat → Z;
  poll_timer : nat
}.

(** What the platform contributes to one send: the outcome of the request
    and the clock at the three places it is read. *)
Record SendEnv := {
  send_outcome : FetchOutcome;
  send_request_time : Z;
  send_message_time : Z;
  send_id_time : Z
}.

Definition String_of_phone (p : PhoneNumber) : string :=
  match p with
  | PhoneNum n => pretty n
  | PhoneStr s => s
  end.

(** [!msg.id]: an absent or empty identifier. *)
Definition id_falsy (i : option string) : bool :=
  match i with
  | None => true
  | Some s => negb (JsString.truthy s)
  end.

(** The [filter] that finds the new messages, together with the additions
    its callback makes to [processedMessageIds] on the way. *)
Fixpoint filter_new (seen : gset string) (msgs : list Message)
  : list Message * gset string :=
  match msgs with
  | [] => ([], seen)
  | msg :: rest =>
      match id msg with
      | None => filter_new seen rest
      | Some i =>
          if negb (JsString.truthy i) then filter_new seen rest
          else if decide (i ∈ seen) then filter_new seen rest
          else
            let '(news, seen') := filter_new ({[i]} ∪ seen) rest in
            (msg :: news, seen')
      end
  end.

Definition formatPhoneNumber (phone : string) : string :=
  let cleaned := JsString.digits_only phone in
  if bool_decide (String.length cleaned = 11%nat)
     && JsString.startsWith "1" cleaned then
    let number := JsString.substring_from 1 cleaned in
    "+1 (" +:+ JsString.substring 0 3 number +:+ ") "
    +:+ JsString.substring 3 6 number +:+ "-"
    +:+ JsString.substring_from 6 number
  else if bool_decide (String.length cleaned = 10%nat) then
    "(" +:+ JsString.substring 0 3 cleaned +:+ ") "
    +:+ JsString.substring 3 6 cleaned +:+ "-"
    +:+ JsString.substring_from 6 cleaned
  else if bool_decide (10 < String.length cleaned)%nat then
    "+" +:+ cleaned
  else phone.

Definition setNewMessageCallback (callback : nat) : Js unit :=
  modify (set_onNewMessageCallback (Some callback)).

Definition setErrorCallback (callback : nat) : Js unit :=
  modify (set_onErrorCallback (Some callback)).

Definition stopPolling : Js unit :=
  p ← gets pollingTimer;
  match p with
  | Some h => emit (ClearInterval h);; modify (set_pollingTimer None)
  | None => ret tt
  end;;
  r ← gets retryTimeout;
  match r with
  | Some h => emit (ClearTimeout h);; modify (set_retryTimeout None)
  | None => ret tt
  end.

Definition getAllMessages : Js (list Message) := gets allMessages.

Definition resetProcessedMessages : Js unit :=
  modify (set_processedMessageIds ∅);;
  modify (set_allMessages []).

Section Service.
Context `{DateApi}.

(** [new Date(m.timestamp).getTime()] *)
Definition getTime (m : Message) : option Z := Date_parse (timestamp m).

Definition contact_getTime (c : Contact) : option Z :=
  Date_parse (contact_timestamp c).

(** [(a, b) => new Date(a.timestamp).getTime() - new Date(b.timestamp).getTime()] *)
Definition by_time_ascending (a b : Message) : option Z :=
  time_diff (getTime a) (getTime b).

(** [(a, b) => new Date(b.timestamp).getTime() - new Date(a.timestamp).getTime()] *)
Definition by_time_descending (a b : Contact) : option Z :=
  time_diff (contact_getTime b) (contact_getTime a).

Definition convertApiMessage (now : Z) (apiMessage : ApiMessage) : Message :=
  let direction :=
    match api_direction apiMessage with
    | INBOUND => Incoming
    | OUTBOUND => Outgoing
    end in
  let conversationId := String_of_phone (phoneNumber apiMessage) in
  {| conversationId := conversationId;
     timestamp := convertTimestamp now (lastMessageHK apiMessage);
     body := api_lastMessage apiMessage;
     direction := direction;
     id := Some (api_id apiMessage);
     status := match direction with
               | Outgoing => Some delivered
               | Incoming => None
               end |}.

(** [newApiMessages.map(msg => this.convertApiMessage(msg))], the k-th
    conversion reading the clock at [clock k]. *)
Definition convertedMessages (clock : nat → Z) (batch : list ApiMessage)
  : list Message :=
  imap (λ k msg, convertApiMessage (clock k) msg) batch.

(** [result.error] is tested for truthiness. *)
Definition error_truthy {T} (r : ApiResponse T) : option string :=
  match error r with
  | Some e => if JsString.truthy e then Some e else None
  | None => None
  end.

(** The part of [pollMessages] after the awaited fetch.  [sort] works in
    place, so [convertedMessages] is the sorted array from then on, and the
    filter for new messages runs over it in sorted order. *)
Definition pollMessages_merge (env : PollEnv)
    (result : ApiResponse (list ApiMessage)) : Js unit :=
  match error_truthy result with
  | Some e =>
      cb ← gets onErrorCallback;
      match cb with
      | Some h => emit (CallError h e)
      | None => ret tt
      end;;
      emit (SetTimeoutPoll (poll_timer env) 60000);;
      modify (set_retryTimeout (Some (poll_timer env)))
  | None =>
      let sorted :=
        js_sort by_time_ascending
          (convertedMessages (poll_clock env) (data result)) in
      modify (set_allMessages sorted);;
      seen ← gets processedMessageIds;
      let '(newMessages, seen') := filter_new seen sorted in
      modify (set_processedMessageIds seen');;
      if bool_decide (0 < length newMessages)%nat then
        cb ← gets onNewMessageCallback;
        match cb with
        | Some h => emit (CallNewMessages h newMessages)
        | None => ret tt
        end
      else ret tt
  end.

Definition pollMessages (env : PollEnv) : Js unit :=
  result ← fetchMessagesFromApi (poll_outcome env);
  pollMessages_merge env result.

(** The optimistic message of a successful send. *)
Definition optimisticMessage (env : SendEnv) (to body : string) : Message :=
  {| conversationId := to;
     timestamp := toISOString (send_message_time env);
     body := body;
     direction := Outgoing;
     id := Some ("temp-" +:+ pretty (send_id_time env));
     status := Some sent |}.

(** The part of the [try] block of [sendMessage] after the awaited
    request. *)
Definition sendMessage_after_fetch (env : SendEnv) (to body : string)
  : Js (ApiResponse bool) :=
  match send_outcome env with
  | FetchRejects e => throw e
  | FetchResponds response =>
      if negb (resp_ok response) then
        throw (ThrownError "Error" (http_error_message response))
      else
        let optimisticMessage := optimisticMessage env to body in
        modify (λ s, set_allMessages
                       (allMessages s ++ [optimisticMessage]) s);;
        match id optimisticMessage with
        | Some i =>
            if JsString.truthy i then
              modify (λ s, set_processedMessageIds
                             ({[i]} ∪ processedMessageIds s) s)
            else ret tt
        | None => ret tt
        end;;
        ret {| data := true; error := None |}
  end.

Definition sendMessage_catch (error : Thrown) : Js (ApiResponse bool) :=
  ret {| data := false; error := Some (send_error_message error) |}.

Definition sendMessage (env : SendEnv) (to body : string)
  : Js (ApiResponse bool) :=
  try_catch
    (url ← gets (λ s, n8nWebhookUrl (settings s));
     if url_blank url then
       throw (ThrownError "Error" send_url_not_configured)
     else
       emit (NetPost url to body (toISOString (send_request_time env)));;
       sendMessage_after_fetch env to body)
    sendMessage_catch.

(** The completion of a send whose request left earlier. *)
Definition sendMessage_completes (env : SendEnv) (to body : string)
  : Js (ApiResponse bool) :=
  try_catch (sendMessage_after_fetch env to body) sendMessage_catch.

(** [messageTime > existingTime] on two [Date] objects. *)
Definition date_gt (a b : option Z) : bool :=
  match a, b with
  | Some x, Some y => y <? x
  | _, _ => false
  end.

Definition is_incoming (d : Direction) : bool :=
  match d with Incoming => true | Outgoing => false end.

Definition mark_unread (c : Contact) : Contact :=
  {| phone := phone c; name := name c; lastMessage := lastMessage c;
     contact_timestamp := contact_timestamp c; unread := Some true |}.

(** The body of [messages.forEach].  The log line evaluates
    [messageTime.toISOString()] and [existingTime.toISOString()], which
    throw on an invalid date. *)
Definition conversation_step (conversationMap : list (string * Contact))
    (message : Message) : Completion (list (string * Contact)) :=
  let phone := conversationId message in
  let existing := assoc_get phone conversationMap in
  let messageTime := getTime message in
  let existingTime :=
    match existing with
    | Some c => contact_getTime c
    | None => Some 0
    end in
  match Date_toISOString messageTime, Date_toISOString existingTime with
  | Throw e, _ => Throw e
  | _, Throw e => Throw e
  | Normal _, Normal _ =>
      if negb (bool_decide (is_Some existing)) || date_gt messageTime existingTime
      then
        let newContact :=
          {| phone := phone;
             name := formatPhoneNumber phone;
             lastMessage := body message;
             contact_timestamp := timestamp message;
             unread :=
               Some (is_incoming (direction message)
                     && (negb (bool_decide (is_Some existing))
                         || date_gt messageTime existingTime)) |} in
        Normal (map_set phone newContact conversationMap)
      else
        match existing with
        | Some c =>
            if is_incoming (direction message)
               && date_gt messageTime existingTime
            then Normal (map_set phone (mark_unread c) conversationMap)
            else Normal conversationMap
        | None => Normal conversationMap
        end
  end.

Fixpoint conversation_forEach (conversationMap : list (string * Contact))
    (messages : list Message) : Completion (list (string * Contact)) :=
  match messages with
  | [] => Normal conversationMap
  | message :: rest =>
      match conversation_step conversationMap message with
      | Throw e => Throw e
      | Normal conversationMap' => conversation_forEach conversationMap' rest
      end
  end.

Definition error_message_or (fallback : string) (e : Thrown) : string :=
  match e with
  | ThrownError _ message => message
  | ThrownOther => fallback
  end.

Definition fetchConversations : Js (ApiResponse (list Contact)) :=
  try_catch
    (messages ← getAllMessages;
     conversationMap ← lift (conversation_forEach [] messages);
     let conversations :=
       js_sort by_time_descending (map_values conversationMap) in
     ret {| data := conversations; error := None |})
    (λ error,
       ret {| data := [];
              error := Some (error_message_or "Unknown error" error) |}).

Definition fetchMessages (phoneNumber : string)
  : Js (ApiResponse (list Message)) :=
  try_catch
    (all ← getAllMessages;
     let messages :=
       js_sort by_time_ascending
         (filter (λ msg, conversationId msg = phoneNumber) all) in
     ret {| data := messages; error := None |})
    (λ error,
       ret {| data := [];
              error := Some (error_message_or "Unknown error" error) |}).

Definition fetchNewIncomingMessages : Js (ApiResponse (list Message)) :=
  allMessages ← getAllMessages;
  seen ← gets processedMessageIds;
  let newIncomingMessages :=
    filter (λ msg, is_incoming (direction msg)
                   && negb (id_falsy (id msg))
                   && bool_decide (default "" (id msg) ∉ seen) = true)
           allMessages in
  ret {| data := newIncomingMessages; error := None |}.

End Service.

(** ** A minimal conforming [Date]: the ISO 8601 format only

    [YYYY-MM-DDTHH:mm:ss.sssZ], with the expanded years [+YYYYYY] and
    [-YYYYYY]; every other string is an invalid date.  Used to run the
    service on concrete inputs. *)

Module IsoDate.

Definition digit_val (c : ascii) : option Z :=
  if JsString.is_digit c then Some (Z.of_nat (nat_of_ascii c) - 48) else None.

(** Exactly [n] digits at the head of [s]. *)
Fixpoint take_digits (n : nat) (acc : Z) (s : string) : option (Z * string) :=
  match n with
  | O => Some (acc, s)
  | S n' =>
      match s with
      | String c rest =>
          match digit_val c with
          | Some d => take_digits n' (10 * acc + d) rest
          | None => None
          end
      | EmptyString => None
      end
  end.

Definition expect (c : ascii) (s : string) : option string :=
  match s with
  | String d rest => if decide (c = d) then Some rest else None
  | EmptyString => None
  end.

Definition is_leap (y : Z) : bool :=
  ((y mod 4 =? 0) && negb (y mod 100 =? 0)) || (y mod 400 =? 0).

Definition days_in_month (y m : Z) : Z :=
  if m =? 2 then (if is_leap y then 29 else 28)
  else if (m =? 4) || (m =? 6) || (m =? 9) || (m =? 11) then 30
  else 31.

(** Days since 1970-01-01 of a civil date. *)
Definition days_from_civil (y m d : Z) : Z :=
  let y' := if m <=? 2 then y - 1 else y in
  let era := y' / 400 in
  let yoe := y' - era * 400 in
  let doy := (153 * (if 2 <? m then m - 3 else m + 9) + 2) / 5 + d - 1 in
  let doe := yoe * 365 + yoe / 4 - yoe / 100 + doy in
  era * 146097 + doe - 719468.

(** The civil date of a day of the 400 year era that starts on 1 March of
    year 0, the year counted within the era. *)
Definition civil_of_doe (doe : Z) : Z * Z * Z :=
  let yoe := (doe - doe / 1460 + doe / 36524 - doe / 146096) / 365 in
  let doy := doe - (365 * yoe + yoe / 4 - yoe / 100) in
  let mp := (5 * doy + 2) / 153 in
  let d := doy - (153 * mp + 2) / 5 + 1 in
  let m := if mp <? 10 then mp + 3 else mp - 9 in
  (yoe + (if m <=? 2 then 1 else 0), m, d).

Definition civil_from_days (days : Z) : Z * Z * Z :=
  let z := days + 719468 in
  let era := z / 146097 in
  let '(y, m, d) := civil_of_doe (z - era * 146097) in
  (y + era * 400, m, d).

(** The checks that make [civil_of_doe] the inverse of [days_from_civil]
    on one day of the era, and on a range of days. *)
Definition check_doe (doe : Z) : bool :=
  let '(y, m, d) := civil_of_doe doe in
  (1 <=? m) && (m <=? 12) && (1 <=? d) && (d <=? days_in_month y m)
  && (days_from_civil y m d =? doe - 719468) && (0 <=? y) && (y <=? 400).

Fixpoint check_range (n : nat) (z : Z) : bool :=
  match n with
  | O => true
  | S n' => check_doe z && check_range n' (z + 1)
  end.

Definition ms_per_day : Z := 86400000.

Definition max_time : Z := 8640000000000000.

Definition parse_year (s : string) : option (Z * string) :=
  match s with
  | String "+" rest => take_digits 6 0 rest
  | String "-" rest =>
      match take_digits 6 0 rest with
      | Some (y, rest') => if y =? 0 then None else Some (- y, rest')
      | None => None
      end
  | _ => take_digits 4 0 s
  end.

Definition parse (s : string) : option Z :=
  '(y, s) ← parse_year s;
  s ← expect "-" s;
  '(m, s) ← take_digits 2 0 s;
  s ← expect "-" s;
  '(d, s) ← take_digits 2 0 s;
  s ← expect "T" s;
  '(hh, s) ← take_digits 2 0 s;
  s ← expect ":" s;
  '(mm, s) ← take_digits 2 0 s;
  s ← expect ":" s;
  '(ss, s) ← take_digits 2 0 s;
  s ← expect "." s;
  '(ms, s) ← take_digits 3 0 s;
  s ← expect "Z" s;
  if bool_decide (s = "")
     && (1 <=? m) && (m <=? 12) && (1 <=? d) && (d <=? days_in_month y m)
     && (hh <=? 23) && (mm <=? 59) && (ss <=? 59)
  then
    let t := days_from_civil y m d * ms_per_day
             + ((hh * 60 + mm) * 60 + ss) * 1000 + ms in
    if (- max_time <=? t) && (t <=? max_time) then Some t else None
  else None.

Definition digit_char (k : Z) : ascii := ascii_of_nat (48 + Z.to_nat k).

(** [v] written with [width] decimal digits. *)
Fixpoint pad (width : nat) (v : Z) (acc : string) : string :=
  match width with
  | O => acc
  | S w => pad w (v / 10) (String (digit_char (v mod 10)) acc)
  end.

Definition print_year (y : Z) : string :=
  if (0 <=? y) && (y <=? 9999) then pad 4 y ""
  else if y <? 0 then "-" +:+ pad 6 (- y) ""
  else "+" +:+ pad 6 y "".

Definition print (t : Z) : string :=
  let days := t / ms_per_day in
  let r := t mod ms_per_day in
  let '(y, m, d) := civil_from_days days in
  print_year y +:+ "-" +:+ pad 2 m "" +:+ "-" +:+ pad 2 d "" +:+ "T"
  +:+ pad 2 (r / 3600000) "" +:+ ":" +:+ pad 2 (r / 60000 mod 60) "" +:+ ":"
  +:+ pad 2 (r / 1000 mod 60) "" +:+ "." +:+ pad 3 (r mod 1000) "" +:+ "Z".

Definition api : DateApi := {| Date_parse := parse; toISOString := print |}.

End IsoDate.

(** ** Polling control and settings *)

(** The synchronous prefix of a [pollMessages()] call that is not awaited:
    the request leaves unless the URL is blank.  Its completion is a later
    [pollMessages_merge]. *)
Definition pollMessages_begin : Js unit :=
  url ← gets (λ s, n8nGetMessagesUrl (settings s));
  if url_blank url then ret tt else emit (NetGet url).

Definition set_settings (cfg : Settings) (s : ApiService) : ApiService :=
  {| settings := cfg; processedMessageIds := processedMessageIds s;
     allMessages := allMessages s; pollingTimer := pollingTimer s;
     retryTimeout := retryTimeout s;
     onNewMessageCallback := onNewMessageCallback s;
     onErrorCallback := onErrorCallback s |}.

(** [handle] is what [setInterval] returns. *)
Definition startPolling (handle : nat) : Js unit :=
  stopPolling;;
  pollMessages_begin;;
  interval ← gets (λ s, pollingInterval (settings s));
  emit (SetIntervalPoll handle (interval * 1000));;
  modify (set_pollingTimer (Some handle)).

Definition restartPolling (handle : nat) : Js unit :=
  p ← gets pollingTimer;
  match p with
  | Some _ => stopPolling;; startPolling handle
  | None => ret tt
  end.

(** [Partial<typeof this.settings>] *)
Record SettingsPatch := {
  patch_n8nWebhookUrl : option string;
  patch_n8nGetMessagesUrl : option string;
  patch_pollingInterval : option Z
}.

Definition merge_settings (cfg : Settings) (p : SettingsPatch) : Settings :=
  {| n8nWebhookUrl := default (n8nWebhookUrl cfg) (patch_n8nWebhookUrl p);
     n8nGetMessagesUrl :=
       default (n8nGetMessagesUrl cfg) (patch_n8nGetMessagesUrl p);
     pollingInterval :=
       default (pollingInterval cfg) (patch_pollingInterval p) |}.

Definition updateSettings (handle : nat) (p : SettingsPatch) : Js unit :=
  modify (λ s, set_settings (merge_settings (settings s) p) s);;
  restartPolling handle.

(** ** Vocabulary of the properties *)

(** A computation that leaves the message list and the seen set alone. *)
Definition keeps_store {A} (m : Js A) : Prop :=
  ∀ s, allMessages (state_of (m s)) = allMessages s
       ∧ processedMessageIds (state_of (m s)) = processedMessageIds s.

Section Vocabulary.
Context `{DateApi}.

(** The dedup invariant of the store. *)
Definition store_consistent (s : ApiService) : Prop :=
  ∀ m i, m ∈ allMessages s → id m = Some i → i ≠ "" →
         i ∈ processedMessageIds s.

(** One public operation of the service, the completion of a poll cycle
    whose request was answered by [result], or the completion of a send
    whose request left earlier: between two awaited requests other
    operations may run. *)
Inductive step : ApiService → ApiService → Prop :=
  | step_pollMessages env s :
      step s (state_of (pollMessages env s))
  | step_poll_completes env result s :
      step s (state_of (pollMessages_merge env result s))
  | step_sendMessage env to body s :
      step s (state_of (sendMessage env to body s))
  | step_send_completes env to body s :
      step s (state_of (sendMessage_completes env to body s))
  | step_resetProcessedMessages s :
      step s (state_of (resetProcessedMessages s))
  | step_fetchConversations s :
      step s (state_of (fetchConversations s))
  | step_fetchMessages phoneNumber s :
      step s (state_of (fetchMessages phoneNumber s))
  | step_fetchNewIncomingMessages s :
      step s (state_of (fetchNewIncomingMessages s))
  | step_startPolling h s :
      step s (state_of (startPolling h s))
  | step_stopPolling s :
      step s (state_of (stopPolling s))
  | step_updateSettings h p s :
      step s (state_of (updateSettings h p s))
  | step_setNewMessageCallback h s :
      step s (state_of (setNewMessageCallback h s))
  | step_setErrorCallback h s :
      step s (state_of (setErrorCallback h s)).

Inductive reachable : ApiService → Prop :=
  | reachable_new cfg : reachable (new_ApiService cfg)
  | reachable_step s s' : reachable s → step s s' → reachable s'.

(** A message counts as new against [seen]: it has a non-empty identifier
    that [seen] lacks. *)
Definition is_new (seen : gset string) (m : Message) : bool :=
  match id m with
  | Some i => JsString.truthy i && bool_decide (i ∉ seen)
  | None => false
  end.

(** The identifier under which a message is remembered, if any. *)
Definition dedup_key (m : Message) : option string :=
  match id m with
  | Some i => if JsString.truthy i then Some i else None
  | None => None
  end.

(** The store and the increment of a poll cycle answered by [batch]. *)
Definition sorted_batch (env : PollEnv) (batch : list ApiMessage)
  : list Message :=
  js_sort by_time_ascending (convertedMessages (poll_clock env) batch).

Definition replaceAll (env : PollEnv) (batch : list ApiMessage)
  : Js unit :=
  pollMessages_merge env {| data := batch; error := None |}.

Definition increment (env : PollEnv) (batch : list ApiMessage)
    (s : ApiService) : list Message :=
  (filter_new (processedMessageIds s) (sorted_batch env batch)).1.

(** What the new-message subscriber is told. *)
Definition notification (s : ApiService) (news : list Message) : list Effect :=
  match news, onNewMessageCallback s with
  | _ :: _, Some h => [CallNewMessages h news]
  | _, _ => []
  end.

Definition error_notification (s : ApiService) (e : string) : list Effect :=
  match onErrorCallback s with
  | Some h => [CallError h e]
  | None => []
  end.

(** All timestamps of a list of messages are valid dates. *)
Definition timestamps_valid (l : list Message) : Prop :=
  Forall (λ m, is_Some (getTime m)) l.

(** Newest first, every timestamp being a valid date. *)
Definition newer_or_equal (a b : Contact) : Prop :=
  ∃ ta tb, contact_getTime a = Some ta ∧ contact_getTime b = Some tb
           ∧ tb ≤ ta.

Definition newest_first (l : list Contact) : Prop :=
  StronglySorted newer_or_equal l.

(** The messages of one conversation. *)
Definition group (key : string) (l : list Message) : list Message :=
  filter (λ m, conversationId m = key) l.

(** [m] is a latest message of its group: no message of the group has a
    later timestamp. *)
Definition latest_in_group (l : list Message) (m : Message) : Prop :=
  m ∈ l
  ∧ ∃ t, getTime m = Some t
         ∧ ∀ m', m' ∈ group (conversationId m) l →
                 ∃ t', getTime m' = Some t' ∧ t' ≤ t.

(** The summary the aggregator builds from the message it retains for a
    conversation. *)
Definition summary_of (m : Message) : Contact :=
  {| phone := conversationId m;
     name := formatPhoneNumber (conversationId m);
     lastMessage := body m;
     contact_timestamp := timestamp m;
     unread := Some (is_incoming (direction m)) |}.

(** [m] is the first, in the order of [l], of the latest messages of its
    conversation. *)
Definition first_latest (l : list Message) (m : Message) : Prop :=
  ∃ l1 l2 t,
    l = l1 ++ m :: l2 ∧ getTime m = Some t
    ∧ (∀ m', m' ∈ l1 → conversationId m' = conversationId m →
             ∃ t', getTime m' = Some t' ∧ t' < t)
    ∧ (∀ m', m' ∈ l2 → conversationId m' = conversationId m →
             ∃ t', getTime m' = Some t' ∧ t' ≤ t).

(** [c] summarises conversation [k] of [l]: it is built from the first of
    the latest messages of the conversation. *)
Definition represents (l : list Message) (k : string) (c : Contact) : Prop :=
  ∃ m, conversationId m = k ∧ c = summary_of m ∧ first_latest l m.

(** The conversation map after the messages [l] went through [forEach]. *)
Definition aggregated (l : list Message) (cmap : list (string * Contact))
  : Prop :=
  NoDup cmap.*1
  ∧ (∀ k c, assoc_get k cmap = Some c → represents l k c)
  ∧ (∀ m, m ∈ l → conversationId m ∈ cmap.*1).

(** A send that does not go through. *)
Definition send_fails (env : SendEnv) (s : ApiService) : bool :=
  url_blank (n8nWebhookUrl (settings s))
  || match send_outcome env with
     | FetchRejects _ => true
     | FetchResponds r => negb (resp_ok r)
     end.

(** The error string of a failed send. *)
Definition send_failure_message (env : SendEnv) (s : ApiService) : string :=
  if url_blank (n8nWebhookUrl (settings s)) then
    send_error_message (ThrownError "Error" send_url_not_configured)
  else
    match send_outcome env with
    | FetchRejects e => send_error_message e
    | FetchResponds r =>
        send_error_message (ThrownError "Error" (http_error_message r))
    end.

(** The rejection reason of a failed request carries a message. *)
Definition rejection_has_message (env : SendEnv) : Prop :=
  match send_outcome env with
  | FetchRejects (ThrownError _ message) => message ≠ ""
  | _ => True
  end.

End Vocabulary.

(** ** Sample data *)

Module Sample.

Definition raw (i phone : string) (d : ApiDirection) (text hk : string)
  : ApiMessage :=
  {| api_id := i; phoneNumber := PhoneStr phone; api_direction := d;
     api_lastMessage := text; lastMessageHK := hk; lastMessageSL := hk |}.

Definition raw_json (i phone d text hk : string) : Json :=
  JObject [("id", JString i); ("phoneNumber", JString phone);
           ("direction", JString d); ("lastMessage", JString text);
           ("lastMessageHK", JString hk); ("lastMessageSL", JString hk)].

Definition ok_response (body : Json) : FetchOutcome :=
  FetchResponds {| resp_status := 200; resp_statusText := "OK";
                   resp_text := None; resp_json := Normal body |}.

Definition noon : Z := 1766404800000.

Definition env_of (net : FetchOutcome) : PollEnv :=
  {| poll_outcome := net; poll_clock := λ k, noon + Z.of_nat k;
     poll_timer := 7%nat |}.

Definition send_env (net : FetchOutcome) : SendEnv :=
  {| send_outcome := net; send_request_time := noon;
     send_message_time := noon + 250; send_id_time := noon + 251 |}.

Definition service : ApiService :=
  set_onErrorCallback (Some 2%nat)
    (set_onNewMessageCallback (Some 1%nat) (new_ApiService default_settings)).

(** Two batches that overlap in the identifier [b]. *)
Definition batch_ab : list ApiMessage :=
  [raw "a" "555" INBOUND "hi" "2025-01-01T10:00:00.000Z";
   raw "b" "777" OUTBOUND "on my way" "2025-01-01T09:00:00.000Z"].

Definition batch_bc : list ApiMessage :=
  [raw "b" "777" OUTBOUND "on my way" "2025-01-01T09:00:00.000Z";
   raw "c" "555" INBOUND "are you there" "2025-01-01T12:00:00.000Z"].

(** One identifier twice, with different timestamps. *)
Definition batch_twice : list ApiMessage :=
  [raw "a" "555" INBOUND "first" "2025-01-01T10:00:00.000Z";
   raw "a" "555" INBOUND "second" "2025-01-01T11:00:00.000Z"].

(** An incoming message answered an hour later. *)
Definition batch_answered : list ApiMessage :=
  [raw "a" "555" INBOUND "hi" "2025-01-01T10:00:00.000Z";
   raw "b" "555" OUTBOUND "hello" "2025-01-01T11:00:00.000Z"].

Definition outgoing_11 : Message :=
  {| conversationId := "555"; timestamp := "2025-01-01T11:00:00.000Z";
     body := "hello"; direction := Outgoing; id := Some "b";
     status := Some delivered |}.

Definition json_of (r : ApiMessage) : Json :=
  raw_json (api_id r) (String_of_phone (phoneNumber r))
    (match api_direction r with
     | INBOUND => "INBOUND"
     | OUTBOUND => "OUTBOUND"
     end)
    (api_lastMessage r) (lastMessageHK r).

(** A poll cycle whose request is answered by [batch]. *)
Definition answering (batch : list ApiMessage) : PollEnv :=
  env_of (ok_response (JArray (json_of <$> batch))).

Definition sending : SendEnv := send_env (ok_response JNull).

Definition sending_refused : SendEnv :=
  send_env (FetchResponds {| resp_status := 500;
                             resp_statusText := "Internal Server Error";
                             resp_text := Some "boom";
                             resp_json := Normal JNull |}).

Definition blank_service : ApiService :=
  set_settings {| n8nWebhookUrl := n8nWebhookUrl default_settings;
                  n8nGetMessagesUrl := "  ";
                  pollingInterval := 30 |} service.

End Sample.

(** ** Display helpers ([src/utils/formatters.ts]) *)

Module Formatters.

Definition formatPhoneNumber (phone : string) : string :=
  let cleaned := JsString.digits_only phone in
  if bool_decide (String.length cleaned = 11%nat)
     && JsString.startsWith "1" cleaned then
    let number := JsString.substring_from 1 cleaned in
    "(" +:+ JsString.substring 0 3 number +:+ ") "
    +:+ JsString.substring 3 6 number +:+ "-"
    +:+ JsString.substring_from 6 number
  else phone.

Definition getInitials (name phone : string) : string :=
  if JsString.truthy name && JsString.truthy (JsString.trim name) then
    JsString.slice_to 2
      (JsString.toUpperCase
         (JsString.join
            (JsString.first_char <$> JsString.split_on " " name)))
  else
    let cleaned := JsString.digits_only phone in
    JsString.slice_last 2 cleaned.

Definition truncateMessage (message : string) (maxLength : nat) : string :=
  if bool_decide (String.length message ≤ maxLength)%nat then message
  else JsString.substring 0 maxLength message +:+ "...".

End Formatters.

(** ** The conversation list component: search and preview *)

Module ConversationList.

(** The predicate of [conversations.filter]. *)
Definition matches (searchTerm : string) (contact : Contact) : bool :=
  let searchLower := JsString.toLowerCase searchTerm in
  JsString.includes searchLower (JsString.toLowerCase (name contact))
  || JsString.includes searchLower (JsString.toLowerCase (phone contact))
  || JsString.includes searchLower (JsString.toLowerCase (lastMessage contact)).

Definition filteredConversations (searchTerm : string)
    (conversations : list Contact) : list Contact :=
  filter (λ contact, matches searchTerm contact = true) conversations.

Definition truncateMessage (message : string) (maxLength : nat) : string :=
  if bool_decide (maxLength < String.length message)%nat then
    JsString.substring 0 maxLength message +:+ "..."
  else message.

End ConversationList.

(** ** The chat view component: the shown messages and the lead number *)

Section ChatView.
Context `{DateApi}.

(** The update [handleNewMessages] makes to the shown messages [prev] of
    the conversation [selectedPhone]; [existingIds] holds the identifiers of
    [prev], [undefined] included. *)
Definition handleNewMessages (selectedPhone : string)
    (newMessages prev : list Message) : list Message :=
  let relevantMessages :=
    filter (λ msg, conversationId msg = selectedPhone) newMessages in
  if bool_decide (0 < length relevantMessages)%nat then
    let existingIds := id <$> prev in
    let trulyNewMessages :=
      filter (λ m, id_falsy (id m) = false ∧ id m ∉ existingIds)
        relevantMessages in
    if bool_decide (0 < length trulyNewMessages)%nat then
      js_sort by_time_ascending (prev ++ trulyNewMessages)
    else prev
  else prev.

(** [(a, b) => new Date(a.timestamp).getTime() - new Date(b.timestamp).getTime()]
    on conversations. *)
Definition by_contact_time_ascending (a b : Contact) : option Z :=
  time_diff (contact_getTime a) (contact_getTime b).

(** [calculateLeadNumber]: the lead number after the call, [leadNumber]
    being the one before; [selectedPhone] is [None] for [null]. *)
Definition calculateLeadNumber (selectedPhone : option string)
    (result : ApiResponse (list Contact)) (leadNumber : option nat)
  : option nat :=
  match selectedPhone with
  | None => leadNumber
  | Some selected =>
      if negb (JsString.truthy selected) then leadNumber
      else if negb (bool_decide (is_Some (error_truthy result)))
              && bool_decide (0 < length (data result))%nat then
        let sortedByFirstContact :=
          js_sort by_contact_time_ascending (data result) in
        match list_find (λ c, phone c = selected) sortedByFirstContact with
        | Some (index, _) => Some (index + 1)%nat
        | None => leadNumber
        end
      else leadNumber
  end.

End ChatView.

(** ** Runs of the service *)

Inductive Operation :=
  | OpPollMessages (env : PollEnv)
  | OpPollCompletes (env : PollEnv) (result : ApiResponse (list ApiMessage))
  | OpSendMessage (env : SendEnv) (to body : string)
  | OpSendCompletes (env : SendEnv) (to body : string)
  | OpResetProcessedMessages
  | OpFetchConversations
  | OpFetchMessages (phoneNumber : string)
  | OpFetchNewIncomingMessages
  | OpStartPolling (handle : nat)
  | OpStopPolling
  | OpUpdateSettings (handle : nat) (p : SettingsPatch)
  | OpSetNewMessageCallback (callback : nat)
  | OpSetErrorCallback (callback : nat).

(** The messages told to the new-message subscriber along a trace, and
    their identifiers. *)
Fixpoint notified (t : list Effect) : list Message :=
  match t with
  | [] => []
  | CallNewMessages _ messages :: rest => messages ++ notified rest
  | _ :: rest => notified rest
  end.

(** A computation that tells the new-message subscriber nothing. *)
Definition quiet {A} (m : Js A) : Prop :=
  ∀ s, notified (trace_of (m s)) = [].

Section Runs.
Context `{DateApi}.

Definition outcome {A} (r : Completion A * ApiService * list Effect)
  : ApiService * list Effect := (state_of r, trace_of r).

(** The state and the effects of one operation. *)
Definition perform (o : Operation) (s : ApiService)
  : ApiService * list Effect :=
  match o with
  | OpPollMessages env => outcome (pollMessages env s)
  | OpPollCompletes env result => outcome (pollMessages_merge env result s)
  | OpSendMessage env to body => outcome (sendMessage env to body s)
  | OpSendCompletes env to body => outcome (sendMessage_completes env to body s)
  | OpResetProcessedMessages => outcome (resetProcessedMessages s)
  | OpFetchConversations => outcome (fetchConversations s)
  | OpFetchMessages phoneNumber => outcome (fetchMessages phoneNumber s)
  | OpFetchNewIncomingMessages => outcome (fetchNewIncomingMessages s)
  | OpStartPolling handle => outcome (startPolling handle s)
  | OpStopPolling => outcome (stopPolling s)
  | OpUpdateSettings handle p => outcome (updateSettings handle p s)
  | OpSetNewMessageCallback callback => outcome (setNewMessageCallback callback s)
  | OpSetErrorCallback callback => outcome (setErrorCallback callback s)
  end.

(** A sequence of operations, one after the other. *)
Fixpoint execute (ops : list Operation) (s : ApiService)
  : ApiService * list Effect :=
  match ops with
  | [] => (s, [])
  | o :: rest =>
      let '(s1, t1) := perform o s in
      let '(s2, t2) := execute rest s1 in
      (s2, t1 ++ t2)
  end.

Definition is_reset (o : Operation) : bool :=
  match o with OpResetProcessedMessages => true | _ => false end.

End Runs.

(** ** Vocabulary of the further properties *)

(** The message of the TypeError that reading [id] on [null] raises. *)
Definition null_id_error : string :=
  "Cannot read properties of null (reading 'id')".

(** The identifiers of the messages told to the new-message subscriber. *)
Definition notified_ids (t : list Effect) : list string :=
  omap dedup_key (notified t).

(** What an operation other than a reset tells the subscriber: every
    identifier once, none that had been seen, each seen afterwards. *)
Definition told_once (s s' : ApiService) (t : list Effect) : Prop :=
  NoDup (notified_ids t)
  ∧ (∀ i, i ∈ notified_ids t →
          (i ∉ processedMessageIds s) ∧ i ∈ processedMessageIds s')
  ∧ processedMessageIds s ⊆ processedMessageIds s'
  ∧ length (notified_ids t) = length (notified t).

(** What [stopPolling] cancels, and the request a poll cycle sends. *)
Definition cancels (s : ApiService) : list Effect :=
  from_option (λ h, [ClearInterval h]) [] (pollingTimer s)
  ++ from_option (λ h, [ClearTimeout h]) [] (retryTimeout s).

Definition request (cfg : Settings) : list Effect :=
  if url_blank (n8nGetMessagesUrl cfg) then []
  else [NetGet (n8nGetMessagesUrl cfg)].

Definition same_store_and_subscribers (s s' : ApiService) : Prop :=
  allMessages s' = allMessages s
  ∧ processedMessageIds s' = processedMessageIds s
  ∧ onNewMessageCallback s' = onNewMessageCallback s
  ∧ onErrorCallback s' = onErrorCallback s.

(** The subscribers told of new messages along a trace. *)
Fixpoint told_subscribers (t : list Effect) : list nat :=
  match t with
  | [] => []
  | CallNewMessages h _ :: rest => h :: told_subscribers rest
  | _ :: rest => told_subscribers rest
  end.

Definition is_subscription (o : Operation) : bool :=
  match o with OpSetNewMessageCallback _ => true | _ => false end.

(** An operation that keeps the subscriber and tells no other. *)
Definition told_only (s s' : ApiService) (t : list Effect) : Prop :=
  onNewMessageCallback s' = onNewMessageCallback s
  ∧ Forall (λ h, onNewMessageCallback s = Some h) (told_subscribers t).

(** Further sample data. *)
Module Scenario.

Definition answer (content : Json) : Response :=
  {| resp_status := 200; resp_statusText := "OK";
     resp_text := None; resp_json := Normal content |}.

Definition first_item : Json :=
  Sample.raw_json "a" "555" "INBOUND" "hi" "2025-01-01T10:00:00.000Z".

Definition items_with_null : list Json := [first_item; JNull].

Definition items_with_junk : list Json := [first_item; JString "junk"].

Definition not_a_list : Json :=
  JObject [("message", JString "Workflow was started")].

Definition failed (text : string) : ApiResponse (list ApiMessage) :=
  {| data := []; error := Some text |}.

Definition later (env : PollEnv) : PollEnv :=
  {| poll_outcome := poll_outcome env; poll_clock := poll_clock env;
     poll_timer := 8%nat |}.

Definition undated : Message :=
  {| conversationId := "555"; timestamp := "yesterday"; body := "hi";
     direction := Incoming; id := Some "u"; status := None |}.

Definition summary (number time : string) : Contact :=
  {| phone := number; name := formatPhoneNumber number; lastMessage := "hi";
     contact_timestamp := time; unread := Some true |}.

(** An outgoing message followed by an incoming one an hour later. *)
Definition batch_unanswered : list ApiMessage :=
  [Sample.raw "a" "555" OUTBOUND "hello" "2025-01-01T10:00:00.000Z";
   Sample.raw "b" "555" INBOUND "are you there" "2025-01-01T11:00:00.000Z"].

Definition incoming_11 : Message :=
  {| conversationId := "555"; timestamp := "2025-01-01T11:00:00.000Z";
     body := "are you there"; direction := Incoming; id := Some "b";
     status := None |}.

(** An outgoing and an incoming message of one conversation with the same
    timestamp, in both orders. *)
Definition batch_tie : list ApiMessage :=
  [Sample.raw "a" "555" OUTBOUND "out" "2025-01-01T10:00:00.000Z";
   Sample.raw "b" "555" INBOUND "in" "2025-01-01T10:00:00.000Z"].

Definition batch_tie_swapped : list ApiMessage :=
  [Sample.raw "b" "555" INBOUND "in" "2025-01-01T10:00:00.000Z";
   Sample.raw "a" "555" OUTBOUND "out" "2025-01-01T10:00:00.000Z"].

Definition tie_out : Message :=
  {| conversationId := "555"; timestamp := "2025-01-01T10:00:00.000Z";
     body := "out"; direction := Outgoing; id := Some "a";
     status := Some delivered |}.

Definition tie_in : Message :=
  {| conversationId := "555"; timestamp := "2025-01-01T10:00:00.000Z";
     body := "in"; direction := Incoming; id := Some "b";
     status := None |}.

End Scenario.

(** * Properties *)

#[local] Set Warnings "-clear-no-such-hyp".

(** ** The monad *)

Ltac run_js :=
  unfold result_of, state_of, trace_of, mbind, mret, Js_bind, Js_ret,
    bind, try_catch, ret, throw, gets, modify, emit, lift in *.

(** ** The sort *)

Section Sort.
Context {A : Type} (cmp : A → A → option Z).

Lemma js_insert_perm x l : js_insert cmp x l ≡ₚ x :: l.
Proof.
  induction l as [|y l IH]; simpl; [done|].
  destruct (positive_number (cmp x y)); [|done].
  rewrite IH. apply Permutation_swap.
Qed.

Lemma js_sort_perm l : js_sort cmp l ≡ₚ l.
Proof.
  induction l as [|x l IH]; simpl; [done|].
  rewrite js_insert_perm. by rewrite IH.
Qed.

Lemma js_sort_length l : length (js_sort cmp l) = length l.
Proof. by rewrite js_sort_perm. Qed.

Lemma js_sort_elem_of x l : x ∈ js_sort cmp l ↔ x ∈ l.
Proof. by rewrite js_sort_perm. Qed.

(** With a key that is defined on every element and a comparator that is
    the difference of the keys, the result is sorted by key. *)
Context (key : A → option Z).
Hypothesis cmp_key : ∀ a b, cmp a b = time_diff (key a) (key b).

Lemma js_insert_sorted x l :
  is_Some (key x) → Forall (λ y, is_Some (key y)) l →
  StronglySorted (key_le key) l →
  StronglySorted (key_le key) (js_insert cmp x l).
Proof.
  intros [tx Hx] Hl Hs. induction l as [|y l IH]; simpl.
  - repeat constructor.
  - apply Forall_cons in Hl as [[ty Hy] Hl].
    apply StronglySorted_cons in Hs as [Hy_le Hs].
    rewrite cmp_key, Hx, Hy. simpl.
    destruct (0 <? tx - ty) eqn:Hgt.
    + apply StronglySorted_cons. split; [|by apply IH].
      rewrite js_insert_perm. constructor; [|done].
      exists ty, tx. repeat split; [done..|lia].
    + apply StronglySorted_cons. split.
      * constructor.
        -- exists tx, ty. repeat split; [done..|lia].
        -- eapply Forall_impl; [exact Hy_le|].
           intros z (ty' & tz & Hy' & Hz & Hle).
           exists tx, tz. repeat split; [done..|].
           rewrite Hy in Hy'. simplify_eq. lia.
      * by apply StronglySorted_cons.
Qed.

Lemma js_sort_sorted l :
  Forall (λ y, is_Some (key y)) l →
  StronglySorted (key_le key) (js_sort cmp l).
Proof.
  induction 1 as [|x l Hx Hl IH]; simpl; [constructor|].
  apply js_insert_sorted; [done| |done].
  by rewrite js_sort_perm.
Qed.

End Sort.

(** ** Insertion-ordered maps *)

Section MapSet.
Context {V : Type}.
Implicit Types (m : list (string * V)).

Lemma assoc_get_map_set_eq k v m : assoc_get k (map_set k v m) = Some v.
Proof.
  induction m as [|[k' v'] m IH]; simpl.
  - by rewrite decide_True.
  - destruct (decide (k = k')); simpl.
    + by rewrite decide_True.
    + by rewrite decide_False.
Qed.

Lemma assoc_get_map_set_ne k k' v m :
  k ≠ k' → assoc_get k' (map_set k v m) = assoc_get k' m.
Proof.
  intros Hne. induction m as [|[k0 v0] m IH]; simpl.
  - rewrite decide_False; [done|congruence].
  - destruct (decide (k = k0)) as [->|]; simpl.
    + rewrite !decide_False; [done|congruence..].
    + destruct (decide (k' = k0)); [done|apply IH].
Qed.

Lemma assoc_get_Some_elem_of k v m : assoc_get k m = Some v → (k, v) ∈ m.
Proof.
  induction m as [|[k' v'] m IH]; simpl; [done|].
  destruct (decide (k = k')) as [->|]; intros ?; simplify_eq.
  - left.
  - right. by apply IH.
Qed.

Lemma assoc_get_None_keys k m : assoc_get k m = None ↔ k ∉ m.*1.
Proof.
  induction m as [|[k' v'] m IH]; simpl.
  - split; [intros _; apply not_elem_of_nil|done].
  - rewrite not_elem_of_cons. destruct (decide (k = k')) as [->|Hne].
    + split; [done|by intros [? _]].
    + rewrite IH. split; [by intros ?|by intros [_ ?]].
Qed.

Lemma elem_of_assoc_get k v m : NoDup m.*1 → (k, v) ∈ m → assoc_get k m = Some v.
Proof.
  induction m as [|[k' v'] m IH]; simpl; [by intros _ ?%elem_of_nil|].
  intros [Hk Hnd]%NoDup_cons [?|Hin]%elem_of_cons; simplify_eq.
  - by rewrite decide_True.
  - rewrite decide_False; [by apply IH|].
    intros ->. apply Hk. apply list_elem_of_fmap. by exists (k', v).
Qed.

Lemma map_set_keys k v m :
  (map_set k v m).*1 = if decide (k ∈ m.*1) then m.*1 else m.*1 ++ [k].
Proof.
  induction m as [|[k' v'] m IH].
  - case_decide as Hin; [by apply elem_of_nil in Hin|done].
  - cbn [map_set]. destruct (decide (k = k')) as [->|Hne].
    + rewrite decide_True; [done|cbn; left].
    + cbn [fmap list_fmap fst]. cbn in IH. rewrite IH.
      destruct (decide (k ∈ m.*1)) as [Hin|Hin].
      * rewrite decide_True; [done|by right].
      * rewrite decide_False; [done|]. rewrite not_elem_of_cons. done.
Qed.

Lemma map_set_NoDup k v m : NoDup m.*1 → NoDup (map_set k v m).*1.
Proof.
  intros Hnd. rewrite map_set_keys. destruct (decide (k ∈ m.*1)); [done|].
  apply NoDup_app. split_and!; [done| |apply NoDup_singleton].
  intros x Hx ->%list_elem_of_singleton. done.
Qed.

Lemma elem_of_map_set k v k' v' m :
  (k', v') ∈ map_set k v m → (k', v') = (k, v) ∨ (k', v') ∈ m.
Proof.
  induction m as [|[k0 v0] m IH]; simpl.
  - intros ?%list_elem_of_singleton. by left.
  - destruct (decide (k = k0)) as [->|].
    + intros [?|?]%elem_of_cons; [by left|right; by right].
    + intros [?|?]%elem_of_cons; [right; simplify_eq; left|].
      destruct IH as [?|?]; [done|by left|right; by right].
Qed.

End MapSet.

(** ** Validation of raw messages *)

(** An element that passes the filter has every field of [ApiMessage] at
    its declared type, so reading it as an [ApiMessage] loses nothing. *)
Lemma isValid_toApiMessage (msg : Json) :
  isValid msg = true → is_Some (toApiMessage msg).
Proof.
  unfold isValid, toApiMessage. cbn zeta. intros Hvalid.
  repeat (apply andb_prop in Hvalid as [Hvalid ?]).
  destruct (prop "id" msg) as [[]|]; try done.
  destruct (prop "lastMessage" msg) as [[]|]; try done.
  destruct (prop "lastMessageHK" msg) as [[]|]; try done.
  destruct (prop "lastMessageSL" msg) as [[]|]; try done.
  destruct (prop "direction" msg) as [[| | |d| |]|]; try done.
  destruct (prop "phoneNumber" msg) as [[]|]; try done;
    repeat case_decide; try done; simpl in *;
    (destruct (bool_decide (d = "INBOUND")) eqn:?,
       (bool_decide (d = "OUTBOUND")) eqn:?; try done;
     repeat match goal with
            | Hb : bool_decide _ = true |- _ =>
                apply bool_decide_eq_true in Hb
            end; congruence).
Qed.

(** ** The timestamp normaliser *)

Section NormaliserFacts.
Context `{DateApi}.

Lemma convertTimestamp_try_eq now ts :
  convertTimestamp_try now ts =
  Normal (match Date_parse ts with
          | Some t => toISOString t
          | None => toISOString now
          end).
Proof.
  unfold convertTimestamp_try.
  destruct (JsString.includes_char "/" ts && JsString.includes_char "," ts);
    destruct (Date_parse ts); reflexivity.
Qed.

Lemma convertTimestamp_eq now ts :
  convertTimestamp now ts =
  match Date_parse ts with
  | Some t => toISOString t
  | None => toISOString now
  end.
Proof.
  unfold convertTimestamp, convertTimestamp_completion.
  by rewrite convertTimestamp_try_eq.
Qed.

(** C6. The timestamp normaliser completes normally on every string: a
    string the platform parses to the instant [t] is normalised to the ISO
    form of [t], every other string to the ISO form of the current time;
    the handler of the [try] block is never needed for that. *)
Theorem convertTimestamp_total (now : Z) (ts : string) :
  let canonical := match Date_parse ts with
                   | Some t => toISOString t
                   | None => toISOString now
                   end in
  convertTimestamp_try now ts = Normal canonical
  ∧ convertTimestamp_completion now ts = Normal canonical
  ∧ convertTimestamp now ts = canonical.
Proof.
  cbn zeta. unfold convertTimestamp, convertTimestamp_completion.
  rewrite convertTimestamp_try_eq. done.
Qed.

End NormaliserFacts.

(** ** The conversation aggregator *)

Section Aggregator.
Context `{DateApi}.

Lemma conversation_step_eq cmap m :
  conversation_step cmap m =
  match getTime m with
  | None => Throw (ThrownError "RangeError" "Invalid time value")
  | Some t =>
      match assoc_get (conversationId m) cmap with
      | None => Normal (map_set (conversationId m) (summary_of m) cmap)
      | Some c =>
          match contact_getTime c with
          | None => Throw (ThrownError "RangeError" "Invalid time value")
          | Some tc =>
              Normal (if tc <? t
                      then map_set (conversationId m) (summary_of m) cmap
                      else cmap)
          end
      end
  end.
Proof.
  unfold conversation_step, summary_of.
  destruct (getTime m) as [t|]; simpl; [|done].
  destruct (assoc_get (conversationId m) cmap) as [c|]; simpl.
  - destruct (contact_getTime c) as [tc|]; simpl; [|done].
    destruct (tc <? t); simpl.
    + by rewrite andb_true_r.
    + by rewrite andb_false_r.
  - by rewrite andb_true_r.
Qed.

Lemma elem_of_snoc {A} (x y : A) l : x ∈ l ++ [y] ↔ x ∈ l ∨ x = y.
Proof. by rewrite elem_of_app, list_elem_of_singleton. Qed.

Lemma aggregated_nil : aggregated [] [].
Proof.
  split_and!; [constructor|done|]. by intros m ?%elem_of_nil.
Qed.

Lemma first_latest_elem_of l m : first_latest l m → m ∈ l.
Proof.
  intros (l1 & l2 & t & -> & _). apply elem_of_app. right. left.
Qed.

Lemma first_latest_max l m t :
  first_latest l m → getTime m = Some t →
  ∀ m', m' ∈ l → conversationId m' = conversationId m →
        ∃ t', getTime m' = Some t' ∧ t' ≤ t.
Proof.
  intros (l1 & l2 & t0 & -> & Ht0 & Hbefore & Hafter) Ht m' Hin Hk.
  assert (t0 = t) as -> by congruence.
  apply elem_of_app in Hin as [Hin|[->|Hin]%elem_of_cons].
  - destruct (Hbefore m' Hin Hk) as (t' & ? & ?). exists t'. split; [done|lia].
  - exists t. split; [done|lia].
  - eauto.
Qed.

Lemma first_latest_snoc_keep l m0 m t0 :
  first_latest l m0 → getTime m0 = Some t0 →
  (conversationId m = conversationId m0 →
   ∃ t, getTime m = Some t ∧ t ≤ t0) →
  first_latest (l ++ [m]) m0.
Proof.
  intros (l1 & l2 & t & -> & Ht & Hbefore & Hafter) Ht0 Hm.
  assert (t = t0) as -> by congruence.
  exists l1, (l2 ++ [m]), t0. split_and!; [by rewrite <-app_assoc|done..|].
  intros m' [Hin| ->]%elem_of_snoc Hk; [eauto|]. by apply Hm.
Qed.

Lemma first_latest_snoc_new l m t :
  getTime m = Some t →
  (∀ m', m' ∈ l → conversationId m' = conversationId m →
         ∃ t', getTime m' = Some t' ∧ t' < t) →
  first_latest (l ++ [m]) m.
Proof.
  intros Ht Hbefore. exists l, [], t. split_and!; [done..|].
  by intros m' ?%elem_of_nil.
Qed.

Lemma represents_time l k c :
  represents l k c → ∃ t, contact_getTime c = Some t.
Proof. intros (m & _ & -> & _ & _ & t & _ & Ht & _). by exists t. Qed.

Lemma conversation_step_total l cmap m :
  aggregated l cmap → is_Some (getTime m) →
  ∃ cmap', conversation_step cmap m = Normal cmap'.
Proof.
  intros (_ & Hrep & _) [t Ht]. rewrite conversation_step_eq, Ht.
  destruct (assoc_get (conversationId m) cmap) as [c|] eqn:Hc; [|eauto].
  destruct (represents_time _ _ _ (Hrep _ _ Hc)) as [tc ->]. eauto.
Qed.

Lemma represents_snoc_other l k c m :
  conversationId m ≠ k → represents l k c → represents (l ++ [m]) k c.
Proof.
  intros Hne (m0 & Hk & -> & Hfirst).
  exists m0. split_and!; [done..|].
  destruct Hfirst as (l1 & l2 & t0 & Hl & Ht0 & Hrest).
  apply (first_latest_snoc_keep _ _ _ t0); [by exists l1, l2, t0|done|].
  intros Heq. congruence.
Qed.

Lemma conversation_step_aggregated l cmap m cmap' :
  aggregated l cmap → conversation_step cmap m = Normal cmap' →
  aggregated (l ++ [m]) cmap'.
Proof.
  intros (Hnd & Hrep & Hkeys). rewrite conversation_step_eq.
  destruct (getTime m) as [t|] eqn:Ht; [|done].
  assert (Hnew : ∀ k c,
    (∀ m', m' ∈ l → conversationId m' = conversationId m →
           ∃ t', getTime m' = Some t' ∧ t' < t) →
    assoc_get k (map_set (conversationId m) (summary_of m) cmap) = Some c →
    represents (l ++ [m]) k c).
  { intros k c Hlt. destruct (decide (conversationId m = k)) as [<-|Hne].
    - rewrite assoc_get_map_set_eq. intros [= <-].
      exists m. split_and!; [done..|]. by apply (first_latest_snoc_new _ _ t).
    - rewrite assoc_get_map_set_ne by done. intros Hc.
      by apply represents_snoc_other, Hrep. }
  assert (Hkeys' : ∀ m', m' ∈ l ++ [m] →
    conversationId m'
      ∈ (map_set (conversationId m) (summary_of m) cmap).*1).
  { intros m' Hin. rewrite map_set_keys.
    apply elem_of_snoc in Hin as [Hin| ->].
    - apply Hkeys in Hin. case_decide; [done|]. apply elem_of_app. by left.
    - case_decide; [done|]. apply elem_of_snoc. by right. }
  destruct (assoc_get (conversationId m) cmap) as [c|] eqn:Hc.
  - destruct (Hrep _ _ Hc) as (m0 & Hk0 & -> & Hfirst).
    pose proof Hfirst as (_ & _ & t0 & _ & Ht0 & _).
    change (contact_getTime (summary_of m0)) with (getTime m0).
    rewrite Ht0. intros [= <-]. destruct (t0 <? t) eqn:Hlt.
    + split_and!; [by apply map_set_NoDup| |done].
      intros k c. apply Hnew. intros m' Hin' Hk'.
      destruct (first_latest_max _ _ _ Hfirst Ht0 m' Hin') as (t' & ? & ?);
        [congruence|].
      exists t'. split; [done|lia].
    + split_and!; [done| |].
      * intros k c Hkc. destruct (decide (conversationId m = k)) as [<-|Hne];
          [|by apply represents_snoc_other, Hrep].
        rewrite Hc in Hkc. injection Hkc as <-.
        exists m0. split_and!; [done..|].
        apply (first_latest_snoc_keep _ _ _ t0); [done..|].
        intros _. exists t. split; [done|lia].
      * intros m' [?| ->]%elem_of_snoc; [eauto|].
        apply assoc_get_Some_elem_of in Hc.
        apply list_elem_of_fmap. by exists (conversationId m, summary_of m0).
  - intros [= <-]. split_and!; [by apply map_set_NoDup| |done].
    intros k c. apply Hnew. intros m' Hin' Hk'.
    apply Hkeys in Hin'. rewrite Hk' in Hin'.
    by apply assoc_get_None_keys in Hc.
Qed.

Lemma conversation_forEach_aggregated rest :
  ∀ l cmap cmap',
    aggregated l cmap → conversation_forEach cmap rest = Normal cmap' →
    aggregated (l ++ rest) cmap'.
Proof.
  induction rest as [|m rest IH]; intros l cmap cmap' Hagg; simpl.
  - intros [= <-]. by rewrite app_nil_r.
  - destruct (conversation_step cmap m) as [cmap1|] eqn:Hstep; [|done].
    intros Hrest. rewrite (assoc _ l [m] rest : l ++ m :: rest = _).
    eapply IH; [|done]. by eapply conversation_step_aggregated.
Qed.

Lemma conversation_forEach_total rest :
  ∀ l cmap,
    aggregated l cmap → timestamps_valid rest →
    ∃ cmap', conversation_forEach cmap rest = Normal cmap'.
Proof.
  induction rest as [|m rest IH]; intros l cmap Hagg Hvalid; simpl; [eauto|].
  apply Forall_cons in Hvalid as [Hm Hvalid].
  destruct (conversation_step_total l cmap m Hagg Hm) as [cmap1 Hstep].
  rewrite Hstep. eapply (IH (l ++ [m])); [|done].
  by eapply conversation_step_aggregated.
Qed.

Lemma aggregated_values_valid l cmap :
  aggregated l cmap →
  Forall (λ c, is_Some (contact_getTime c)) (map_values cmap).
Proof.
  intros (Hnd & Hrep & _). apply Forall_forall. intros c Hc.
  apply list_elem_of_fmap in Hc as ([k c'] & -> & Hin).
  apply elem_of_assoc_get in Hin; [|done].
  destruct (represents_time _ _ _ (Hrep _ _ Hin)) as [t Ht]. by exists t.
Qed.

Lemma StronglySorted_weaken {A} (R R' : A → A → Prop) l :
  (∀ a b, R a b → R' a b) → StronglySorted R l → StronglySorted R' l.
Proof.
  intros HR. induction 1 as [|x l Hs IH Hx]; constructor; [done|].
  eapply Forall_impl; [exact Hx|]. intros y. apply HR.
Qed.

Lemma js_sort_newest_first (l : list Contact) :
  Forall (λ c, is_Some (contact_getTime c)) l →
  newest_first (js_sort by_time_descending l).
Proof.
  intros Hl. unfold newest_first.
  apply (StronglySorted_weaken
           (key_le (λ c, Z.opp <$> contact_getTime c))).
  - intros a b (ta & tb & Ha & Hb & Hle).
    destruct (contact_getTime a) as [ta'|] eqn:Ha'; [|done].
    destruct (contact_getTime b) as [tb'|] eqn:Hb'; [|done].
    simpl in *. simplify_eq. exists ta', tb'. split_and!; [done..|lia].
  - apply js_sort_sorted.
    + intros a b. unfold by_time_descending.
      destruct (contact_getTime a), (contact_getTime b); simpl; try done.
      f_equal. lia.
    + eapply Forall_impl; [exact Hl|]. intros c [t ->]. by eexists.
Qed.

(** The run of [fetchConversations] in terms of the [forEach] loop. *)
Lemma fetchConversations_run s :
  fetchConversations s =
  (Normal match conversation_forEach [] (allMessages s) with
          | Normal cmap =>
              {| data := js_sort by_time_descending (map_values cmap);
                 error := None |}
          | Throw e =>
              {| data := [];
                 error := Some (error_message_or "Unknown error" e) |}
          end, s, []).
Proof.
  unfold fetchConversations, getAllMessages. run_js.
  destruct (conversation_forEach [] (allMessages s)); reflexivity.
Qed.

(** C9. Conversation aggregation reads the store and nothing else: a call
    leaves the service as it was and has no external effect, a second call
    returns what the first returned, the result is the same for any two
    services holding the same messages, and the conversations returned are
    sorted newest first by their timestamps. *)
Theorem fetchConversations_pure (s : ApiService) :
  state_of (fetchConversations s) = s
  ∧ trace_of (fetchConversations s) = []
  ∧ fetchConversations (state_of (fetchConversations s)) = fetchConversations s
  ∧ (∀ s', result_of (fetchConversations (set_allMessages (allMessages s) s'))
           = result_of (fetchConversations s))
  ∧ ∃ r, result_of (fetchConversations s) = Normal r ∧ newest_first (data r).
Proof.
  rewrite !fetchConversations_run. unfold state_of, trace_of, result_of.
  simpl. split_and!; [done..| |].
  - intros s'. by rewrite fetchConversations_run.
  - eexists. split; [done|].
    destruct (conversation_forEach [] (allMessages s)) as [cmap|e] eqn:Hrun;
      simpl; [|constructor].
    apply js_sort_newest_first. apply (aggregated_values_valid (allMessages s)).
    by apply (conversation_forEach_aggregated _ [] []), Hrun; apply aggregated_nil.
Qed.

(** C5. When every stored timestamp is a valid date and [m] is a latest
    message of its conversation, aggregation succeeds and returns exactly
    one summary for that conversation, with the timestamp of [m].  The
    summary is built from the first, in store order, of the latest messages
    of the conversation, and its unread flag is the direction of that
    message: unread for Incoming, read for Outgoing, whatever came earlier
    in the conversation.  When the messages of the conversation that are as
    late as [m] all have the direction of [m], the flag is the direction of
    [m]; when an Incoming and an Outgoing message share the latest
    instant, the one that comes first in the store decides. *)
Theorem unread_follows_first_latest (s : ApiService) (m : Message) :
  timestamps_valid (allMessages s) →
  latest_in_group (allMessages s) m →
  ∃ r c m0,
    result_of (fetchConversations s) = Normal r
    ∧ error r = None
    ∧ c ∈ data r
    ∧ phone c = conversationId m
    ∧ contact_getTime c = getTime m
    ∧ (∀ c', c' ∈ data r → phone c' = conversationId m → c' = c)
    ∧ first_latest (allMessages s) m0
    ∧ conversationId m0 = conversationId m
    ∧ getTime m0 = getTime m
    ∧ c = summary_of m0
    ∧ (direction m0 = Incoming → unread c = Some true)
    ∧ (direction m0 = Outgoing → unread c = Some false)
    ∧ ((∀ m', m' ∈ group (conversationId m) (allMessages s) →
              getTime m' = getTime m → direction m' = direction m) →
       (direction m = Incoming → unread c = Some true)
       ∧ (direction m = Outgoing → unread c = Some false)).
Proof.
  intros Hvalid (Hin & t & Ht & Hlatest).
  rewrite fetchConversations_run. unfold result_of. simpl.
  destruct (conversation_forEach_total (allMessages s) [] [] aggregated_nil Hvalid)
    as [cmap Hrun].
  rewrite Hrun.
  pose proof (conversation_forEach_aggregated _ [] [] _ aggregated_nil Hrun)
    as (Hnd & Hrep & Hkeys). simpl in Hrep, Hkeys.
  destruct (assoc_get (conversationId m) cmap) as [c|] eqn:Hc;
    [|by apply assoc_get_None_keys in Hc; destruct Hc; apply Hkeys].
  destruct (Hrep _ _ Hc) as (m0 & Hk0 & -> & Hfirst).
  pose proof Hfirst as (_ & _ & t0 & _ & Ht0 & _).
  pose proof (first_latest_elem_of _ _ Hfirst) as Hin0.
  assert (m0 ∈ group (conversationId m) (allMessages s)) as Hgroup
    by by apply list_elem_of_filter.
  assert (t0 = t) as ->.
  { destruct (first_latest_max _ _ _ Hfirst Ht0 m Hin) as (t' & Ht' & Hle);
      [done|].
    destruct (Hlatest m0 Hgroup) as (t0' & Ht0' & Hle0).
    simplify_eq. lia. }
  eexists _, (summary_of m0), m0. split_and!; [done..| | | | | | | | | | |].
  - simpl. apply js_sort_elem_of, list_elem_of_fmap.
    exists (conversationId m, summary_of m0).
    split; [done|by apply assoc_get_Some_elem_of].
  - done.
  - simpl. unfold contact_getTime. simpl. by rewrite Ht, <-Ht0.
  - simpl. intros c' Hc' Hphone.
    apply js_sort_elem_of, list_elem_of_fmap in Hc' as ([k c''] & -> & Hin').
    simpl in *. apply elem_of_assoc_get in Hin'; [|done].
    destruct (Hrep _ _ Hin') as (m1 & Hk1 & Hc1 & _).
    subst c''. simpl in Hphone. rewrite <-Hk1, Hphone, Hc in Hin'.
    congruence.
  - done.
  - done.
  - congruence.
  - done.
  - simpl. by intros ->.
  - simpl. by intros ->.
  - intros Hsame.
    assert (direction m0 = direction m) as <-
      by (apply Hsame; [done|congruence]).
    simpl. split; by intros ->.
Qed.

End Aggregator.

(** ** The filter for new messages *)

Lemma truthy_ne (i : string) : JsString.truthy i = true ↔ i ≠ "".
Proof. destruct i; simpl; split; congruence. Qed.

Lemma is_new_spec seen m :
  is_new seen m = true ↔ ∃ i, id m = Some i ∧ i ≠ "" ∧ i ∉ seen.
Proof.
  unfold is_new. destruct (id m) as [i|]; [|naive_solver].
  rewrite andb_true_iff, truthy_ne, bool_decide_eq_true. naive_solver.
Qed.

Lemma dedup_key_Some m i : dedup_key m = Some i ↔ id m = Some i ∧ i ≠ "".
Proof.
  unfold dedup_key. destruct (id m) as [j|]; [|naive_solver].
  destruct (JsString.truthy j) eqn:Hj.
  - apply truthy_ne in Hj. naive_solver.
  - apply not_true_iff_false in Hj. rewrite truthy_ne in Hj. naive_solver.
Qed.

Lemma filter_new_cons seen msg rest :
  filter_new seen (msg :: rest) =
  if is_new seen msg then
    ((msg :: (filter_new (default ∅ (singleton <$> id msg) ∪ seen) rest).1),
     (filter_new (default ∅ (singleton <$> id msg) ∪ seen) rest).2)
  else filter_new seen rest.
Proof.
  unfold is_new. simpl. destruct (id msg) as [i|]; [|done]. simpl.
  destruct (JsString.truthy i); simpl; [|done].
  destruct (decide (i ∈ seen)).
  - by rewrite bool_decide_eq_false_2 by auto.
  - rewrite bool_decide_eq_true_2 by done.
    by destruct (filter_new ({[i]} ∪ seen) rest).
Qed.

Lemma filter_new_seen l :
  ∀ seen, (filter_new seen l).2 = seen ∪ list_to_set (omap dedup_key l).
Proof.
  induction l as [|msg rest IH]; intros seen.
  - simpl. set_solver.
  - rewrite filter_new_cons. cbn [omap list_omap].
    destruct (is_new seen msg) eqn:Hnew.
    + apply is_new_spec in Hnew as (i & Hi & Hne & Hseen).
      cbn [snd]. rewrite IH, Hi.
      rewrite (proj2 (dedup_key_Some msg i)) by done. simpl. set_solver.
    + rewrite IH. destruct (dedup_key msg) as [i|] eqn:Hk; [|done].
      apply dedup_key_Some in Hk as [Hi Hne]. simpl.
      assert (i ∈ seen); [|set_solver].
      destruct (decide (i ∈ seen)); [done|].
      rewrite (proj2 (is_new_spec seen msg)) in Hnew; [done|eauto].
Qed.

Lemma filter_new_sound l :
  ∀ seen m, m ∈ (filter_new seen l).1 → m ∈ l ∧ is_new seen m = true.
Proof.
  induction l as [|msg rest IH]; intros seen m.
  - by intros ?%elem_of_nil.
  - rewrite filter_new_cons. destruct (is_new seen msg) eqn:Hnew.
    + cbn [fst]. intros [->|Hin]%elem_of_cons; [split; [left|done]|].
      apply IH in Hin as [Hin Hm]. split; [by right|].
      apply is_new_spec in Hm as (i & ? & ? & ?).
      apply is_new_spec. exists i. split_and!; [done..|set_solver].
    + intros [? ?]%IH. split; [by right|done].
Qed.

Lemma filter_ext_elem_of {A} (P Q : A → Prop)
    `{!∀ x, Decision (P x), !∀ x, Decision (Q x)} (l : list A) :
  (∀ x, x ∈ l → P x ↔ Q x) → filter P l = filter Q l.
Proof.
  induction l as [|x l IH]; intros HPQ; [done|].
  rewrite !filter_cons.
  assert (filter P l = filter Q l) as ->.
  { apply IH. intros y Hy. apply HPQ. by right. }
  destruct (decide (P x)) as [HP|HP], (decide (Q x)) as [HQ|HQ];
    try done; exfalso; apply (HPQ x) in HP || apply (HPQ x) in HQ;
    done || left.
Qed.

Lemma filter_all {A} (P : A → Prop) `{!∀ x, Decision (P x)} (l : list A) :
  (∀ x, x ∈ l → P x) → filter P l = l.
Proof.
  induction l as [|x l IH]; intros HP; [done|].
  rewrite filter_cons_True by (apply HP; left).
  f_equal. apply IH. intros y Hy. apply HP. by right.
Qed.

Lemma filter_new_NoDup l :
  ∀ seen, NoDup (id <$> l) →
          (filter_new seen l).1 = filter (λ m, is_new seen m = true) l.
Proof.
  induction l as [|msg rest IH]; intros seen Hnd; [done|].
  apply NoDup_cons in Hnd as [Hmsg Hnd].
  rewrite filter_new_cons, filter_cons.
  destruct (is_new seen msg) eqn:Hnew.
  - rewrite decide_True by done. cbn [fst]. f_equal.
    rewrite IH by done. apply filter_ext_elem_of. intros m Hm.
    apply is_new_spec in Hnew as (i & Hi & _ & _). rewrite Hi. simpl.
    rewrite !is_new_spec. split.
    + intros (j & Hj & ? & ?). exists j. split_and!; [done..|set_solver].
    + intros (j & Hj & ? & ?). exists j. split_and!; [done..|].
      assert (j ≠ i); [|set_solver]. intros ->. apply Hmsg.
      rewrite Hi, <-Hj. apply list_elem_of_fmap. eauto.
  - rewrite decide_False by congruence. by apply IH.
Qed.

Lemma filter_new_by_id l :
  ∀ seen i, i ≠ "" →
    filter (λ m, id m = Some i) (filter_new seen l).1
    = if decide (i ∈ seen) then []
      else take 1 (filter (λ m, id m = Some i) l).
Proof.
  induction l as [|msg rest IH]; intros seen i Hne.
  - simpl. by case_decide.
  - rewrite filter_new_cons. rewrite (filter_cons _ msg rest).
    destruct (is_new seen msg) eqn:Hnew.
    + apply is_new_spec in Hnew as (j & Hj & Hjne & Hjseen).
      cbn [fst]. rewrite filter_cons, IH by done. rewrite Hj. simpl.
      destruct (decide (Some j = Some i)) as [[= ->]|Hji].
      * rewrite decide_True by set_solver. by rewrite decide_False.
      * assert (i ≠ j) by congruence.
        destruct (decide (i ∈ seen)).
        -- rewrite decide_True by set_solver. done.
        -- rewrite decide_False by set_solver. done.
    + rewrite IH by done.
      destruct (decide (id msg = Some i)) as [Hi|Hi]; [|done].
      destruct (decide (i ∈ seen)) as [|Hseen]; [done|].
      rewrite (proj2 (is_new_spec seen msg)) in Hnew; [done|eauto].
Qed.

(** ** The poll cycle *)

Section Poll.
Context `{DateApi}.

Lemma pollMessages_merge_success env result s :
  error_truthy result = None →
  let sorted := sorted_batch env (data result) in
  pollMessages_merge env result s =
  (Normal tt,
   set_processedMessageIds (filter_new (processedMessageIds s) sorted).2
     (set_allMessages sorted s),
   notification s (filter_new (processedMessageIds s) sorted).1).
Proof.
  intros Hok. unfold pollMessages_merge, sorted_batch, notification.
  rewrite Hok. run_js. simpl.
  destruct (filter_new _ _) as [news seen'] eqn:Hf. simpl.
  destruct news as [|m news]; simpl; [done|].
  by destruct (onNewMessageCallback s).
Qed.

Lemma pollMessages_merge_failure env result s e :
  error_truthy result = Some e →
  pollMessages_merge env result s =
  (Normal tt, set_retryTimeout (Some (poll_timer env)) s,
   error_notification s e ++ [SetTimeoutPoll (poll_timer env) 60000]).
Proof.
  intros Herr. unfold pollMessages_merge, error_notification.
  rewrite Herr. run_js. simpl. by destruct (onErrorCallback s).
Qed.

Lemma replaceAll_run env batch s :
  replaceAll env batch s =
  (Normal tt,
   set_processedMessageIds
     (processedMessageIds s
      ∪ list_to_set (omap dedup_key (sorted_batch env batch)))
     (set_allMessages (sorted_batch env batch) s),
   notification s (increment env batch s)).
Proof.
  unfold replaceAll. rewrite pollMessages_merge_success by done.
  simpl. by rewrite filter_new_seen.
Qed.

Lemma convertedMessages_ids clock batch :
  id <$> convertedMessages clock batch = Some <$> (api_id <$> batch).
Proof.
  unfold convertedMessages. revert clock.
  induction batch as [|r batch IH]; intros clock; [done|].
  rewrite imap_cons. cbn [fmap list_fmap]. f_equal. apply (IH (clock ∘ S)).
Qed.

Lemma sorted_batch_perm env batch :
  sorted_batch env batch ≡ₚ convertedMessages (poll_clock env) batch.
Proof. apply js_sort_perm. Qed.

Lemma sorted_batch_ids env batch :
  id <$> sorted_batch env batch ≡ₚ Some <$> (api_id <$> batch).
Proof. by rewrite sorted_batch_perm, convertedMessages_ids. Qed.

Lemma sorted_batch_id env batch m :
  m ∈ sorted_batch env batch → ∃ r, r ∈ batch ∧ id m = Some (api_id r).
Proof.
  intros Hm. assert (id m ∈ id <$> sorted_batch env batch) as Hid.
  { apply list_elem_of_fmap. eauto. }
  rewrite sorted_batch_ids in Hid.
  apply list_elem_of_fmap in Hid as (i & -> & Hi).
  apply list_elem_of_fmap in Hi as (r & -> & Hr). eauto.
Qed.

Lemma sorted_batch_keys env batch i :
  i ∈ omap dedup_key (sorted_batch env batch)
  ↔ i ≠ "" ∧ i ∈ api_id <$> batch.
Proof.
  rewrite list_elem_of_omap. split.
  - intros (m & Hm & [Hi Hne]%dedup_key_Some). split; [done|].
    apply sorted_batch_id in Hm as (r & Hr & Hid).
    apply list_elem_of_fmap. exists r. split; [congruence|done].
  - intros [Hne Hi].
    assert (Some i ∈ id <$> sorted_batch env batch) as Hid.
    { rewrite sorted_batch_ids. apply list_elem_of_fmap. eauto. }
    apply list_elem_of_fmap in Hid as (m & Hid & Hm).
    exists m. split; [done|]. by apply dedup_key_Some.
Qed.

Lemma sorted_batch_NoDup env batch :
  NoDup (api_id <$> batch) → NoDup (id <$> sorted_batch env batch).
Proof.
  intros Hnd. rewrite sorted_batch_ids. by apply (NoDup_fmap_2 Some).
Qed.

Lemma increment_sound env batch s m :
  m ∈ increment env batch s →
  m ∈ sorted_batch env batch
  ∧ ∃ i, id m = Some i ∧ i ≠ "" ∧ i ∉ processedMessageIds s.
Proof.
  intros [Hm Hnew]%filter_new_sound. split; [done|]. by apply is_new_spec.
Qed.

Lemma increment_NoDup env batch s :
  NoDup (api_id <$> batch) →
  increment env batch s
  = filter (λ m, is_new (processedMessageIds s) m = true)
      (sorted_batch env batch).
Proof.
  intros Hnd. apply filter_new_NoDup. by apply sorted_batch_NoDup.
Qed.

(** Nothing in a batch is new right after the batch was merged. *)
Lemma increment_repeated env env' batch s :
  increment env' batch (state_of (replaceAll env batch s)) = [].
Proof.
  rewrite replaceAll_run. unfold state_of. simpl.
  destruct (increment env' batch _) as [|m l] eqn:Hinc; [done|exfalso].
  assert (m ∈ increment env' batch
            (set_processedMessageIds
               (processedMessageIds s
                ∪ list_to_set (omap dedup_key (sorted_batch env batch)))
               (set_allMessages (sorted_batch env batch) s))) as Hm.
  { rewrite Hinc. left. }
  apply increment_sound in Hm as (Hm & i & Hi & Hne & Hseen).
  simpl in Hseen. apply Hseen, elem_of_union_r, elem_of_list_to_set.
  apply sorted_batch_keys. split; [done|].
  apply sorted_batch_id in Hm as (r & Hr & Hid).
  apply list_elem_of_fmap. exists r. split; [congruence|done].
Qed.

Lemma fetchMessagesFromApi_state net s :
  ∃ r t, fetchMessagesFromApi net s = (Normal r, s, t).
Proof.
  unfold fetchMessagesFromApi. run_js. cbn beta.
  destruct (url_blank _); [by eexists _, _|].
  destruct net as [e|response]; [by eexists _, _|].
  destruct (resp_ok response); [|by eexists _, _]. simpl.
  destruct (resp_json response) as [j|e]; [|by eexists _, _].
  destruct j; try by eexists _, _.
  destruct (validMessages items); by eexists _, _.
Qed.

Lemma fetchMessagesFromApi_blank net s :
  url_blank (n8nGetMessagesUrl (settings s)) = true →
  fetchMessagesFromApi net s
  = (Normal {| data := []; error := Some get_url_not_configured |}, s, []).
Proof.
  intros Hblank. unfold fetchMessagesFromApi. run_js. cbn beta.
  by rewrite Hblank.
Qed.

Lemma pollMessages_state env s :
  ∃ result,
    state_of (pollMessages env s) = state_of (pollMessages_merge env result s).
Proof.
  destruct (fetchMessagesFromApi_state (poll_outcome env) s) as (r & t & Hf).
  exists r. unfold pollMessages. run_js. rewrite Hf.
  by destruct (pollMessages_merge env r s) as [[? ?] ?].
Qed.

(** A 2xx response whose body is an array delivers its valid elements. *)
Lemma fetchMessagesFromApi_array response items valid s :
  url_blank (n8nGetMessagesUrl (settings s)) = false →
  resp_ok response = true →
  resp_json response = Normal (JArray items) →
  validMessages items = Normal valid →
  fetchMessagesFromApi (FetchResponds response) s
  = (Normal {| data := valid; error := None |}, s,
     [NetGet (n8nGetMessagesUrl (settings s))]).
Proof.
  intros Hurl Hok Hjson Hvalid. unfold fetchMessagesFromApi. run_js. cbn beta.
  rewrite Hurl, Hok, Hjson. simpl. by rewrite Hvalid.
Qed.

(** A poll cycle whose fetch delivers [batch] is the merge of [batch]. *)
Lemma pollMessages_replaceAll env batch s :
  result_of (fetchMessagesFromApi (poll_outcome env) s)
  = Normal {| data := batch; error := None |} →
  state_of (pollMessages env s) = state_of (replaceAll env batch s)
  ∧ trace_of (pollMessages env s)
    = trace_of (fetchMessagesFromApi (poll_outcome env) s)
      ++ trace_of (replaceAll env batch s).
Proof.
  destruct (fetchMessagesFromApi_state (poll_outcome env) s) as (r & t & Hf).
  rewrite Hf. unfold result_of. simpl. intros [= ->].
  unfold pollMessages, replaceAll. run_js. rewrite Hf.
  by destruct (pollMessages_merge env _ s) as [[? ?] ?].
Qed.

(** C1. For batches of raw messages with pairwise distinct, non-empty
    identifiers and a service that has seen no identifier yet: after the
    merge of a fetched batch the store holds exactly the converted messages
    of the batch; the increment of that first merge is the whole batch, and
    it is what the subscriber is told; merging the same batch again yields
    an empty increment and no notification; merging a second batch yields
    exactly its messages whose identifier the first batch did not have.
    For any batch at all, every converted message is stored, a message of
    the increment has a non-empty identifier, and a poll cycle whose fetch
    delivers the batch is this merge. *)
Theorem replaceAll_increment (env1 env1' env2 : PollEnv)
    (batch1 batch2 : list ApiMessage) (s : ApiService) :
  NoDup (api_id <$> batch1) → Forall (λ r, api_id r ≠ "") batch1 →
  NoDup (api_id <$> batch2) → Forall (λ r, api_id r ≠ "") batch2 →
  processedMessageIds s = ∅ →
  let s1 := state_of (replaceAll env1 batch1 s) in
  allMessages s1 ≡ₚ convertedMessages (poll_clock env1) batch1
  ∧ length (allMessages s1) = length batch1
  ∧ increment env1 batch1 s = allMessages s1
  ∧ length (increment env1 batch1 s) = length batch1
  ∧ trace_of (replaceAll env1 batch1 s)
    = notification s (increment env1 batch1 s)
  ∧ increment env1' batch1 s1 = []
  ∧ trace_of (replaceAll env1' batch1 s1) = []
  ∧ increment env2 batch2 s1
    = filter (λ m, id m ∉ Some <$> (api_id <$> batch1))
        (sorted_batch env2 batch2)
  ∧ (∀ env batch s0,
       allMessages (state_of (replaceAll env batch s0))
         ≡ₚ convertedMessages (poll_clock env) batch
       ∧ (∀ m, m ∈ increment env batch s0 → ∃ i, id m = Some i ∧ i ≠ "")
       ∧ (result_of (fetchMessagesFromApi (poll_outcome env) s0)
          = Normal {| data := batch; error := None |} →
          state_of (pollMessages env s0) = state_of (replaceAll env batch s0)
          ∧ trace_of (pollMessages env s0)
            = trace_of (fetchMessagesFromApi (poll_outcome env) s0)
              ++ notification s0 (increment env batch s0))).
Proof.
  intros Hnd1 Hne1 Hnd2 Hne2 Hfresh s1.
  assert (Hall : ∀ env batch s0,
    allMessages (state_of (replaceAll env batch s0)) = sorted_batch env batch).
  { intros. by rewrite replaceAll_run. }
  assert (Hinc1 : increment env1 batch1 s = sorted_batch env1 batch1).
  { rewrite increment_NoDup by done. apply filter_all.
    intros m Hm. apply is_new_spec.
    destruct (sorted_batch_id _ _ _ Hm) as (r & Hr & Hid).
    exists (api_id r). split_and!; [done| |by rewrite Hfresh].
    by apply (proj1 (Forall_forall _ _) Hne1). }
  subst s1. rewrite !Hall. split_and!.
  - apply sorted_batch_perm.
  - rewrite sorted_batch_perm. apply length_imap.
  - done.
  - rewrite Hinc1, sorted_batch_perm. apply length_imap.
  - by rewrite replaceAll_run.
  - apply increment_repeated.
  - rewrite (replaceAll_run env1' batch1 (state_of _)).
    unfold trace_of. cbn [snd]. by rewrite increment_repeated.
  - rewrite increment_NoDup by done. apply filter_ext_elem_of.
    intros m Hm. rewrite is_new_spec, replaceAll_run. unfold state_of.
    cbn [fst snd processedMessageIds set_processedMessageIds].
    rewrite Hfresh.
    destruct (sorted_batch_id _ _ _ Hm) as (r2 & Hr2 & Hid2).
    assert (api_id r2 ≠ "") by by apply (proj1 (Forall_forall _ _) Hne2).
    split.
    + intros (i & Hi & Hne & Hseen) (j & Hj & Hin)%list_elem_of_fmap.
      apply Hseen.
      apply elem_of_union_r, elem_of_list_to_set, sorted_batch_keys.
      split; [done|]. congruence.
    + intros Hnot. exists (api_id r2). split_and!; [done..|].
      rewrite elem_of_union, elem_of_list_to_set, sorted_batch_keys.
      intros [?%elem_of_empty|[_ Hin]]; [done|].
      apply Hnot. rewrite Hid2. apply list_elem_of_fmap. eauto.
  - intros env batch s0. rewrite Hall. split_and!; [apply sorted_batch_perm| |].
    + intros m (_ & i & ? & ? & _)%increment_sound. eauto.
    + intros Hfetch.
      destruct (pollMessages_replaceAll env batch s0 Hfetch) as [Hst Htr].
      split; [done|]. rewrite Htr. by rewrite (replaceAll_run env batch s0).
Qed.

End Poll.

(** ** Sending *)

Section Send.
Context `{DateApi}.

Lemma temp_id_truthy (t : Z) : JsString.truthy ("temp-" +:+ pretty t) = true.
Proof. reflexivity. Qed.

Lemma sendMessage_success env to body s :
  send_fails env s = false →
  sendMessage env to body s =
  (Normal {| data := true; error := None |},
   set_processedMessageIds
     ({["temp-" +:+ pretty (send_id_time env)]} ∪ processedMessageIds s)
     (set_allMessages (allMessages s ++ [optimisticMessage env to body]) s),
   [NetPost (n8nWebhookUrl (settings s)) to body
      (toISOString (send_request_time env))]).
Proof.
  unfold send_fails. intros [Hurl Hnet]%orb_false_iff.
  unfold sendMessage, sendMessage_after_fetch, sendMessage_catch. run_js.
  cbn beta. rewrite Hurl.
  destruct (send_outcome env) as [e|response]; [done|].
  apply negb_false_iff in Hnet. rewrite Hnet. reflexivity.
Qed.

Lemma sendMessage_failure env to body s :
  send_fails env s = true →
  sendMessage env to body s =
  (Normal {| data := false; error := Some (send_failure_message env s) |},
   s,
   if url_blank (n8nWebhookUrl (settings s)) then []
   else [NetPost (n8nWebhookUrl (settings s)) to body
           (toISOString (send_request_time env))]).
Proof.
  unfold send_fails, send_failure_message, sendMessage,
    sendMessage_after_fetch, sendMessage_catch. run_js. cbn beta.
  destruct (url_blank (n8nWebhookUrl (settings s))); [done|].
  destruct (send_outcome env) as [e|response]; [done|]. simpl.
  intros ->. reflexivity.
Qed.

(** A completion either appends the optimistic message and its identifier
    or changes nothing. *)
Lemma sendMessage_completes_state env to body s :
  state_of (sendMessage_completes env to body s) = s
  ∨ state_of (sendMessage_completes env to body s)
    = set_processedMessageIds
        ({["temp-" +:+ pretty (send_id_time env)]} ∪ processedMessageIds s)
        (set_allMessages (allMessages s ++ [optimisticMessage env to body]) s).
Proof.
  unfold sendMessage_completes, sendMessage_after_fetch, sendMessage_catch.
  run_js. cbn beta.
  destruct (send_outcome env) as [e|response]; [by left|].
  destruct (resp_ok response); [by right|by left].
Qed.

Lemma send_error_message_nonempty e :
  match e with ThrownError _ message => message ≠ "" | ThrownOther => True end →
  send_error_message e ≠ "".
Proof.
  destruct e as [name message|]; simpl; [|done].
  intros Hne. destruct (decide (name = "AbortError")); [done|].
  by destruct (JsString.includes "Failed to fetch" message).
Qed.

Lemma http_error_message_nonempty r : http_error_message r ≠ "".
Proof. done. Qed.

(** C10. A send that fails, whether the webhook URL is blank, the request
    is rejected (network failure, timeout) or the response is not 2xx,
    leaves the whole service, and so the message list and the set of seen
    identifiers, as it was; it completes normally with [data] false and an
    error string, which is non-empty whenever the rejection reason carries
    a message.  No send ever completes abruptly. *)
Theorem sendMessage_failure_atomic (env : SendEnv) (to body : string)
    (s : ApiService) :
  send_fails env s = true →
  let r := sendMessage env to body s in
  result_of r
    = Normal {| data := false; error := Some (send_failure_message env s) |}
  ∧ state_of r = s
  ∧ allMessages (state_of r) = allMessages s
  ∧ processedMessageIds (state_of r) = processedMessageIds s
  ∧ (rejection_has_message env → send_failure_message env s ≠ "")
  ∧ ∀ env' to' body' s',
      ∃ r', result_of (sendMessage env' to' body' s') = Normal r'.
Proof.
  intros Hfail r. subst r. rewrite sendMessage_failure by done.
  unfold result_of, state_of. cbn [fst snd]. split_and!; [done..| |].
  - unfold rejection_has_message, send_failure_message.
    destruct (url_blank _); [done|].
    destruct (send_outcome env) as [e|resp]; intros Hmsg.
    + apply send_error_message_nonempty. by destruct e.
    + by apply send_error_message_nonempty.
  - intros env' to' body' s'. destruct (send_fails env' s') eqn:Hf.
    + rewrite sendMessage_failure by done. by eexists.
    + rewrite sendMessage_success by done. by eexists.
Qed.

(** C4, as the code has it. A send that goes through answers with [data]
    true and no error, and merges itself: it appends the optimistic
    message (outgoing, status sent, addressed to the counterparty, with a
    [temp-] identifier made from the clock) at the end of the message list
    and adds that identifier to the seen set; settings, timers and
    subscribers stay as they were. *)
Theorem sendMessage_success_appends (env : SendEnv) (to text : string)
    (s : ApiService) :
  send_fails env s = false →
  let r := sendMessage env to text s in
  let m := optimisticMessage env to text in
  result_of r = Normal {| data := true; error := None |}
  ∧ allMessages (state_of r) = allMessages s ++ [m]
  ∧ processedMessageIds (state_of r)
    = {["temp-" +:+ pretty (send_id_time env)]} ∪ processedMessageIds s
  ∧ id m = Some ("temp-" +:+ pretty (send_id_time env))
  ∧ conversationId m = to ∧ body m = text
  ∧ direction m = Outgoing ∧ status m = Some sent
  ∧ settings (state_of r) = settings s
  ∧ pollingTimer (state_of r) = pollingTimer s
  ∧ retryTimeout (state_of r) = retryTimeout s
  ∧ onNewMessageCallback (state_of r) = onNewMessageCallback s
  ∧ onErrorCallback (state_of r) = onErrorCallback s.
Proof.
  intros Hok r m. subst r m. rewrite sendMessage_success by done.
  unfold result_of, state_of. cbn [fst snd]. by split_and!.
Qed.

End Send.

(** ** The store across operations *)

Section Store.
Context `{DateApi}.

Lemma store_consistent_same s s' :
  allMessages s' = allMessages s →
  processedMessageIds s' = processedMessageIds s →
  store_consistent s → store_consistent s'.
Proof. unfold store_consistent. intros -> ->. done. Qed.

Lemma store_consistent_new cfg : store_consistent (new_ApiService cfg).
Proof. intros m i Hm. by apply elem_of_nil in Hm. Qed.

Lemma store_consistent_merge env result s :
  store_consistent s →
  store_consistent (state_of (pollMessages_merge env result s)).
Proof.
  intros Hs. destruct (error_truthy result) as [e|] eqn:Herr.
  - rewrite (pollMessages_merge_failure _ _ _ e) by done.
    by apply (store_consistent_same s).
  - rewrite pollMessages_merge_success by done. unfold state_of.
    cbn [fst snd]. intros m i Hm Hi Hne. simpl in *.
    rewrite filter_new_seen. apply elem_of_union_r, elem_of_list_to_set.
    apply list_elem_of_omap. exists m. split; [done|].
    by apply dedup_key_Some.
Qed.

Lemma store_consistent_append env to body s :
  store_consistent s →
  store_consistent
    (set_processedMessageIds
       ({["temp-" +:+ pretty (send_id_time env)]} ∪ processedMessageIds s)
       (set_allMessages (allMessages s ++ [optimisticMessage env to body]) s)).
Proof.
  intros Hs m i [Hm| ->]%elem_of_snoc Hi Hne; simpl in *.
  - apply elem_of_union_r. by eapply Hs.
  - injection Hi as <-. apply elem_of_union_l. by apply elem_of_singleton.
Qed.

Lemma store_consistent_send env to body s :
  store_consistent s →
  store_consistent (state_of (sendMessage env to body s)).
Proof.
  intros Hs. destruct (send_fails env s) eqn:Hf.
  - by rewrite sendMessage_failure.
  - rewrite sendMessage_success by done. by apply store_consistent_append.
Qed.

Lemma store_consistent_send_completes env to body s :
  store_consistent s →
  store_consistent (state_of (sendMessage_completes env to body s)).
Proof.
  intros Hs. destruct (sendMessage_completes_state env to body s) as [->| ->];
    [done|by apply store_consistent_append].
Qed.

Lemma keeps_ret {A} (a : A) : keeps_store (mret a).
Proof. by intros s. Qed.

Lemma keeps_gets {A} (f : ApiService → A) : keeps_store (gets f).
Proof. by intros s. Qed.

Lemma keeps_emit e : keeps_store (emit e).
Proof. by intros s. Qed.

Lemma keeps_modify f :
  (∀ s, allMessages (f s) = allMessages s
        ∧ processedMessageIds (f s) = processedMessageIds s) →
  keeps_store (modify f).
Proof. intros Hf s. apply Hf. Qed.

Lemma keeps_bind {A B} (m : Js A) (k : A → Js B) :
  keeps_store m → (∀ a, keeps_store (k a)) → keeps_store (m ≫= k).
Proof.
  intros Hm Hk s. specialize (Hm s). unfold mbind, Js_bind, bind, state_of in *.
  destruct (m s) as [[[a|e] s1] t1]; simpl in *; [|done].
  specialize (Hk a s1). unfold state_of in Hk.
  destruct (k a s1) as [[r s2] t2]. simpl in *.
  destruct Hm as [Hm1 Hm2], Hk as [Hk1 Hk2]. split; congruence.
Qed.

Ltac keeps_store_step :=
  first
    [ apply keeps_ret | apply keeps_gets | apply keeps_emit
    | apply keeps_modify; done
    | apply keeps_bind; [|intros ?]
    | match goal with
      | |- keeps_store (match ?x with _ => _ end) => destruct x
      end ].

Lemma stopPolling_keeps : keeps_store stopPolling.
Proof. unfold stopPolling. repeat keeps_store_step. Qed.

Lemma startPolling_keeps h : keeps_store (startPolling h).
Proof.
  unfold startPolling, pollMessages_begin.
  repeat (apply stopPolling_keeps || keeps_store_step).
Qed.

Lemma updateSettings_keeps h p : keeps_store (updateSettings h p).
Proof.
  unfold updateSettings, restartPolling.
  repeat (apply stopPolling_keeps || apply startPolling_keeps
          || keeps_store_step).
Qed.

Lemma step_consistent s s' :
  store_consistent s → step s s' → store_consistent s'.
Proof.
  intros Hs Hstep. destruct Hstep.
  - destruct (pollMessages_state env s) as [result ->].
    by apply store_consistent_merge.
  - by apply store_consistent_merge.
  - by apply store_consistent_send.
  - by apply store_consistent_send_completes.
  - intros m i Hm. by apply elem_of_nil in Hm.
  - by rewrite fetchConversations_run.
  - done.
  - done.
  - destruct (startPolling_keeps h s). by apply (store_consistent_same s).
  - destruct (stopPolling_keeps s). by apply (store_consistent_same s).
  - destruct (updateSettings_keeps h p s). by apply (store_consistent_same s).
  - done.
  - done.
Qed.

(** C8. The dedup invariant, that every stored message with a non-empty
    identifier has it in the set of seen identifiers, holds for a new
    service, is preserved by every operation of the service (a poll cycle
    or its completion, a send or its completion, a reset, the queries,
    polling control, settings and subscriber registration), and so holds in
    every reachable state. *)
Theorem store_consistent_invariant :
  (∀ cfg, store_consistent (new_ApiService cfg))
  ∧ (∀ s s', store_consistent s → step s s' → store_consistent s')
  ∧ (∀ s, reachable s → store_consistent s).
Proof.
  split_and!.
  - apply store_consistent_new.
  - apply step_consistent.
  - induction 1 as [cfg|s s' _ IH Hstep].
    + apply store_consistent_new.
    + by eapply step_consistent.
Qed.

(** C2, as the code has it. With a blank read URL the fetch fails with
    the configuration message before any request is issued; the poll cycle
    then tells the error subscriber once and schedules the 60 second retry,
    as it does for every failed fetch, and nothing else changes. *)
Theorem blank_endpoint_is_retried (env : PollEnv) (s : ApiService) :
  url_blank (n8nGetMessagesUrl (settings s)) = true →
  fetchMessagesFromApi (poll_outcome env) s
  = (Normal {| data := []; error := Some get_url_not_configured |}, s, [])
  ∧ pollMessages env s
    = (Normal tt, set_retryTimeout (Some (poll_timer env)) s,
       error_notification s get_url_not_configured
       ++ [SetTimeoutPoll (poll_timer env) 60000])
  ∧ (∀ result e,
       error_truthy result = Some e →
       pollMessages_merge env result s
       = (Normal tt, set_retryTimeout (Some (poll_timer env)) s,
          error_notification s e ++ [SetTimeoutPoll (poll_timer env) 60000])).
Proof.
  intros Hblank. split_and!.
  - by apply fetchMessagesFromApi_blank.
  - unfold pollMessages. unfold mbind, Js_bind, bind.
    rewrite fetchMessagesFromApi_blank by done.
    rewrite (pollMessages_merge_failure _ _ _ get_url_not_configured) by done.
    done.
  - intros result e He. by apply pollMessages_merge_failure.
Qed.

(** C3, as the code has it. After a send that went through, the
    optimistic message is in the store and its identifier is seen.  A poll
    cycle that fails leaves the message list alone; a poll cycle that
    succeeds replaces the list by the sorted converted batch, so that no
    stored message carries the optimistic identifier unless the batch has
    it.  The identifier stays in the seen set either way. *)
Theorem optimistic_until_next_fetch (senv : SendEnv) (to text : string)
    (penv : PollEnv) (result : ApiResponse (list ApiMessage))
    (s : ApiService) :
  send_fails senv s = false →
  let temp := "temp-" +:+ pretty (send_id_time senv) in
  let s1 := state_of (sendMessage senv to text s) in
  let s2 := state_of (pollMessages_merge penv result s1) in
  optimisticMessage senv to text ∈ allMessages s1
  ∧ temp ∈ processedMessageIds s1
  ∧ temp ∈ processedMessageIds s2
  ∧ (is_Some (error_truthy result) → allMessages s2 = allMessages s1)
  ∧ (error_truthy result = None →
     allMessages s2 = sorted_batch penv (data result)
     ∧ (temp ∉ api_id <$> data result →
        ∀ m, m ∈ allMessages s2 → id m ≠ Some temp)).
Proof.
  intros Hok temp s1 s2. subst s2 s1.
  rewrite sendMessage_success by done. unfold state_of at 1 2 3 5 6.
  cbn [fst snd].
  split_and!.
  - simpl. apply elem_of_snoc. by right.
  - simpl. apply elem_of_union_l. by apply elem_of_singleton.
  - destruct (error_truthy result) as [e|] eqn:Herr.
    + rewrite (pollMessages_merge_failure _ _ _ e) by done.
      simpl. apply elem_of_union_l. by apply elem_of_singleton.
    + rewrite pollMessages_merge_success by done. unfold state_of. simpl.
      rewrite filter_new_seen.
      apply elem_of_union_l, elem_of_union_l. by apply elem_of_singleton.
  - intros [e Herr]. by rewrite (pollMessages_merge_failure _ _ _ e).
  - intros Herr. rewrite pollMessages_merge_success by done.
    unfold state_of. simpl. split; [done|].
    intros Hnot m (r & Hr & Hid)%sorted_batch_id Heq. apply Hnot.
    apply list_elem_of_fmap. exists r. split; [congruence|done].
Qed.

(** C7, as the code has it. The store does not merge by identifier: every
    converted element of the batch is stored, so two elements with one
    identifier are both there, in ascending order of their timestamps when
    these are valid dates.  Of the stored messages with a given non-empty
    identifier, the increment has none when the identifier was seen before
    and otherwise exactly the first in the store's order; the identifier is
    seen afterwards. *)
Theorem duplicate_identifier_all_stored (env : PollEnv)
    (batch : list ApiMessage) (s : ApiService) (i : string) :
  i ≠ "" →
  let s' := state_of (replaceAll env batch s) in
  allMessages s' ≡ₚ convertedMessages (poll_clock env) batch
  ∧ length (filter (λ m, id m = Some i) (allMessages s'))
    = length (filter (λ r, api_id r = i) batch)
  ∧ (timestamps_valid (convertedMessages (poll_clock env) batch) →
     StronglySorted (key_le getTime) (allMessages s'))
  ∧ filter (λ m, id m = Some i) (increment env batch s)
    = (if decide (i ∈ processedMessageIds s) then []
       else take 1 (filter (λ m, id m = Some i) (allMessages s')))
  ∧ (i ∈ processedMessageIds s'
     ↔ i ∈ processedMessageIds s ∨ i ∈ api_id <$> batch).
Proof.
  intros Hne s'. subst s'. rewrite replaceAll_run. unfold state_of.
  cbn [fst snd allMessages set_processedMessageIds set_allMessages
       processedMessageIds].
  split_and!.
  - apply sorted_batch_perm.
  - rewrite sorted_batch_perm. unfold convertedMessages.
    generalize (poll_clock env). induction batch as [|r batch IH]; intros clock;
      [done|].
    rewrite imap_cons, !filter_cons. simpl.
    destruct (decide (Some (api_id r) = Some i)) as [[= Heq]|Hneq].
    + rewrite decide_True by done. simpl. f_equal. exact (IH (clock ∘ S)).
    + rewrite decide_False by congruence. exact (IH (clock ∘ S)).
  - intros Hvalid. apply js_sort_sorted; [done|].
    unfold timestamps_valid in Hvalid. done.
  - by apply filter_new_by_id.
  - rewrite elem_of_union, elem_of_list_to_set, sorted_batch_keys.
    naive_solver.
Qed.

End Store.

(** ** The ISO-only [Date] obeys the laws of [Date]

    Printing and parsing are inverse on the time values of valid dates.
    The calendar part is checked day by day on one 400 year era and
    carried to the other eras by a shift. *)

Section IsoDateLaws.
Import IsoDate.

Lemma digit_val_char k : 0 ≤ k < 10 → digit_val (digit_char k) = Some k.
Proof.
  intros Hk.
  assert (k = 0 ∨ k = 1 ∨ k = 2 ∨ k = 3 ∨ k = 4 ∨ k = 5 ∨ k = 6 ∨ k = 7
          ∨ k = 8 ∨ k = 9) as Hcases by lia.
  destruct Hcases as [->|[->|[->|[->|[->|[->|[->|[->|[->| ->]]]]]]]]];
    reflexivity.
Qed.

Lemma pad_app n : ∀ v acc rest, pad n v acc +:+ rest = pad n v (acc +:+ rest).
Proof. induction n as [|n IH]; intros; simpl; [done|]. by rewrite IH. Qed.

Lemma take_digits_pad w :
  ∀ k v a s, 0 ≤ v < 10 ^ Z.of_nat w →
    take_digits (w + k) a (pad w v s) = take_digits k (a * 10 ^ Z.of_nat w + v) s.
Proof.
  induction w as [|w IH]; intros k v a s Hv.
  - simpl in *. f_equal. lia.
  - cbn [pad]. replace (S w + k)%nat with (w + S k)%nat by lia.
    rewrite Nat2Z.inj_succ, Z.pow_succ_r in Hv by lia.
    rewrite IH by (split; [apply Z.div_pos; lia|apply Z.div_lt_upper_bound; lia]).
    cbn [take_digits].
    rewrite digit_val_char by (apply Z.mod_pos_bound; lia).
    f_equal. rewrite Nat2Z.inj_succ, Z.pow_succ_r by lia.
    pose proof (Z.div_mod v 10). lia.
Qed.

Lemma check_range_spec n : ∀ z k,
  check_range n z = true → z ≤ k < z + Z.of_nat n → check_doe k = true.
Proof.
  induction n as [|n IH]; intros z k Hc Hk; [lia|].
  cbn [check_range] in Hc. apply andb_prop in Hc as [Hz Hrest].
  destruct (decide (k = z)) as [->|]; [done|].
  apply (IH (z + 1)); [done|lia].
Qed.

Lemma check_era : check_range (Z.to_nat 146097) 0 = true.
Proof. vm_compute. reflexivity. Qed.

Lemma check_doe_all doe : 0 ≤ doe < 146097 → check_doe doe = true.
Proof.
  intros Hd. apply (check_range_spec (Z.to_nat 146097) 0); [apply check_era|lia].
Qed.

Lemma is_leap_shift y era : is_leap (y + era * 400) = is_leap y.
Proof.
  unfold is_leap.
  replace (y + era * 400) with (y + (era * 100) * 4) at 1 by lia.
  replace (y + era * 400) with (y + (era * 4) * 100) at 1 by lia.
  by rewrite !Z.mod_add by lia.
Qed.

Lemma days_in_month_shift y era m :
  days_in_month (y + era * 400) m = days_in_month y m.
Proof. unfold days_in_month. by rewrite is_leap_shift. Qed.

Lemma days_from_civil_shift y era m d :
  days_from_civil (y + era * 400) m d = days_from_civil y m d + era * 146097.
Proof.
  unfold days_from_civil. cbn zeta.
  destruct (m <=? 2).
  - replace (y + era * 400 - 1) with (y - 1 + era * 400) by lia.
    rewrite Z.div_add by lia.
    replace (y - 1 + era * 400 - ((y - 1) / 400 + era) * 400)
      with (y - 1 - (y - 1) / 400 * 400) by lia.
    lia.
  - rewrite Z.div_add by lia.
    replace (y + era * 400 - (y / 400 + era) * 400)
      with (y - y / 400 * 400) by lia.
    lia.
Qed.

Lemma civil_roundtrip days :
  let '(y, m, d) := civil_from_days days in
  1 ≤ m ≤ 12 ∧ 1 ≤ d ≤ days_in_month y m ∧ days_from_civil y m d = days
  ∧ (days + 719468) / 146097 * 400 ≤ y ≤ (days + 719468) / 146097 * 400 + 400.
Proof.
  unfold civil_from_days. cbn zeta.
  set (era := (days + 719468) / 146097).
  assert (0 ≤ days + 719468 - era * 146097 < 146097) as Hdoe.
  { pose proof (Z.div_mod (days + 719468) 146097).
    pose proof (Z.mod_pos_bound (days + 719468) 146097). subst era. lia. }
  pose proof (check_doe_all _ Hdoe) as Hc. unfold check_doe in Hc.
  destruct (civil_of_doe _) as [[y m] d].
  repeat (apply andb_prop in Hc as [Hc ?]).
  rewrite days_in_month_shift, days_from_civil_shift. lia.
Qed.

Lemma take_pad w v s :
  0 ≤ v < 10 ^ Z.of_nat w →
  take_digits w 0 (pad w v "" +:+ s) = Some (v, s).
Proof.
  intros Hv. rewrite pad_app. simpl "+:+".
  rewrite <-(Nat.add_0_r w) at 1. rewrite take_digits_pad by done.
  simpl. first [done | do 2 f_equal; lia].
Qed.

Lemma parse_year_digit k s :
  0 ≤ k < 10 →
  parse_year (String (digit_char k) s) = take_digits 4 0 (String (digit_char k) s).
Proof.
  intros Hk.
  assert (k = 0 ∨ k = 1 ∨ k = 2 ∨ k = 3 ∨ k = 4 ∨ k = 5 ∨ k = 6 ∨ k = 7
          ∨ k = 8 ∨ k = 9) as Hcases by lia.
  destruct Hcases as [->|[->|[->|[->|[->|[->|[->|[->|[->| ->]]]]]]]]];
    reflexivity.
Qed.

Lemma parse_print_year y s :
  -999999 ≤ y ≤ 999999 → parse_year (print_year y +:+ s) = Some (y, s).
Proof.
  intros Hy. unfold print_year.
  destruct ((0 <=? y) && (y <=? 9999)) eqn:Hsmall.
  - apply andb_prop in Hsmall as [?%Z.leb_le ?%Z.leb_le].
    assert (take_digits 4 0 (pad 4 y "" +:+ s) = Some (y, s)) as Htake
      by (apply take_pad; simpl; lia).
    rewrite pad_app in *. cbn [pad] in *.
    rewrite parse_year_digit by (apply Z.mod_pos_bound; lia). done.
  - destruct (y <? 0) eqn:Hneg.
    + apply Z.ltb_lt in Hneg.
      change (parse_year (String "-" (pad 6 (- y) "" +:+ s)) = Some (y, s)).
      cbn [parse_year]. rewrite take_pad by (simpl; lia).
      destruct (- y =? 0) eqn:Hz; [apply Z.eqb_eq in Hz; lia|].
      by rewrite Z.opp_involutive.
    + apply Z.ltb_ge in Hneg.
      change (parse_year (String "+" (pad 6 y "" +:+ s)) = Some (y, s)).
      cbn [parse_year]. rewrite take_pad by (simpl; lia). done.
Qed.

Lemma time_of_day r :
  0 ≤ r < ms_per_day →
  let hh := r / 3600000 in
  let mm := r / 60000 mod 60 in
  let ss := r / 1000 mod 60 in
  let ms := r mod 1000 in
  0 ≤ hh ≤ 23 ∧ 0 ≤ mm ≤ 59 ∧ 0 ≤ ss ≤ 59 ∧ 0 ≤ ms ≤ 999
  ∧ ((hh * 60 + mm) * 60 + ss) * 1000 + ms = r.
Proof.
  unfold ms_per_day. intros Hr. cbn zeta.
  pose proof (Z.div_mod r 1000).
  pose proof (Z.mod_pos_bound r 1000).
  pose proof (Z.div_mod (r / 1000) 60).
  pose proof (Z.mod_pos_bound (r / 1000) 60).
  pose proof (Z.div_mod (r / 1000 / 60) 60).
  pose proof (Z.mod_pos_bound (r / 1000 / 60) 60).
  replace (r / 60000) with (r / 1000 / 60)
    by (rewrite Z.div_div by lia; reflexivity).
  replace (r / 3600000) with (r / 1000 / 60 / 60)
    by (rewrite !Z.div_div by lia; reflexivity).
  assert (0 ≤ r / 1000 / 60 / 60 ≤ 23).
  { split; [repeat apply Z.div_pos; lia|].
    assert (r / 1000 / 60 / 60 < 24); [|lia].
    repeat apply Z.div_lt_upper_bound; lia. }
  lia.
Qed.

Lemma expect_app c s : expect c (String c "" +:+ s) = Some s.
Proof. simpl. by rewrite decide_True. Qed.

Lemma parse_print t : valid_time t → parse (print t) = Some t.
Proof.
  intros Ht. unfold valid_time in Ht. unfold print.
  pose proof (civil_roundtrip (t / ms_per_day)) as Hc.
  destruct (civil_from_days (t / ms_per_day)) as [[y m] d].
  destruct Hc as (Hm & Hd & Hdays & Hy).
  assert (-999999 ≤ y ≤ 999999) as Hyear.
  { unfold ms_per_day in *.
    pose proof (Z.div_mod t 86400000).
    pose proof (Z.mod_pos_bound t 86400000).
    pose proof (Z.div_mod (t / 86400000 + 719468) 146097).
    pose proof (Z.mod_pos_bound (t / 86400000 + 719468) 146097).
    lia. }
  assert (d ≤ 31) as Hd31.
  { destruct Hd as [_ Hd]. unfold days_in_month in Hd.
    repeat case_match; lia. }
  pose proof (Z.mod_pos_bound t ms_per_day) as Hr.
  destruct (time_of_day (t mod ms_per_day)) as (Hhh & Hmm & Hss & Hms & Hsum);
    [unfold ms_per_day in *; lia|].
  unfold parse.
  rewrite parse_print_year by done. cbn [mbind option_bind].
  rewrite expect_app. cbn [mbind option_bind].
  rewrite take_pad by (simpl; lia). cbn [mbind option_bind].
  rewrite expect_app. cbn [mbind option_bind].
  rewrite take_pad by (simpl; lia). cbn [mbind option_bind].
  rewrite expect_app. cbn [mbind option_bind].
  rewrite take_pad by (simpl; lia). cbn [mbind option_bind].
  rewrite expect_app. cbn [mbind option_bind].
  rewrite take_pad by (simpl; lia). cbn [mbind option_bind].
  rewrite expect_app. cbn [mbind option_bind].
  rewrite take_pad by (simpl; lia). cbn [mbind option_bind].
  rewrite expect_app. cbn [mbind option_bind].
  rewrite take_pad by (simpl; lia). cbn [mbind option_bind].
  change (expect "Z" "Z") with (Some ""). cbn [mbind option_bind].
  rewrite bool_decide_eq_true_2 by done.
  repeat (rewrite (proj2 (Z.leb_le _ _)) by lia).
  cbn [andb].
  match goal with
  | |- (if _ then Some ?e else None) = _ => assert (e = t) as ->
  end.
  { rewrite Hdays. pose proof (Z.div_mod t ms_per_day).
    unfold ms_per_day in *. lia. }
  unfold max_time.
  repeat (rewrite (proj2 (Z.leb_le _ _)) by lia). done.
Qed.

Lemma parse_range s t : parse s = Some t → valid_time t.
Proof.
  unfold parse, valid_time. intros Hp.
  repeat (apply bind_Some in Hp as ([? ?] & _ & Hp)
          || apply bind_Some in Hp as (? & _ & Hp)).
  destruct (_ && _) in Hp; [|done].
  destruct ((- max_time <=? _) && _) eqn:Hrange in Hp; [|done].
  injection Hp as <-.
  apply andb_prop in Hrange as [?%Z.leb_le ?%Z.leb_le].
  unfold max_time in *. lia.
Qed.

Lemma IsoDate_lawful : @DateLaws IsoDate.api.
Proof.
  split.
  - exact parse_range.
  - exact parse_print.
Qed.

End IsoDateLaws.

(** ** Timestamps of the store on a lawful platform *)

Section Lawful.
Context `{DateLaws}.

Lemma convertTimestamp_parses now ts :
  valid_time now → is_Some (Date_parse (convertTimestamp now ts)).
Proof.
  intros Hnow. rewrite convertTimestamp_eq.
  destruct (Date_parse ts) as [t|] eqn:Hts.
  - rewrite parse_toISOString; [done|]. by eapply parse_valid.
  - by rewrite parse_toISOString.
Qed.

Lemma convertedMessages_timestamps_valid clock batch :
  (∀ k, valid_time (clock k)) →
  timestamps_valid (convertedMessages clock batch).
Proof.
  intros Hclock. apply Forall_forall. intros m Hm.
  apply elem_of_lookup_imap in Hm as (k & r & -> & _).
  apply convertTimestamp_parses, Hclock.
Qed.

(** A poll cycle keeps the stored timestamps valid. *)
Lemma pollMessages_merge_timestamps_valid env result s :
  (∀ k, valid_time (poll_clock env k)) →
  timestamps_valid (allMessages s) →
  timestamps_valid (allMessages (state_of (pollMessages_merge env result s))).
Proof.
  intros Hclock Hs. destruct (error_truthy result) as [e|] eqn:Herr.
  - by rewrite (pollMessages_merge_failure _ _ _ e).
  - rewrite pollMessages_merge_success by done. unfold state_of. simpl.
    unfold timestamps_valid, sorted_batch. rewrite js_sort_perm.
    by apply convertedMessages_timestamps_valid.
Qed.

(** So does a send. *)
Lemma sendMessage_timestamps_valid env to text s :
  valid_time (send_message_time env) →
  timestamps_valid (allMessages s) →
  timestamps_valid (allMessages (state_of (sendMessage env to text s))).
Proof.
  intros Hclock Hs. destruct (send_fails env s) eqn:Hf.
  - by rewrite sendMessage_failure.
  - rewrite sendMessage_success by done. unfold state_of. simpl.
    apply Forall_app. split; [done|]. apply Forall_singleton.
    unfold getTime. simpl. by rewrite parse_toISOString.
Qed.

End Lawful.

(** ** Concrete runs

    The service on the ISO-only [Date], on the sample data. *)

Section Runs.
Import Sample.
#[local] Existing Instance IsoDate.api.

Ltac by_computation := apply (bool_decide_unpack _); vm_compute; exact I.

(** The fetch of a sample batch delivers the batch. *)
Lemma fetch_sample_batch :
  result_of (fetchMessagesFromApi (poll_outcome (answering batch_ab)) service)
  = Normal {| data := batch_ab; error := None |}.
Proof. vm_compute. reflexivity. Qed.

(** The scenario of the specification: one incoming message whose
    timestamp the platform cannot parse. *)
Lemma scenario_single_incoming :
  let s :=
    state_of (pollMessages
                (answering [raw "a" "555" INBOUND "hi" "Jan 1, 10:00 AM"])
                service) in
  result_of (fetchConversations s)
  = Normal {| data := [{| phone := "555"; name := "555";
                          lastMessage := "hi";
                          contact_timestamp := "2025-12-22T12:00:00.000Z";
                          unread := Some true |}];
              error := None |}.
Proof. vm_compute. reflexivity. Qed.

(** C1 on the sample batches [a, b] and [b, c], merged into a fresh
    service. *)
Lemma replaceAll_increment_witness :
  let s1 := state_of (replaceAll (answering batch_ab) batch_ab service) in
  (NoDup (api_id <$> batch_ab) ∧ Forall (λ r, api_id r ≠ "") batch_ab
   ∧ NoDup (api_id <$> batch_bc) ∧ Forall (λ r, api_id r ≠ "") batch_bc
   ∧ processedMessageIds service = ∅)
  ∧ length (allMessages s1) = 2%nat
  ∧ length (increment (answering batch_ab) batch_ab service) = 2%nat
  ∧ increment (answering batch_ab) batch_ab s1 = []
  ∧ increment (answering batch_bc) batch_bc s1
    = filter (λ m, id m ∉ Some <$> (api_id <$> batch_ab))
        (sorted_batch (answering batch_bc) batch_bc).
Proof.
  intros s1.
  assert (H1 : NoDup (api_id <$> batch_ab)) by by_computation.
  assert (H2 : Forall (λ r, api_id r ≠ "") batch_ab) by by_computation.
  assert (H3 : NoDup (api_id <$> batch_bc)) by by_computation.
  assert (H4 : Forall (λ r, api_id r ≠ "") batch_bc) by by_computation.
  assert (H5 : processedMessageIds service = ∅) by reflexivity.
  destruct (replaceAll_increment (answering batch_ab) (answering batch_ab)
              (answering batch_bc) batch_ab batch_bc service H1 H2 H3 H4 H5)
    as (_ & Hlen & _ & Hinc & _ & Hrep & _ & Hdiff & _).
  split; [by split_and!|]. split_and!; [exact Hlen|exact Hinc|exact Hrep|exact Hdiff].
Defined.

(** C2 on the sample service with a read URL of two spaces. *)
Lemma blank_endpoint_is_retried_witness :
  url_blank (n8nGetMessagesUrl (settings blank_service)) = true
  ∧ pollMessages (answering batch_ab) blank_service
    = (Normal tt, set_retryTimeout (Some 7%nat) blank_service,
       [CallError 2 get_url_not_configured; SetTimeoutPoll 7 60000]).
Proof.
  assert (Hblank : url_blank (n8nGetMessagesUrl (settings blank_service)) = true)
    by reflexivity.
  split; [exact Hblank|].
  exact (proj1 (proj2 (blank_endpoint_is_retried (answering batch_ab)
                         blank_service Hblank))).
Defined.

(** C2, the sentence of the specification at a concrete input: the read
    URL is blank, and the poll cycle does schedule the retry. *)
Lemma blank_endpoint_retry_scheduled :
  url_blank (n8nGetMessagesUrl (settings blank_service)) = true
  ∧ SetTimeoutPoll 7 60000
      ∈ trace_of (pollMessages (answering batch_ab) blank_service)
  ∧ retryTimeout (state_of (pollMessages (answering batch_ab) blank_service))
    = Some 7%nat
  ∧ retryTimeout blank_service = None.
Proof. split_and!; [reflexivity|by_computation|reflexivity|reflexivity]. Qed.

(** C4 on a send that the webhook answers with 200. *)
Lemma sendMessage_success_appends_witness :
  send_fails sending service = false
  ∧ allMessages (state_of (sendMessage sending "555" "yo" service))
    = allMessages service ++ [optimisticMessage sending "555" "yo"]
  ∧ processedMessageIds (state_of (sendMessage sending "555" "yo" service))
    = {["temp-" +:+ pretty (send_id_time sending)]}
      ∪ processedMessageIds service.
Proof.
  assert (Hok : send_fails sending service = false) by reflexivity.
  destruct (sendMessage_success_appends sending "555" "yo" service Hok)
    as (_ & Hmsgs & Hseen & _).
  split_and!; [exact Hok|exact Hmsgs|exact Hseen].
Defined.

(** C4, the sentence of the specification at a concrete input: a send
    that goes through changes both the message list and the seen set. *)
Lemma successful_send_merges :
  send_fails sending service = false
  ∧ result_of (sendMessage sending "555" "yo" service)
    = Normal {| data := true; error := None |}
  ∧ allMessages (state_of (sendMessage sending "555" "yo" service))
    ≠ allMessages service
  ∧ processedMessageIds (state_of (sendMessage sending "555" "yo" service))
    ≠ processedMessageIds service.
Proof.
  split_and!; [reflexivity|reflexivity|by_computation|by_computation].
Qed.

(** C3 on a send followed by the merge of the batch [a, b]. *)
Lemma optimistic_until_next_fetch_witness :
  let s1 := state_of (sendMessage sending "555" "yo" service) in
  let s2 :=
    state_of (pollMessages_merge (answering batch_ab)
                {| data := batch_ab; error := None |} s1) in
  send_fails sending service = false
  ∧ optimisticMessage sending "555" "yo" ∈ allMessages s1
  ∧ allMessages s2 = sorted_batch (answering batch_ab) batch_ab
  ∧ "temp-" +:+ pretty (send_id_time sending) ∈ processedMessageIds s2.
Proof.
  intros s1 s2.
  assert (Hok : send_fails sending service = false) by reflexivity.
  destruct (optimistic_until_next_fetch sending "555" "yo"
              (answering batch_ab) {| data := batch_ab; error := None |}
              service Hok)
    as (Hin & _ & Hseen & _ & Hreplace).
  destruct (Hreplace eq_refl) as [Hall _].
  split_and!; [exact Hok|exact Hin|exact Hall|exact Hseen].
Defined.

(** C3, the sentence of the specification at a concrete input: the
    fetched batch lacks the identifier of the optimistic message, and the
    message is gone after the poll cycle. *)
Lemma optimistic_dropped_by_refresh :
  let s1 := state_of (sendMessage sending "555" "yo" service) in
  let s2 := state_of (pollMessages (answering batch_ab) s1) in
  optimisticMessage sending "555" "yo" ∈ allMessages s1
  ∧ id (optimisticMessage sending "555" "yo") = Some "temp-1766404800251"
  ∧ ("temp-1766404800251" ∉ api_id <$> batch_ab)
  ∧ (optimisticMessage sending "555" "yo" ∉ allMessages s2)
  ∧ length (allMessages s2) = 2%nat.
Proof.
  split_and!;
    [by_computation|reflexivity|by_computation|by_computation|reflexivity].
Qed.

(** C5 on a conversation whose incoming message was answered an hour
    later, which is read, and on one whose outgoing message was followed
    by an incoming one an hour later, which is unread. *)
Lemma unread_follows_first_latest_witness :
  let s := state_of (pollMessages (answering batch_answered) service) in
  let s' := state_of (pollMessages (answering Scenario.batch_unanswered)
                        service) in
  (timestamps_valid (allMessages s)
   ∧ outgoing_11 ∈ allMessages s
   ∧ ∃ r c, result_of (fetchConversations s) = Normal r
            ∧ c ∈ data r ∧ phone c = "555" ∧ unread c = Some false)
  ∧ (timestamps_valid (allMessages s')
     ∧ Scenario.incoming_11 ∈ allMessages s'
     ∧ ∃ r c, result_of (fetchConversations s') = Normal r
              ∧ c ∈ data r ∧ phone c = "555" ∧ unread c = Some true).
Proof.
  intros s s'. split.
  - assert (Hvalid : timestamps_valid (allMessages s)) by by_computation.
    assert (Hin : outgoing_11 ∈ allMessages s) by by_computation.
    assert (Hlatest : latest_in_group (allMessages s) outgoing_11).
    { split; [exact Hin|]. exists 1735729200000. split; [reflexivity|].
      intros m' Hm'. apply list_elem_of_In in Hm'. vm_compute in Hm'.
      destruct Hm' as [<-|[<-|[]]].
      - exists 1735725600000. split; [reflexivity|lia].
      - exists 1735729200000. split; [reflexivity|lia]. }
    destruct (unread_follows_first_latest s outgoing_11 Hvalid Hlatest)
      as (r & c & m0 & Hr & _ & Hc & Hphone & _ & _ & _ & _ & _ & _ & _ & _
          & Hsame).
    split_and!; [exact Hvalid|exact Hin|].
    exists r, c. split_and!; [exact Hr|exact Hc|exact Hphone|].
    apply Hsame; [|reflexivity].
    intros m' Hm' Htime. apply list_elem_of_In in Hm'. vm_compute in Hm'.
    destruct Hm' as [<-|[<-|[]]]; [discriminate Htime|reflexivity].
  - assert (Hvalid : timestamps_valid (allMessages s')) by by_computation.
    assert (Hin : Scenario.incoming_11 ∈ allMessages s') by by_computation.
    assert (Hlatest : latest_in_group (allMessages s') Scenario.incoming_11).
    { split; [exact Hin|]. exists 1735729200000. split; [reflexivity|].
      intros m' Hm'. apply list_elem_of_In in Hm'. vm_compute in Hm'.
      destruct Hm' as [<-|[<-|[]]].
      - exists 1735725600000. split; [reflexivity|lia].
      - exists 1735729200000. split; [reflexivity|lia]. }
    destruct (unread_follows_first_latest s' Scenario.incoming_11 Hvalid
                Hlatest)
      as (r & c & m0 & Hr & _ & Hc & Hphone & _ & _ & _ & _ & _ & _ & _ & _
          & Hsame).
    split_and!; [exact Hvalid|exact Hin|].
    exists r, c. split_and!; [exact Hr|exact Hc|exact Hphone|].
    apply Hsame; [|reflexivity].
    intros m' Hm' Htime. apply list_elem_of_In in Hm'. vm_compute in Hm'.
    destruct Hm' as [<-|[<-|[]]]; [discriminate Htime|reflexivity].
Defined.

(** C5, the sentence of the specification at a concrete input: an
    outgoing and an incoming message of one conversation carry the same
    timestamp.  Fetched in the order outgoing, incoming, the incoming
    message is a latest message of the conversation and the summary is
    read; fetched in the other order, the outgoing message is a latest
    message of the conversation and the summary is unread. *)
Lemma unread_tie_follows_store_order :
  let s := state_of (pollMessages (answering Scenario.batch_tie) service) in
  let s' := state_of (pollMessages (answering Scenario.batch_tie_swapped)
                        service) in
  (allMessages s = [Scenario.tie_out; Scenario.tie_in]
   ∧ timestamps_valid (allMessages s)
   ∧ latest_in_group (allMessages s) Scenario.tie_in
   ∧ direction Scenario.tie_in = Incoming
   ∧ result_of (fetchConversations s)
     = Normal {| data := [summary_of Scenario.tie_out]; error := None |}
   ∧ unread (summary_of Scenario.tie_out) = Some false)
  ∧ (allMessages s' = [Scenario.tie_in; Scenario.tie_out]
     ∧ timestamps_valid (allMessages s')
     ∧ latest_in_group (allMessages s') Scenario.tie_out
     ∧ direction Scenario.tie_out = Outgoing
     ∧ result_of (fetchConversations s')
       = Normal {| data := [summary_of Scenario.tie_in]; error := None |}
     ∧ unread (summary_of Scenario.tie_in) = Some true).
Proof.
  intros s s'.
  assert (Hs : allMessages s = [Scenario.tie_out; Scenario.tie_in])
    by (vm_compute; reflexivity).
  assert (Hs' : allMessages s' = [Scenario.tie_in; Scenario.tie_out])
    by (vm_compute; reflexivity).
  split.
  - split_and!;
      [exact Hs|by_computation| |reflexivity|vm_compute; reflexivity
      |reflexivity].
    rewrite Hs. split; [right; left|].
    exists 1735725600000. split; [reflexivity|].
    intros m' Hm'. apply list_elem_of_In in Hm'. vm_compute in Hm'.
    destruct Hm' as [<-|[<-|[]]];
      (exists 1735725600000; split; [reflexivity|lia]).
  - split_and!;
      [exact Hs'|by_computation| |reflexivity|vm_compute; reflexivity
      |reflexivity].
    rewrite Hs'. split; [right; left|].
    exists 1735725600000. split; [reflexivity|].
    intros m' Hm'. apply list_elem_of_In in Hm'. vm_compute in Hm'.
    destruct Hm' as [<-|[<-|[]]];
      (exists 1735725600000; split; [reflexivity|lia]).
Qed.

(** C7 on the batch that carries the identifier [a] twice. *)
Lemma duplicate_identifier_all_stored_witness :
  let s' := state_of (replaceAll (answering batch_twice) batch_twice service) in
  "a" ≠ ""
  ∧ length (filter (λ m, id m = Some "a") (allMessages s')) = 2%nat
  ∧ filter (λ m, id m = Some "a")
      (increment (answering batch_twice) batch_twice service)
    = take 1 (filter (λ m, id m = Some "a") (allMessages s')).
Proof.
  intros s'.
  assert (Hne : "a" ≠ "") by discriminate.
  destruct (duplicate_identifier_all_stored (answering batch_twice)
              batch_twice service "a" Hne)
    as (_ & Hlen & _ & Hinc & _).
  split_and!; [exact Hne|exact Hlen|exact Hinc].
Defined.

(** C7, the sentence of the specification at a concrete input: two
    elements share the identifier [a]; both are stored, and the one told to
    the subscriber is the first of the array, not the last. *)
Lemma duplicate_identifier_both_stored :
  let r := pollMessages (answering batch_twice) service in
  api_id <$> batch_twice = ["a"; "a"]
  ∧ lastMessageHK <$> batch_twice
    = ["2025-01-01T10:00:00.000Z"; "2025-01-01T11:00:00.000Z"]
  ∧ id <$> allMessages (state_of r) = [Some "a"; Some "a"]
  ∧ body <$> allMessages (state_of r) = ["first"; "second"]
  ∧ ∃ m, trace_of r
         = [NetGet (n8nGetMessagesUrl default_settings);
            CallNewMessages 1 [m]]
         ∧ body m = "first".
Proof.
  split_and!; [reflexivity..|]. eexists. split; vm_compute; reflexivity.
Qed.

(** C8 on the state reached by a poll cycle and a send. *)
Lemma store_consistent_invariant_witness :
  let s :=
    state_of (sendMessage sending "555" "yo"
                (state_of (pollMessages (answering batch_ab)
                             (new_ApiService default_settings)))) in
  reachable s ∧ store_consistent s.
Proof.
  intros s.
  assert (Hreach : reachable s).
  { apply (reachable_step _ _
             (reachable_step _ _ (reachable_new default_settings)
                (step_pollMessages (answering batch_ab) _))
             (step_sendMessage sending "555" "yo" _)). }
  split; [exact Hreach|].
  exact (proj2 (proj2 store_consistent_invariant) s Hreach).
Defined.

(** C10 on a send that the webhook answers with 500. *)
Lemma sendMessage_failure_atomic_witness :
  send_fails sending_refused service = true
  ∧ rejection_has_message sending_refused
  ∧ result_of (sendMessage sending_refused "555" "yo" service)
    = Normal {| data := false;
                error := Some (send_failure_message sending_refused service) |}
  ∧ state_of (sendMessage sending_refused "555" "yo" service) = service
  ∧ send_failure_message sending_refused service ≠ "".
Proof.
  assert (Hfail : send_fails sending_refused service = true) by reflexivity.
  assert (Hmsg : rejection_has_message sending_refused) by exact I.
  destruct (sendMessage_failure_atomic sending_refused "555" "yo" service Hfail)
    as (Hr & Hs & _ & _ & Hne & _).
  split_and!; [exact Hfail|exact Hmsg|exact Hr|exact Hs|exact (Hne Hmsg)].
Defined.

(** The error string of the refused send. *)
Lemma refused_send_message :
  send_failure_message sending_refused service
  = "HTTP 500: Internal Server Error - boom".
Proof. reflexivity. Qed.

End Runs.

(** * Further properties of the code *)

(** ** The transport: what a fetch delivers *)

Lemma fetchMessagesFromApi_trace net s :
  ∃ r, fetchMessagesFromApi net s
       = (Normal r, s,
          if url_blank (n8nGetMessagesUrl (settings s)) then []
          else [NetGet (n8nGetMessagesUrl (settings s))])
       ∧ (is_Some (error r) → data r = []).
Proof.
  unfold fetchMessagesFromApi. run_js. cbn beta.
  destruct (url_blank _); [eexists; split; [reflexivity|done]|].
  destruct net as [e|response]; [eexists; split; [reflexivity|done]|].
  destruct (resp_ok response); [|eexists; split; [reflexivity|done]]. simpl.
  destruct (resp_json response) as [j|e]; [|eexists; split; [reflexivity|done]].
  destruct j; try (eexists; split; [reflexivity|done]).
  destruct (validMessages items);
    (eexists; split; [reflexivity|]); [by intros [? ?]|done].
Qed.

(** X1. Whatever the network does, a fetch completes normally, leaves
    the service as it was and issues one GET request to the configured
    URL, or none when that URL is blank; a result that carries an error
    carries no message. *)
Theorem fetchMessagesFromApi_contained (net : FetchOutcome) (s : ApiService) :
  ∃ r, result_of (fetchMessagesFromApi net s) = Normal r
       ∧ state_of (fetchMessagesFromApi net s) = s
       ∧ trace_of (fetchMessagesFromApi net s)
         = (if url_blank (n8nGetMessagesUrl (settings s)) then []
            else [NetGet (n8nGetMessagesUrl (settings s))])
       ∧ (is_Some (error r) → data r = []).
Proof.
  destruct (fetchMessagesFromApi_trace net s) as (r & -> & Herr).
  by exists r.
Qed.

Lemma isValid_completion_not_null msg :
  msg ≠ JNull → isValid_completion msg = Normal (isValid msg).
Proof. by destruct msg. Qed.

Lemma validMessages_null items :
  JNull ∈ items →
  validMessages items = Throw (ThrownError "TypeError" null_id_error).
Proof.
  induction items as [|msg rest IH]; [by intros ?%elem_of_nil|].
  intros Hin. cbn [validMessages].
  destruct msg; [done|..];
    (rewrite isValid_completion_not_null by done;
     apply elem_of_cons in Hin as [?|Hin]; [done|]; by rewrite IH).
Qed.

Lemma validMessages_no_null items :
  JNull ∉ items →
  validMessages items
  = Normal (omap toApiMessage (filter (λ msg, isValid msg = true) items)).
Proof.
  induction items as [|msg rest IH]; [done|].
  intros [Hmsg Hrest]%not_elem_of_cons. cbn [validMessages].
  rewrite isValid_completion_not_null by done. rewrite IH by done.
  rewrite filter_cons. destruct (isValid msg) eqn:Hvalid.
  - rewrite decide_True by done. cbn [omap list_omap].
    by destruct (toApiMessage msg).
  - by rewrite decide_False by done.
Qed.

Lemma valid_count items :
  length (omap toApiMessage (filter (λ msg, isValid msg = true) items))
  = length (filter (λ msg, isValid msg = true) items).
Proof.
  induction items as [|msg rest IH]; [done|].
  rewrite filter_cons. destruct (decide (isValid msg = true)) as [Hv|]; [|done].
  cbn [omap list_omap]. destruct (isValid_toApiMessage msg Hv) as [r ->].
  simpl. by rewrite IH.
Qed.

(** X2. One [null] element in the array received fails the whole fetch:
    no message is delivered, not even the valid ones, and the error is the
    TypeError of reading [id] on [null]. *)
Theorem null_element_fails_fetch (response : Response) (items : list Json)
    (s : ApiService) :
  url_blank (n8nGetMessagesUrl (settings s)) = false →
  resp_ok response = true →
  resp_json response = Normal (JArray items) →
  JNull ∈ items →
  fetchMessagesFromApi (FetchResponds response) s
  = (Normal {| data := []; error := Some null_id_error |}, s,
     [NetGet (n8nGetMessagesUrl (settings s))]).
Proof.
  intros Hurl Hok Hjson Hnull. unfold fetchMessagesFromApi. run_js. cbn beta.
  rewrite Hurl, Hok, Hjson. simpl. by rewrite validMessages_null.
Qed.

(** X3. An array without [null] elements is delivered element by
    element: the result has no error and holds, in the order received,
    exactly the elements that pass the validation, each read at the type of
    a raw message; the others are dropped. *)
Theorem fetch_delivers_valid_elements (response : Response)
    (items : list Json) (s : ApiService) :
  url_blank (n8nGetMessagesUrl (settings s)) = false →
  resp_ok response = true →
  resp_json response = Normal (JArray items) →
  JNull ∉ items →
  ∃ batch,
    fetchMessagesFromApi (FetchResponds response) s
    = (Normal {| data := batch; error := None |}, s,
       [NetGet (n8nGetMessagesUrl (settings s))])
    ∧ batch = omap toApiMessage (filter (λ msg, isValid msg = true) items)
    ∧ length batch = length (filter (λ msg, isValid msg = true) items)
    ∧ (length batch ≤ length items)%nat
    ∧ ∀ r, r ∈ batch →
           ∃ msg, msg ∈ items ∧ isValid msg = true ∧ toApiMessage msg = Some r.
Proof.
  intros Hurl Hok Hjson Hnull. eexists. split_and!.
  - unfold fetchMessagesFromApi. run_js. cbn beta.
    rewrite Hurl, Hok, Hjson. simpl. rewrite validMessages_no_null by done.
    reflexivity.
  - done.
  - apply valid_count.
  - rewrite valid_count. apply length_filter.
  - intros r (msg & [Hv Hin]%list_elem_of_filter & Hr)%list_elem_of_omap. eauto.
Qed.

(** X4. A 2xx response whose body is JSON but not an array is a failed
    fetch: the result carries the format error and no message, and the
    poll cycle that made the request leaves the message list and the seen
    set untouched. *)
Theorem non_array_response_is_an_error `{DateApi} (env : PollEnv)
    (response : Response) (body : Json) (s : ApiService) :
  url_blank (n8nGetMessagesUrl (settings s)) = false →
  poll_outcome env = FetchResponds response →
  resp_ok response = true →
  resp_json response = Normal body →
  (∀ items, body ≠ JArray items) →
  result_of (fetchMessagesFromApi (poll_outcome env) s)
  = Normal {| data := []; error := Some not_an_array_message |}
  ∧ allMessages (state_of (pollMessages env s)) = allMessages s
  ∧ processedMessageIds (state_of (pollMessages env s)) = processedMessageIds s
  ∧ retryTimeout (state_of (pollMessages env s)) = Some (poll_timer env).
Proof.
  intros Hurl Hnet Hok Hjson Hbody.
  assert (fetchMessagesFromApi (poll_outcome env) s
          = (Normal {| data := []; error := Some not_an_array_message |}, s,
             [NetGet (n8nGetMessagesUrl (settings s))])) as Hfetch.
  { rewrite Hnet. unfold fetchMessagesFromApi. run_js. cbn beta.
    rewrite Hurl, Hok, Hjson. simpl.
    destruct body; try reflexivity. by destruct (Hbody items). }
  rewrite Hfetch. split; [done|].
  unfold pollMessages. unfold mbind, Js_bind, bind. rewrite Hfetch.
  rewrite (pollMessages_merge_failure _ _ _ not_an_array_message) by done.
  done.
Qed.

(** ** Runs: what the subscriber is told *)

Lemma notified_app t1 t2 : notified (t1 ++ t2) = notified t1 ++ notified t2.
Proof.
  induction t1 as [|e t1 IH]; [done|].
  destruct e; simpl; rewrite ?IH; try done. by rewrite app_assoc.
Qed.

Lemma notified_ids_app t1 t2 :
  notified_ids (t1 ++ t2) = notified_ids t1 ++ notified_ids t2.
Proof. unfold notified_ids. by rewrite notified_app, omap_app. Qed.

Lemma quiet_ret {A} (a : A) : quiet (mret a).
Proof. by intros s. Qed.

Lemma quiet_gets {A} (f : ApiService → A) : quiet (gets f).
Proof. by intros s. Qed.

Lemma quiet_modify f : quiet (modify f).
Proof. by intros s. Qed.

Lemma quiet_emit e :
  match e with CallNewMessages _ _ => False | _ => True end → quiet (emit e).
Proof. intros He s. by destruct e. Qed.

Lemma quiet_bind {A B} (m : Js A) (k : A → Js B) :
  quiet m → (∀ a, quiet (k a)) → quiet (m ≫= k).
Proof.
  intros Hm Hk s. specialize (Hm s). unfold mbind, Js_bind, bind, trace_of in *.
  destruct (m s) as [[[a|e] s1] t1]; simpl in *; [|done].
  specialize (Hk a s1). unfold trace_of in Hk.
  destruct (k a s1) as [[r s2] t2]. simpl in *.
  by rewrite notified_app, Hm, Hk.
Qed.

Ltac quiet_step :=
  first
    [ apply quiet_ret | apply quiet_gets | apply quiet_modify
    | apply quiet_emit; exact I
    | apply quiet_bind; [|intros ?]
    | match goal with
      | |- quiet (match ?x with _ => _ end) => destruct x
      end ].

Lemma stopPolling_quiet : quiet stopPolling.
Proof. unfold stopPolling. repeat quiet_step. Qed.

Lemma startPolling_quiet h : quiet (startPolling h).
Proof.
  unfold startPolling, pollMessages_begin.
  repeat (apply stopPolling_quiet || quiet_step).
Qed.

Lemma updateSettings_quiet h p : quiet (updateSettings h p).
Proof.
  unfold updateSettings, restartPolling.
  repeat (apply stopPolling_quiet || apply startPolling_quiet || quiet_step).
Qed.

(** The identifiers of the new messages a filter run finds are pairwise
    distinct, were not seen before and are seen afterwards. *)
Lemma filter_new_keys l :
  ∀ seen,
    NoDup (omap dedup_key (filter_new seen l).1)
    ∧ (∀ i, i ∈ omap dedup_key (filter_new seen l).1 →
            (i ∉ seen) ∧ i ∈ (filter_new seen l).2)
    ∧ length (omap dedup_key (filter_new seen l).1)
      = length (filter_new seen l).1.
Proof.
  induction l as [|msg rest IH]; intros seen.
  - simpl. split_and!; [constructor| |done]. by intros i ?%elem_of_nil.
  - rewrite filter_new_cons. destruct (is_new seen msg) eqn:Hnew; [|apply IH].
    apply is_new_spec in Hnew as (i & Hi & Hne & Hseen).
    rewrite Hi. cbn [fst snd default fmap option_fmap option_map].
    destruct (IH ({[i]} ∪ seen)) as (Hnd & Hin & Hlen).
    cbn [omap list_omap]. rewrite (proj2 (dedup_key_Some msg i)) by done.
    split_and!.
    + apply NoDup_cons. split; [|done]. intros Hi'%Hin. set_solver.
    + intros j [->|Hj]%elem_of_cons.
      * split; [done|]. rewrite filter_new_seen. set_solver.
      * apply Hin in Hj as [? ?]. split; [set_solver|done].
    + simpl. by rewrite Hlen.
Qed.

Lemma filter_new_sublist l :
  ∀ seen, (filter_new seen l).1 `sublist_of` l.
Proof.
  induction l as [|msg rest IH]; intros seen; [done|].
  rewrite filter_new_cons. destruct (is_new seen msg).
  - cbn [fst]. by apply sublist_skip.
  - by apply sublist_cons.
Qed.

Lemma filter_new_grows l seen : seen ⊆ (filter_new seen l).2.
Proof. rewrite filter_new_seen. set_solver. Qed.

Section RunFacts.
Context `{DateApi}.

Lemma notified_notification s news :
  notified (notification s news) = [] ∨ notified (notification s news) = news.
Proof.
  unfold notification. destruct news as [|m news]; [by left|].
  destruct (onNewMessageCallback s); [right|by left].
  simpl. by rewrite app_nil_r.
Qed.

Lemma notified_error_notification s e t :
  (∀ h ms, CallNewMessages h ms ∉ t) →
  notified (error_notification s e ++ t) = notified t.
Proof. intros _. unfold error_notification. by destruct (onErrorCallback s). Qed.

Lemma told_once_quiet s s' t :
  notified t = [] → processedMessageIds s ⊆ processedMessageIds s' →
  told_once s s' t.
Proof.
  intros Hq Hsub. unfold told_once, notified_ids. rewrite Hq. simpl.
  split_and!; [constructor| |done..]. by intros i ?%elem_of_nil.
Qed.

Lemma told_once_merge env result s :
  told_once s (state_of (pollMessages_merge env result s))
    (trace_of (pollMessages_merge env result s)).
Proof.
  destruct (error_truthy result) as [e|] eqn:Herr.
  - rewrite (pollMessages_merge_failure _ _ _ e) by done.
    apply told_once_quiet; [|done]. unfold trace_of. simpl.
    unfold error_notification. by destruct (onErrorCallback s).
  - rewrite pollMessages_merge_success by done. unfold state_of, trace_of.
    cbn [fst snd].
    destruct (filter_new_keys (sorted_batch env (data result))
                (processedMessageIds s)) as (Hnd & Hin & Hlen).
    destruct (notified_notification s
                (filter_new (processedMessageIds s)
                   (sorted_batch env (data result))).1) as [Hq|Hq].
    + apply told_once_quiet; [done|]. simpl. apply filter_new_grows.
    + unfold told_once, notified_ids. rewrite Hq. simpl.
      split_and!; [done|done|apply filter_new_grows|done].
Qed.

Lemma pollMessages_outcome env s :
  ∃ result,
    state_of (pollMessages env s) = state_of (pollMessages_merge env result s)
    ∧ notified (trace_of (pollMessages env s))
      = notified (trace_of (pollMessages_merge env result s)).
Proof.
  destruct (fetchMessagesFromApi_trace (poll_outcome env) s) as (r & Hf & _).
  exists r. unfold pollMessages. run_js. rewrite Hf.
  destruct (pollMessages_merge env r s) as [[? ?] ?]. simpl.
  split; [done|]. rewrite notified_app. by destruct (url_blank _).
Qed.

Lemma sendMessage_completes_trace env to body s :
  trace_of (sendMessage_completes env to body s) = [].
Proof.
  unfold sendMessage_completes, sendMessage_after_fetch, sendMessage_catch.
  run_js. cbn beta.
  destruct (send_outcome env) as [e|response]; [done|].
  by destruct (resp_ok response).
Qed.

Lemma perform_told_once o s :
  is_reset o = false → told_once s (perform o s).1 (perform o s).2.
Proof.
  intros Hreset. destruct o as
    [env|env result|env to text|env to text| | |key| |handle| |handle p|callback|callback];
    try done; cbn [perform outcome fst snd].
  - destruct (pollMessages_outcome env s) as (result & Hs & Ht).
    pose proof (told_once_merge env result s) as Hm.
    unfold told_once, notified_ids in *. by rewrite Hs, Ht.
  - apply told_once_merge.
  - destruct (send_fails env s) eqn:Hf.
    + rewrite sendMessage_failure by done. apply told_once_quiet; [|done].
      unfold trace_of. simpl. by destruct (url_blank _).
    + rewrite sendMessage_success by done. apply told_once_quiet; [done|].
      unfold state_of. simpl. set_solver.
  - apply told_once_quiet; [by rewrite sendMessage_completes_trace|].
    destruct (sendMessage_completes_state env to text s) as [->| ->];
      [done|simpl; set_solver].
  - rewrite fetchConversations_run. by apply told_once_quiet.
  - by apply told_once_quiet.
  - by apply told_once_quiet.
  - apply told_once_quiet; [apply startPolling_quiet|].
    by destruct (startPolling_keeps handle s) as [_ ->].
  - apply told_once_quiet; [apply stopPolling_quiet|].
    by destruct (stopPolling_keeps s) as [_ ->].
  - apply told_once_quiet; [apply updateSettings_quiet|].
    by destruct (updateSettings_keeps handle p s) as [_ ->].
  - by apply told_once_quiet.
  - by apply told_once_quiet.
Qed.

Lemma execute_cons o ops s :
  execute (o :: ops) s
  = ((execute ops (perform o s).1).1,
     (perform o s).2 ++ (execute ops (perform o s).1).2).
Proof.
  cbn [execute]. destruct (perform o s) as [s1 t1]. cbn [fst snd].
  by destruct (execute ops s1) as [s2 t2].
Qed.

Lemma execute_told_once ops :
  ∀ s, Forall (λ o, is_reset o = false) ops →
       told_once s (execute ops s).1 (execute ops s).2.
Proof.
  induction ops as [|o ops IH]; intros s Hops.
  - by apply told_once_quiet.
  - apply Forall_cons in Hops as [Ho Hops]. rewrite execute_cons.
    cbn [fst snd].
    destruct (perform_told_once o s Ho) as (Hnd1 & Hin1 & Hsub1 & Hlen1).
    destruct (IH (perform o s).1 Hops) as (Hnd2 & Hin2 & Hsub2 & Hlen2).
    unfold told_once. rewrite notified_ids_app, notified_app. split_and!.
    + apply NoDup_app. split_and!; [done| |done].
      intros i Hi1 Hi2. apply Hin1 in Hi1 as [_ Hi1].
      apply Hin2 in Hi2 as [Hi2 _]. done.
    + intros i [Hi|Hi]%elem_of_app.
      * apply Hin1 in Hi as [? ?]. split; [done|set_solver].
      * apply Hin2 in Hi as [? ?]. split; [set_solver|done].
    + set_solver.
    + rewrite !length_app. lia.
Qed.

(** X5. Along any sequence of operations without a reset, started in any
    state, every message told to the new-message subscriber has a non-empty
    identifier, no identifier is told twice, none that the service had seen
    at the start is told at all, every one told is seen at the end, and the
    seen set only grows. *)
Theorem no_identifier_notified_twice (ops : list Operation) (s : ApiService) :
  Forall (λ o, is_reset o = false) ops →
  NoDup (notified_ids (execute ops s).2)
  ∧ (∀ i, i ∈ notified_ids (execute ops s).2 →
          (i ∉ processedMessageIds s)
          ∧ i ∈ processedMessageIds (execute ops s).1)
  ∧ processedMessageIds s ⊆ processedMessageIds (execute ops s).1
  ∧ length (notified_ids (execute ops s).2)
    = length (notified (execute ops s).2).
Proof. apply execute_told_once. Qed.

Lemma perform_step o s : step s (perform o s).1.
Proof. destruct o; cbn [perform outcome fst]; constructor. Qed.

Lemma execute_consistent ops :
  ∀ s, store_consistent s → store_consistent (execute ops s).1.
Proof.
  induction ops as [|o ops IH]; intros s Hs; [done|].
  rewrite execute_cons. cbn [fst]. apply IH.
  eapply step_consistent; [done|apply perform_step].
Qed.

Lemma filter_none {A} (P : A → Prop) `{!∀ x, Decision (P x)} (l : list A) :
  (∀ x, x ∈ l → ¬ P x) → filter P l = [].
Proof.
  induction l as [|x l IH]; intros HP; [done|].
  rewrite filter_cons_False by (apply HP; left).
  apply IH. intros y Hy. apply HP. by right.
Qed.

Lemma fetchNewIncomingMessages_consistent s :
  store_consistent s →
  fetchNewIncomingMessages s = (Normal {| data := []; error := None |}, s, []).
Proof.
  intros Hs. unfold fetchNewIncomingMessages, getAllMessages. run_js. simpl.
  rewrite filter_none; [done|]. intros m Hm Hnew.
  apply andb_prop in Hnew as [[_ Hid]%andb_prop Hseen].
  apply bool_decide_eq_true in Hseen. apply Hseen.
  destruct (id m) as [i|] eqn:Hi; [|done]. simpl in *.
  apply negb_true_iff, negb_false_iff, truthy_ne in Hid.
  by apply (Hs m i).
Qed.

(** X6. After any sequence of operations on a new service, resets
    included, [fetchNewIncomingMessages] returns no message: every stored
    message that has an identifier has been marked as seen by the operation
    that stored it. *)
Theorem fetchNewIncomingMessages_is_empty (ops : list Operation)
    (cfg : Settings) :
  fetchNewIncomingMessages (execute ops (new_ApiService cfg)).1
  = (Normal {| data := []; error := None |},
     (execute ops (new_ApiService cfg)).1, []).
Proof.
  apply fetchNewIncomingMessages_consistent, execute_consistent,
    store_consistent_new.
Qed.

End RunFacts.

(** ** Polling control *)

Lemma stopPolling_run s :
  ∃ s', stopPolling s = (Normal tt, s', cancels s)
        ∧ pollingTimer s' = None ∧ retryTimeout s' = None
        ∧ settings s' = settings s
        ∧ same_store_and_subscribers s s'.
Proof.
  destruct s as [cfg seen msgs [p|] [r|] cb1 cb2];
    eexists; (split; [reflexivity|]); by split_and!.
Qed.

Lemma stopPolling_idle s :
  pollingTimer s = None → retryTimeout s = None →
  stopPolling s = (Normal tt, s, []).
Proof.
  destruct s as [cfg seen msgs p r cb1 cb2]. simpl. by intros -> ->.
Qed.

(** X7. [stopPolling] cancels exactly the timers that are set, the
    interval first, and leaves both handles empty while settings, store and
    subscribers stay; on a service whose timers are not set, in particular
    one that was never started or was just stopped, it does nothing. *)
Theorem stopPolling_cancels_and_is_idempotent (s : ApiService) :
  ∃ s', stopPolling s = (Normal tt, s', cancels s)
        ∧ pollingTimer s' = None ∧ retryTimeout s' = None
        ∧ settings s' = settings s
        ∧ same_store_and_subscribers s s'
        ∧ stopPolling s' = (Normal tt, s', [])
        ∧ ∀ cfg, stopPolling (new_ApiService cfg)
                 = (Normal tt, new_ApiService cfg, []).
Proof.
  destruct (stopPolling_run s) as (s' & Hrun & Hp & Hr & Hcfg & Hsame).
  exists s'. split_and!; [done..| |].
  - by apply stopPolling_idle.
  - intros cfg. by apply stopPolling_idle.
Qed.

Lemma startPolling_run h s :
  ∃ s', startPolling h s
        = (Normal tt, s',
           cancels s ++ request (settings s)
           ++ [SetIntervalPoll h (pollingInterval (settings s) * 1000)])
        ∧ pollingTimer s' = Some h ∧ retryTimeout s' = None
        ∧ settings s' = settings s
        ∧ same_store_and_subscribers s s'.
Proof.
  destruct s as [cfg seen msgs [p|] [r|] cb1 cb2];
    unfold startPolling, stopPolling, pollMessages_begin, request, cancels;
    run_js; cbn -[url_blank Z.mul];
    destruct (url_blank (n8nGetMessagesUrl cfg));
    eexists; (split; [reflexivity|]); by split_and!.
Qed.

(** X8. [startPolling] first cancels the timers that are set, then sends
    the first request at once (none when the read URL is blank) and sets
    the interval to the configured number of seconds; when it returns the
    interval handle is the new one and no retry is pending.  Started a
    second time, it cancels the handle of the first start, so that at most
    one interval timer is left running. *)
Theorem startPolling_replaces_timers (h1 h2 : nat) (s : ApiService) :
  ∃ s1 s2,
    startPolling h1 s
    = (Normal tt, s1,
       cancels s ++ request (settings s)
       ++ [SetIntervalPoll h1 (pollingInterval (settings s) * 1000)])
    ∧ pollingTimer s1 = Some h1 ∧ retryTimeout s1 = None
    ∧ settings s1 = settings s ∧ same_store_and_subscribers s s1
    ∧ startPolling h2 s1
      = (Normal tt, s2,
         [ClearInterval h1] ++ request (settings s)
         ++ [SetIntervalPoll h2 (pollingInterval (settings s) * 1000)])
    ∧ pollingTimer s2 = Some h2 ∧ retryTimeout s2 = None.
Proof.
  destruct (startPolling_run h1 s) as (s1 & Hrun1 & Hp1 & Hr1 & Hcfg1 & Hsame1).
  destruct (startPolling_run h2 s1) as (s2 & Hrun2 & Hp2 & Hr2 & Hcfg2 & Hsame2).
  exists s1, s2. split_and!; [done..| |done|done].
  rewrite Hrun2. unfold cancels. by rewrite Hp1, Hr1, Hcfg1.
Qed.

Lemma merge_settings_empty cfg :
  merge_settings cfg {| patch_n8nWebhookUrl := None;
                        patch_n8nGetMessagesUrl := None;
                        patch_pollingInterval := None |} = cfg.
Proof. by destruct cfg. Qed.

Lemma updateSettings_run h p s :
  let cfg' := merge_settings (settings s) p in
  ∃ s', updateSettings h p s
        = (Normal tt, s',
           match pollingTimer s with
           | None => []
           | Some _ =>
               cancels s ++ request cfg'
               ++ [SetIntervalPoll h (pollingInterval cfg' * 1000)]
           end)
        ∧ settings s' = cfg'
        ∧ pollingTimer s' = (match pollingTimer s with
                             | None => None
                             | Some _ => Some h
                             end)
        ∧ retryTimeout s' = (match pollingTimer s with
                             | None => retryTimeout s
                             | Some _ => None
                             end)
        ∧ same_store_and_subscribers s s'.
Proof.
  destruct s as [cfg seen msgs [p0|] [r|] cb1 cb2];
    unfold updateSettings, restartPolling, startPolling, stopPolling,
      pollMessages_begin, request, cancels;
    run_js; cbn -[url_blank Z.mul merge_settings];
    try destruct (url_blank (n8nGetMessagesUrl (merge_settings cfg p)));
    eexists; (split; [reflexivity|]); by split_and!.
Qed.

(** X9. [updateSettings] overrides exactly the fields the patch gives.
    On a service that is not polling it has no effect but that: no request,
    no timer, a pending retry is kept.  On a polling service it restarts
    polling under the new settings: the timers that are set are cancelled,
    a request goes to the new read URL at once and the interval is set
    again with the new period.  The store and the subscribers never
    change. *)
Theorem updateSettings_restarts_only_when_polling (h : nat)
    (p : SettingsPatch) (s : ApiService) :
  let cfg' := merge_settings (settings s) p in
  ∃ s', updateSettings h p s
        = (Normal tt, s',
           match pollingTimer s with
           | None => []
           | Some _ =>
               cancels s ++ request cfg'
               ++ [SetIntervalPoll h (pollingInterval cfg' * 1000)]
           end)
        ∧ settings s' = cfg'
        ∧ n8nWebhookUrl cfg'
          = default (n8nWebhookUrl (settings s)) (patch_n8nWebhookUrl p)
        ∧ n8nGetMessagesUrl cfg'
          = default (n8nGetMessagesUrl (settings s))
              (patch_n8nGetMessagesUrl p)
        ∧ pollingInterval cfg'
          = default (pollingInterval (settings s)) (patch_pollingInterval p)
        ∧ pollingTimer s' = (match pollingTimer s with
                             | None => None
                             | Some _ => Some h
                             end)
        ∧ retryTimeout s' = (match pollingTimer s with
                             | None => retryTimeout s
                             | Some _ => None
                             end)
        ∧ same_store_and_subscribers s s'.
Proof.
  intros cfg'.
  destruct (updateSettings_run h p s) as (s' & Hrun & Hcfg & Hp & Hr & Hsame).
  exists s'. by split_and!.
Qed.

Section PollFacts.
Context `{DateApi}.

(** X10. A poll cycle that fails while a retry is pending overwrites the
    retry handle without cancelling the pending timer: after two failed
    poll cycles only the handle of the second is kept, and [stopPolling]
    cancels that one and never the first. *)
Theorem second_failure_forgets_first_retry (env1 env2 : PollEnv)
    (result1 result2 : ApiResponse (list ApiMessage)) (s : ApiService) :
  is_Some (error_truthy result1) → is_Some (error_truthy result2) →
  poll_timer env1 ≠ poll_timer env2 →
  let s1 := state_of (pollMessages_merge env1 result1 s) in
  let s2 := state_of (pollMessages_merge env2 result2 s1) in
  retryTimeout s1 = Some (poll_timer env1)
  ∧ retryTimeout s2 = Some (poll_timer env2)
  ∧ (ClearTimeout (poll_timer env1)
       ∉ trace_of (pollMessages_merge env2 result2 s1))
  ∧ trace_of (stopPolling s2)
    = from_option (λ h, [ClearInterval h]) [] (pollingTimer s)
      ++ [ClearTimeout (poll_timer env2)]
  ∧ (ClearTimeout (poll_timer env1) ∉ trace_of (stopPolling s2)).
Proof.
  intros [e1 He1] [e2 He2] Hne s1 s2.
  assert (s1 = set_retryTimeout (Some (poll_timer env1)) s) as Hs1.
  { subst s1. by rewrite (pollMessages_merge_failure _ _ _ e1). }
  assert (pollMessages_merge env2 result2 s1
          = (Normal tt, set_retryTimeout (Some (poll_timer env2)) s1,
             error_notification s1 e2
             ++ [SetTimeoutPoll (poll_timer env2) 60000])) as Hrun2
    by by rewrite (pollMessages_merge_failure _ _ _ e2).
  assert (s2 = set_retryTimeout (Some (poll_timer env2)) s1) as Hs2
    by (subst s2; by rewrite Hrun2).
  clearbody s1 s2. subst s1 s2. rewrite Hrun2.
  destruct (stopPolling_run
              (set_retryTimeout (Some (poll_timer env2))
                 (set_retryTimeout (Some (poll_timer env1)) s)))
    as (s' & -> & _).
  unfold trace_of, cancels. cbn [fst snd]. simpl.
  split_and!; [done|done| |done|].
  - unfold error_notification. simpl. destruct (onErrorCallback s);
      simpl; intros Hin;
      repeat (apply elem_of_cons in Hin as [Hin|Hin]; [congruence|]);
      by apply elem_of_nil in Hin.
  - destruct (pollingTimer s); simpl; intros Hin;
      repeat (apply elem_of_cons in Hin as [Hin|Hin]; [congruence|]);
      by apply elem_of_nil in Hin.
Qed.

Lemma increment_fresh env batch s :
  processedMessageIds s = ∅ →
  NoDup (api_id <$> batch) → Forall (λ r, api_id r ≠ "") batch →
  increment env batch s = sorted_batch env batch.
Proof.
  intros Hfresh Hnd Hne. rewrite increment_NoDup by done. apply filter_all.
  intros m Hm. apply is_new_spec.
  destruct (sorted_batch_id _ _ _ Hm) as (r & Hr & Hid).
  exists (api_id r). split_and!; [done| |by rewrite Hfresh].
  by apply (proj1 (Forall_forall _ _) Hne).
Qed.

(** X11. A reset empties the message list and the seen set and touches
    nothing else, so polling goes on; the next poll cycle then reports
    every message of its batch again, whatever had been seen before the
    reset (for a batch with pairwise distinct, non-empty identifiers). *)
Theorem reset_resurfaces_everything (env : PollEnv)
    (batch : list ApiMessage) (s : ApiService) :
  NoDup (api_id <$> batch) → Forall (λ r, api_id r ≠ "") batch →
  let s0 := state_of (resetProcessedMessages s) in
  trace_of (resetProcessedMessages s) = []
  ∧ allMessages s0 = [] ∧ processedMessageIds s0 = ∅
  ∧ settings s0 = settings s
  ∧ pollingTimer s0 = pollingTimer s ∧ retryTimeout s0 = retryTimeout s
  ∧ onNewMessageCallback s0 = onNewMessageCallback s
  ∧ onErrorCallback s0 = onErrorCallback s
  ∧ increment env batch s0 = sorted_batch env batch
  ∧ trace_of (replaceAll env batch s0)
    = notification s (sorted_batch env batch).
Proof.
  intros Hnd Hne s0. subst s0. split_and!; try done.
  - by apply increment_fresh.
  - rewrite replaceAll_run. unfold trace_of. cbn [snd].
    by rewrite increment_fresh.
Qed.

(** X12. New messages fetched while no subscriber is registered are
    marked as seen all the same and told to no one: a subscriber that
    registers afterwards is told none of them when the same batch is
    fetched again. *)
Theorem unsubscribed_poll_loses_notifications (env env' : PollEnv)
    (batch : list ApiMessage) (callback : nat) (s : ApiService) :
  onNewMessageCallback s = None →
  let s1 := state_of (replaceAll env batch s) in
  let s2 := state_of (setNewMessageCallback callback s1) in
  trace_of (replaceAll env batch s) = []
  ∧ (∀ m i, m ∈ allMessages s1 → id m = Some i → i ≠ "" →
            i ∈ processedMessageIds s1)
  ∧ onNewMessageCallback s2 = Some callback
  ∧ increment env' batch s2 = []
  ∧ trace_of (replaceAll env' batch s2) = [].
Proof.
  intros Hnone s1 s2.
  assert (increment env' batch s2 = []) as Hinc
    by apply (increment_repeated env env' batch s).
  split_and!.
  - rewrite replaceAll_run. unfold trace_of, notification. cbn [snd].
    rewrite Hnone. by destruct (increment env batch s).
  - subst s1. rewrite replaceAll_run. unfold state_of. cbn [fst snd].
    intros m i Hm Hi Hne. simpl in *.
    apply elem_of_union_r, elem_of_list_to_set.
    apply list_elem_of_omap. exists m. split; [done|].
    by apply dedup_key_Some.
  - done.
  - done.
  - rewrite (replaceAll_run env' batch s2). unfold trace_of. cbn [snd].
    by rewrite Hinc.
Qed.
End PollFacts.

(** ** Order of the store and of the increment *)

Lemma sublist_elem_of' {A} (l1 l2 : list A) x :
  l1 `sublist_of` l2 → x ∈ l1 → x ∈ l2.
Proof.
  induction 1 as [|y l1 l2 _ IH|y l1 l2 _ IH]; [done| |].
  - intros [->|?]%elem_of_cons; [left|right; by apply IH].
  - intros ?. right. by apply IH.
Qed.

Lemma StronglySorted_sublist {A} (R : A → A → Prop) l1 l2 :
  l1 `sublist_of` l2 → StronglySorted R l2 → StronglySorted R l1.
Proof.
  induction 1 as [|y l1 l2 Hsub IH|y l1 l2 Hsub IH].
  - done.
  - intros [Hy Hs]%StronglySorted_cons. apply StronglySorted_cons.
    split; [|by apply IH].
    apply Forall_forall. intros x Hx.
    apply (proj1 (Forall_forall _ _) Hy). by eapply sublist_elem_of'.
  - intros [_ Hs]%StronglySorted_cons. by apply IH.
Qed.

Section OrderFacts.
Context `{DateApi}.

Lemma by_time_ascending_key a b :
  by_time_ascending a b = time_diff (getTime a) (getTime b).
Proof. done. Qed.

Lemma sorted_batch_sorted env batch :
  timestamps_valid (convertedMessages (poll_clock env) batch) →
  StronglySorted (key_le getTime) (sorted_batch env batch).
Proof. apply js_sort_sorted, by_time_ascending_key. Qed.

(** X13. The messages a poll cycle reports as new are a subsequence
    of the list it stores: they are told in store order, and when the
    converted timestamps are valid dates both the store and the increment
    ascend in time. *)
Theorem increment_in_store_order (env : PollEnv) (batch : list ApiMessage)
    (s : ApiService) :
  timestamps_valid (convertedMessages (poll_clock env) batch) →
  let s' := state_of (replaceAll env batch s) in
  increment env batch s `sublist_of` allMessages s'
  ∧ StronglySorted (key_le getTime) (allMessages s')
  ∧ StronglySorted (key_le getTime) (increment env batch s).
Proof.
  intros Hvalid s'. subst s'. rewrite replaceAll_run.
  unfold state_of. cbn [fst snd]. simpl.
  assert (increment env batch s `sublist_of` sorted_batch env batch) as Hsub
    by apply filter_new_sublist.
  split_and!; [done|by apply sorted_batch_sorted|].
  eapply StronglySorted_sublist; [done|]. by apply sorted_batch_sorted.
Qed.

(** ** Reading one conversation *)

Lemma fetchMessages_run key s :
  fetchMessages key s
  = (Normal {| data := js_sort by_time_ascending (group key (allMessages s));
               error := None |}, s, []).
Proof. done. Qed.

(** X14. [fetchMessages] never fails and changes nothing: it returns,
    without error, a rearrangement of exactly the stored messages of the
    asked conversation (each as often as it is stored), in ascending time
    when the stored timestamps are valid dates; an unknown conversation
    gives the empty list. *)
Theorem fetchMessages_selects_conversation (key : string) (s : ApiService) :
  ∃ l, fetchMessages key s
       = (Normal {| data := l; error := None |}, s, [])
       ∧ l ≡ₚ group key (allMessages s)
       ∧ (∀ m, m ∈ l ↔ m ∈ allMessages s ∧ conversationId m = key)
       ∧ ((key ∉ conversationId <$> allMessages s) → l = [])
       ∧ (timestamps_valid (allMessages s) →
          StronglySorted (key_le getTime) l).
Proof.
  exists (js_sort by_time_ascending (group key (allMessages s))).
  split_and!.
  - apply fetchMessages_run.
  - apply js_sort_perm.
  - intros m. rewrite js_sort_elem_of. unfold group.
    rewrite list_elem_of_filter. naive_solver.
  - intros Hkey. unfold group. rewrite filter_none; [done|].
    intros m Hm Heq. apply Hkey. apply list_elem_of_fmap. eauto.
  - intros Hvalid. apply js_sort_sorted; [apply by_time_ascending_key|].
    apply Forall_forall. intros m [_ Hm]%list_elem_of_filter.
    by apply (proj1 (Forall_forall _ _) Hvalid).
Qed.

Lemma group_snoc_other key m l :
  conversationId m ≠ key →
  filter (λ msg, conversationId msg = key) (l ++ [m])
  = filter (λ msg, conversationId msg = key) l.
Proof.
  intros Hne. rewrite filter_app, filter_cons_False by done.
  by rewrite filter_nil, app_nil_r.
Qed.

Lemma group_snoc_same m l :
  filter (λ msg, conversationId msg = conversationId m) (l ++ [m])
  = filter (λ msg, conversationId msg = conversationId m) l ++ [m].
Proof.
  rewrite filter_app, filter_cons_True by done.
  by rewrite filter_nil.
Qed.

(** X15. After a successful send the optimistic message is at once
    part of what [fetchMessages] returns for the recipient, next to the
    messages the conversation had; what [fetchMessages] returns for every
    other conversation is exactly what it returned before. *)
Theorem send_shows_in_its_conversation_only (env : SendEnv)
    (to text : string) (s : ApiService) :
  send_fails env s = false →
  let s' := state_of (sendMessage env to text s) in
  ∃ before after,
    result_of (fetchMessages to s)
    = Normal {| data := before; error := None |}
    ∧ result_of (fetchMessages to s')
      = Normal {| data := after; error := None |}
    ∧ optimisticMessage env to text ∈ after
    ∧ after ≡ₚ before ++ [optimisticMessage env to text]
    ∧ ∀ key, key ≠ to →
             result_of (fetchMessages key s')
             = result_of (fetchMessages key s).
Proof.
  intros Hok s'. subst s'. rewrite sendMessage_success by done.
  unfold state_of. cbn [fst snd].
  eexists _, _. rewrite !fetchMessages_run. unfold result_of. cbn [fst snd].
  split_and!; [reflexivity|reflexivity| | |]; simpl; unfold group.
  - apply js_sort_elem_of.
    rewrite (group_snoc_same (optimisticMessage env to text)).
    apply elem_of_app. right. left.
  - rewrite !js_sort_perm.
    by rewrite (group_snoc_same (optimisticMessage env to text)).
  - intros key Hkey. by rewrite group_snoc_other.
Qed.

(** X16. The identifier of an optimistic message is [temp-] followed
    by the clock reading in milliseconds, so two sends get the same
    identifier exactly when their clock readings are equal: two successful
    sends within one millisecond store two messages under one identifier,
    and the seen set then grows by one identifier only. *)
Theorem temporary_identifier_is_the_clock (env1 env2 : SendEnv)
    (to1 text1 to2 text2 : string) (s : ApiService) :
  send_fails env1 s = false → send_fails env2 s = false →
  let m1 := optimisticMessage env1 to1 text1 in
  let m2 := optimisticMessage env2 to2 text2 in
  let s1 := state_of (sendMessage env1 to1 text1 s) in
  let s2 := state_of (sendMessage env2 to2 text2 s1) in
  allMessages s2 = allMessages s ++ [m1; m2]
  ∧ (id m1 = id m2 ↔ send_id_time env1 = send_id_time env2)
  ∧ (send_id_time env1 = send_id_time env2 →
     processedMessageIds s2 = processedMessageIds s1).
Proof.
  intros Hok1 Hok2 m1 m2 s1 s2.
  assert (s1 = set_processedMessageIds
                 ({["temp-" +:+ pretty (send_id_time env1)]}
                  ∪ processedMessageIds s)
                 (set_allMessages (allMessages s ++ [m1]) s)) as Hs1
    by (subst s1; by rewrite sendMessage_success).
  assert (send_fails env2 s1 = false) as Hok2' by by rewrite Hs1.
  assert (s2 = set_processedMessageIds
                 ({["temp-" +:+ pretty (send_id_time env2)]}
                  ∪ processedMessageIds s1)
                 (set_allMessages (allMessages s1 ++ [m2]) s1)) as Hs2
    by (subst s2; by rewrite sendMessage_success).
  clearbody s1 s2. split_and!.
  - rewrite Hs2, Hs1. simpl. by rewrite <- app_assoc.
  - subst m1 m2. simpl. split.
    + intros [= Heq]. by apply (inj pretty).
    + by intros ->.
  - intros Heq. rewrite Hs2. simpl. rewrite Hs1. simpl. rewrite Heq.
    set_solver.
Qed.

(** ** The aggregator *)

Lemma represents_phone l k c : represents l k c → phone c = k.
Proof. by intros (m & <- & -> & _). Qed.

Lemma aggregated_phones l cmap :
  aggregated l cmap → phone <$> map_values cmap = cmap.*1.
Proof.
  intros (Hnd & Hrep & _). unfold map_values.
  assert (∀ k c, (k, c) ∈ cmap → phone c = k) as Hall.
  { intros k c Hin. eapply represents_phone, Hrep. by apply elem_of_assoc_get. }
  clear Hnd Hrep. induction cmap as [|[k c] cmap IH]; [done|].
  simpl. f_equal.
  - apply Hall. left.
  - apply IH. intros k' c' Hin. apply Hall. by right.
Qed.

Lemma aggregated_keys l cmap k :
  aggregated l cmap → k ∈ cmap.*1 ↔ k ∈ conversationId <$> l.
Proof.
  intros (Hnd & Hrep & Hkeys). split.
  - intros Hk. destruct (assoc_get k cmap) as [c|] eqn:Hc;
      [|by apply assoc_get_None_keys in Hc].
    destruct (Hrep _ _ Hc) as (m & <- & _ & Hfirst).
    apply list_elem_of_fmap. exists m. split; [done|].
    by apply first_latest_elem_of.
  - intros (m & -> & Hm)%list_elem_of_fmap. by apply Hkeys.
Qed.

(** X17. When every stored timestamp is a valid date,
    [fetchConversations] returns, without error, exactly one summary per
    conversation that has a stored message and none for any other: the
    phones of the summaries are pairwise distinct and are the conversation
    identifiers of the store, and each summary is built from the first of
    the latest messages of its conversation, its name being the formatted
    phone. *)
Theorem fetchConversations_one_summary_each (s : ApiService) :
  timestamps_valid (allMessages s) →
  ∃ cs, fetchConversations s
        = (Normal {| data := cs; error := None |}, s, [])
        ∧ NoDup (phone <$> cs)
        ∧ (∀ k, k ∈ phone <$> cs ↔ k ∈ conversationId <$> allMessages s)
        ∧ ∀ c, c ∈ cs →
               ∃ m, first_latest (allMessages s) m ∧ c = summary_of m
                    ∧ name c = formatPhoneNumber (phone c).
Proof.
  intros Hvalid. rewrite fetchConversations_run.
  destruct (conversation_forEach_total (allMessages s) [] [] aggregated_nil
              Hvalid) as [cmap Hrun].
  rewrite Hrun.
  pose proof (conversation_forEach_aggregated _ [] [] _ aggregated_nil Hrun)
    as Hagg. simpl in Hagg.
  eexists. split; [reflexivity|].
  assert (phone <$> js_sort by_time_descending (map_values cmap)
          ≡ₚ cmap.*1) as Hperm.
  { rewrite js_sort_perm. by erewrite aggregated_phones. }
  split_and!.
  - rewrite Hperm. by destruct Hagg.
  - intros k. rewrite Hperm. by eapply aggregated_keys.
  - intros c Hc%js_sort_elem_of.
    apply list_elem_of_fmap in Hc as ([k c'] & -> & Hin).
    destruct Hagg as (Hnd & Hrep & _).
    destruct (Hrep k c') as (m & _ & -> & Hfirst);
      [by apply elem_of_assoc_get|].
    exists m. by split_and!.
Qed.

Lemma conversation_forEach_invalid rest :
  ∀ cmap, (∃ m, m ∈ rest ∧ getTime m = None) →
    conversation_forEach cmap rest
    = Throw (ThrownError "RangeError" "Invalid time value").
Proof.
  induction rest as [|m rest IH]; intros cmap (m0 & Hin & Hm0).
  - by apply elem_of_nil in Hin.
  - simpl. rewrite conversation_step_eq.
    destruct (getTime m) as [t|] eqn:Ht; [|done].
    apply elem_of_cons in Hin as [->|Hin]; [congruence|].
    destruct (assoc_get (conversationId m) cmap) as [c|]; [|by eauto].
    destruct (contact_getTime c); [by eauto|done].
Qed.

(** X18. One stored message whose timestamp is not a valid date makes
    the whole aggregation fail: [fetchConversations] returns no
    conversation at all and the error [Invalid time value], wherever the
    message is and whatever the other messages are; the service itself is
    unchanged. *)
Theorem fetchConversations_fails_on_invalid_date (s : ApiService)
    (m : Message) :
  m ∈ allMessages s → getTime m = None →
  fetchConversations s
  = (Normal {| data := []; error := Some "Invalid time value" |}, s, []).
Proof.
  intros Hin Hm. rewrite fetchConversations_run.
  rewrite conversation_forEach_invalid by eauto. done.
Qed.

End OrderFacts.

(** ** The normaliser on a lawful [Date] *)

Section NormaliserFacts.
Context `{DateLaws}.

(** X19. On a platform whose [Date] parses what [toISOString] prints,
    the normalised timestamp denotes the instant of the original when the
    original is a valid date and the current time otherwise, and
    normalising a second time, at whatever later time, changes nothing. *)
Theorem convertTimestamp_canonical (now now' : Z) (ts : string) :
  valid_time now →
  Date_parse (convertTimestamp now ts) = Some (default now (Date_parse ts))
  ∧ convertTimestamp now' (convertTimestamp now ts) = convertTimestamp now ts.
Proof.
  intros Hnow.
  assert (Date_parse (convertTimestamp now ts)
          = Some (default now (Date_parse ts))) as Hparse.
  { rewrite convertTimestamp_eq.
    destruct (Date_parse ts) as [t|] eqn:Hts; simpl.
    - apply parse_toISOString. by eapply parse_valid.
    - by apply parse_toISOString. }
  split; [done|].
  rewrite (convertTimestamp_eq now'), Hparse.
  rewrite convertTimestamp_eq. by destruct (Date_parse ts).
Qed.

End NormaliserFacts.

(** ** Display helpers *)

Section StringFacts.

Lemma string_length_app (a b : string) :
  String.length (a +:+ b) = (String.length a + String.length b)%nat.
Proof. induction a as [|c a IH]; simpl; [done|]. by rewrite IH. Qed.

Lemma substring_length_le (i n : nat) (s : string) :
  (String.length (String.substring i n s) ≤ n)%nat.
Proof.
  revert i n. induction s as [|c s IH]; intros [|i] [|n]; simpl; try lia.
  - specialize (IH 0%nat n). lia.
  - apply (IH i 0%nat).
  - apply (IH i (S n)).
Qed.

Lemma substring_0_split (n : nat) (s : string) :
  (n ≤ String.length s)%nat →
  ∃ rest, s = String.substring 0 n s +:+ rest
          ∧ String.length (String.substring 0 n s) = n.
Proof.
  revert n. induction s as [|c s IH]; intros [|n] Hn; simpl in *.
  - by exists "".
  - lia.
  - by exists (String c s).
  - destruct (IH n) as (rest & Heq & Hlen); [lia|].
    exists rest. split; [|by rewrite Hlen].
    change (String c s = String c (String.substring 0 n s +:+ rest)).
    congruence.
Qed.

Lemma digits_only_app (a b : string) :
  JsString.digits_only (a +:+ b)
  = JsString.digits_only a +:+ JsString.digits_only b.
Proof.
  induction a as [|c a IH]; simpl; [done|].
  destruct (JsString.is_digit c); simpl; by rewrite IH.
Qed.

Lemma digits_only_digits (s : string) :
  Forall (λ c, JsString.is_digit c = true)
    (list_ascii_of_string (JsString.digits_only s)).
Proof.
  induction s as [|c s IH]; simpl; [constructor|].
  destruct (JsString.is_digit c) eqn:Hc; simpl; [by constructor|done].
Qed.

Lemma digits_only_fixed (s : string) :
  Forall (λ c, JsString.is_digit c = true) (list_ascii_of_string s) →
  JsString.digits_only s = s.
Proof.
  induction s as [|c s IH]; simpl; [done|].
  intros [Hc Hs]%Forall_cons. rewrite Hc. f_equal. by apply IH.
Qed.

Lemma digits_only_idem (s : string) :
  JsString.digits_only (JsString.digits_only s) = JsString.digits_only s.
Proof. apply digits_only_fixed, digits_only_digits. Qed.

Lemma startsWith_one (c : ascii) (s : string) :
  JsString.startsWith "1" (String c s) = true → c = "1"%char.
Proof.
  unfold JsString.startsWith.
  change (String.prefix "1" (String c s))
    with (if ascii_dec "1" c then String.prefix "" s else false).
  by destruct (ascii_dec "1" c) as [<-|].
Qed.

End StringFacts.

Ltac explode_string s H :=
  repeat match type of H with
         | String.length s = S _ =>
             let c := fresh "c" in
             destruct s as [|c s]; [discriminate H|];
             simpl in H; injection H as H
         end;
  destruct s; [|discriminate H].

Ltac digit_facts H :=
  simpl in H;
  repeat match type of H with
         | Forall _ (_ :: _) =>
             let Hc := fresh "Hc" in apply Forall_cons in H as [Hc H]
         end.

Lemma formatPhoneNumber_digits (phone : string) :
  JsString.digits_only (formatPhoneNumber phone) = JsString.digits_only phone.
Proof.
  unfold formatPhoneNumber.
  pose proof (digits_only_digits phone) as Hdigits.
  pose proof (digits_only_idem phone) as Hidem.
  destruct (JsString.digits_only phone) as [|c0 cleaned] eqn:Hclean;
    [done|].
  set (whole := String c0 cleaned) in *.
  destruct (bool_decide (String.length whole = 11%nat)
            && JsString.startsWith "1" whole) eqn:Hus.
  - apply andb_true_iff in Hus as [Hlen Hone].
    apply bool_decide_eq_true in Hlen.
    subst whole. simpl in Hlen. injection Hlen as Hlen.
    apply startsWith_one in Hone as ->.
    explode_string cleaned Hlen. digit_facts Hdigits.
    cbn -[String.append]. rewrite !digits_only_app. cbn.
    by rewrite Hc0, Hc1, Hc2, Hc3, Hc4, Hc5, Hc6, Hc7, Hc8, Hc9.
  - clear Hus. destruct (bool_decide (String.length whole = 10%nat)) eqn:Hten.
    + apply bool_decide_eq_true in Hten.
      subst whole. simpl in Hten. injection Hten as Hten.
      explode_string cleaned Hten. digit_facts Hdigits.
      cbn -[String.append]. rewrite !digits_only_app. cbn.
      by rewrite Hc, Hc0, Hc1, Hc2, Hc3, Hc4, Hc5, Hc6, Hc7, Hc8.
    + destruct (bool_decide (10 < String.length whole)%nat); [|done].
      change ("+" +:+ whole) with (String "+" whole). by cbn.
Qed.

(** X20. The display name the service builds from a phone number has
    exactly the digits of the number, in the same order, and formatting a
    formatted number again changes nothing. *)
Theorem formatPhoneNumber_keeps_digits (phone : string) :
  JsString.digits_only (formatPhoneNumber phone) = JsString.digits_only phone
  ∧ formatPhoneNumber (formatPhoneNumber phone) = formatPhoneNumber phone.
Proof.
  split; [apply formatPhoneNumber_digits|].
  unfold formatPhoneNumber at 1. rewrite formatPhoneNumber_digits.
  unfold formatPhoneNumber.
  destruct (bool_decide _ && _); [done|].
  destruct (bool_decide (_ = 10%nat)); [done|].
  by destruct (bool_decide (10 < _)%nat).
Qed.

Lemma substring_digits (i n : nat) (s : string) :
  Forall (λ c, JsString.is_digit c = true) (list_ascii_of_string s) →
  Forall (λ c, JsString.is_digit c = true)
    (list_ascii_of_string (String.substring i n s)).
Proof.
  revert i n. induction s as [|c s IH]; intros [|i] [|n]; simpl;
    try (intros; by constructor).
  - intros [Hc Hs]%Forall_cons. constructor; [done|by apply IH].
  - intros [_ Hs]%Forall_cons. by apply (IH i 0%nat).
  - intros [_ Hs]%Forall_cons. by apply (IH i (S n)).
Qed.

(** X21. The chat header and the conversation list format the same
    number differently: for eleven digits that begin with 1 the service's
    name is the header's text with [+1 ] put before it, every other number
    is shown by the header as it was typed, and whenever the service's
    formatter changes a number at all the two texts differ. *)
Theorem header_and_list_format_differently (phone : string) :
  let cleaned := JsString.digits_only phone in
  (String.length cleaned = 11%nat ∧ JsString.startsWith "1" cleaned = true →
   formatPhoneNumber phone = "+1 " +:+ Formatters.formatPhoneNumber phone)
  ∧ (¬ (String.length cleaned = 11%nat
        ∧ JsString.startsWith "1" cleaned = true) →
     Formatters.formatPhoneNumber phone = phone)
  ∧ (formatPhoneNumber phone ≠ phone →
     formatPhoneNumber phone ≠ Formatters.formatPhoneNumber phone).
Proof.
  intros cleaned. unfold formatPhoneNumber, Formatters.formatPhoneNumber.
  fold cleaned.
  destruct (bool_decide (String.length cleaned = 11%nat)
            && JsString.startsWith "1" cleaned) eqn:Hus.
  - split_and!; [done| |].
    + apply andb_true_iff in Hus as [Hlen%bool_decide_eq_true ?].
      by intros [].
    + intros _ Heq. apply (f_equal String.length) in Heq.
      change ("+1 (" +:+ ?x) with ("+1 " +:+ ("(" +:+ x)) in Heq.
      rewrite (string_length_app "+1 ") in Heq. simpl in Heq. lia.
  - split_and!; [|done|done].
    intros [Hlen Hone]. by rewrite bool_decide_true, Hone in Hus.
Qed.

(** X22. The two [truncateMessage] functions are the same function.
    A message of at most [maxLength] characters is shown whole; a longer
    one is cut to its first [maxLength] characters followed by three dots,
    which is [maxLength + 3] characters, more than the message had when it
    was one or two characters over the limit. *)
Theorem truncateMessage_shape (message : string) (maxLength : nat) :
  ConversationList.truncateMessage message maxLength
  = Formatters.truncateMessage message maxLength
  ∧ ((String.length message ≤ maxLength)%nat →
     Formatters.truncateMessage message maxLength = message)
  ∧ ((maxLength < String.length message)%nat →
     ∃ kept rest,
       message = kept +:+ rest ∧ String.length kept = maxLength
       ∧ Formatters.truncateMessage message maxLength = kept +:+ "..."
       ∧ String.length (Formatters.truncateMessage message maxLength)
         = (maxLength + 3)%nat).
Proof.
  unfold ConversationList.truncateMessage, Formatters.truncateMessage,
    JsString.substring.
  split_and!.
  - repeat case_bool_decide; (done || lia).
  - intros Hle. by rewrite bool_decide_true.
  - intros Hlt. rewrite bool_decide_false by lia.
    rewrite Nat.sub_0_r.
    destruct (substring_0_split maxLength message) as (rest & Heq & Hlen);
      [lia|].
    exists (String.substring 0 maxLength message), rest.
    split_and!; [done..|]. rewrite string_length_app, Hlen. done.
Qed.

(** X23. The initials of a contact are at most two characters long;
    for a name that is empty or white space they are the last two digits
    of the phone number, and nothing when the phone has no digit. *)
Theorem getInitials_short (name phone : string) :
  (String.length (Formatters.getInitials name phone) ≤ 2)%nat
  ∧ (JsString.trim name = "" →
     Formatters.getInitials name phone
     = JsString.slice_last 2 (JsString.digits_only phone)
     ∧ JsString.digits_only (Formatters.getInitials name phone)
       = Formatters.getInitials name phone
     ∧ (JsString.digits_only phone = "" →
        Formatters.getInitials name phone = "")).
Proof.
  unfold Formatters.getInitials, JsString.slice_to, JsString.slice_last.
  split.
  - destruct (_ && _); apply substring_length_le.
  - intros ->. rewrite andb_false_r. split_and!; [done| |by intros ->].
    apply digits_only_fixed, substring_digits, digits_only_digits.
Qed.

Lemma prefix_refl (s : string) : String.prefix s s = true.
Proof.
  induction s as [|c s IH]; [done|].
  change (String.prefix (String c s) (String c s))
    with (if ascii_dec c c then String.prefix s s else false).
  by destruct (ascii_dec c c).
Qed.

Lemma includes_refl (s : string) : JsString.includes s s = true.
Proof.
  destruct s as [|c s]; [done|]. cbn [JsString.includes].
  by rewrite prefix_refl.
Qed.

(** X24. The search of the conversation list narrows the list without
    reordering it; the empty term keeps every conversation, and a term that
    is the whole name, phone or last message of a listed conversation keeps
    that conversation. *)
Theorem search_keeps_matching_conversations (searchTerm : string)
    (conversations : list Contact) :
  ConversationList.filteredConversations "" conversations = conversations
  ∧ ConversationList.filteredConversations searchTerm conversations
    `sublist_of` conversations
  ∧ ∀ c, c ∈ conversations →
         searchTerm = name c ∨ searchTerm = phone c
         ∨ searchTerm = lastMessage c →
         c ∈ ConversationList.filteredConversations searchTerm conversations.
Proof.
  unfold ConversationList.filteredConversations. split_and!.
  - apply filter_all. intros c _. unfold ConversationList.matches. simpl.
    by destruct (JsString.toLowerCase (name c)).
  - apply sublist_filter.
  - intros c Hc Hterm. apply list_elem_of_filter. split; [|done].
    unfold ConversationList.matches.
    destruct Hterm as [->|[->| ->]]; rewrite includes_refl;
      by rewrite ?orb_true_r.
Qed.

(** ** The chat view *)

Lemma StronglySorted_lookup_lt {A} (R : A → A → Prop) (l : list A) :
  StronglySorted R l →
  ∀ i j x y, l !! i = Some x → l !! j = Some y → (i < j)%nat → R x y.
Proof.
  induction 1 as [|z l Hs IH Hz]; intros i j x y Hi Hj Hlt.
  - by rewrite lookup_nil in Hi.
  - destruct j as [|j]; [lia|]. simpl in Hj. destruct i as [|i]; simpl in Hi.
    + injection Hi as <-. apply (proj1 (Forall_forall _ _) Hz).
      by eapply list_elem_of_lookup_2.
    + apply (IH i j); [done..|lia].
Qed.

Section ChatViewFacts.
Context `{DateApi}.

Lemma handleNewMessages_eq selectedPhone newMessages prev :
  handleNewMessages selectedPhone newMessages prev
  = let added :=
      filter (λ m, id_falsy (id m) = false ∧ id m ∉ id <$> prev)
        (filter (λ msg, conversationId msg = selectedPhone) newMessages) in
    if bool_decide (0 < length added)%nat
    then js_sort by_time_ascending (prev ++ added) else prev.
Proof.
  unfold handleNewMessages.
  destruct (filter (λ msg, conversationId msg = selectedPhone) newMessages);
    done.
Qed.

(** X25. [handleNewMessages] keeps every shown message and adds, from a
    notification, only messages of the selected conversation whose
    identifier is not empty and is not shown yet; with nothing to add the
    shown list is returned as it is, and handling the same notification a
    second time adds nothing. *)
Theorem handleNewMessages_adds_unseen_only (selectedPhone : string)
    (newMessages prev : list Message) :
  let shown := handleNewMessages selectedPhone newMessages prev in
  ∃ added,
    shown ≡ₚ prev ++ added
    ∧ added `sublist_of` newMessages
    ∧ (∀ m, m ∈ added →
            conversationId m = selectedPhone
            ∧ id_falsy (id m) = false
            ∧ (id m ∉ id <$> prev))
    ∧ (added = [] → shown = prev)
    ∧ handleNewMessages selectedPhone newMessages shown = shown.
Proof.
  intros shown. subst shown. rewrite !handleNewMessages_eq. cbv zeta.
  set (relevant := filter (λ msg, conversationId msg = selectedPhone)
                     newMessages).
  set (added := filter (λ m, id_falsy (id m) = false ∧ id m ∉ id <$> prev)
                  relevant).
  assert (added `sublist_of` newMessages) as Hsub
    by (etrans; apply sublist_filter).
  assert (∀ m, m ∈ added →
               conversationId m = selectedPhone
               ∧ id_falsy (id m) = false ∧ (id m ∉ id <$> prev)) as Hadded.
  { intros m [[Hid Hnot] [Hconv _]%list_elem_of_filter]%list_elem_of_filter.
    done. }
  assert (∀ shown, shown ≡ₚ prev ++ added →
            filter (λ m, id_falsy (id m) = false ∧ id m ∉ id <$> shown)
              relevant = []) as Hsecond.
  { intros shown Hshown. apply filter_none.
    intros m Hm [Hid Hnew]. apply Hnew. rewrite Hshown, fmap_app.
    apply elem_of_app.
    destruct (decide (id m ∈ id <$> prev)) as [Hold|Hold]; [by left|right].
    apply list_elem_of_fmap. exists m. split; [done|].
    by apply list_elem_of_filter. }
  destruct (bool_decide (0 < length added)%nat) eqn:Hnew.
  - exists added. split_and!; [apply js_sort_perm|done|done| |].
    + intros Hnil. by rewrite Hnil in Hnew.
    + rewrite Hsecond; [done|apply js_sort_perm].
  - assert (added = []) as Hnil.
    { apply bool_decide_eq_false in Hnew. destruct added; [done|].
      simpl in Hnew. lia. }
    exists []. rewrite app_nil_r. split_and!; try done.
    + apply sublist_nil_l.
    + by intros m ?%elem_of_nil.
    + fold relevant. fold added. by rewrite Hnil.
Qed.

Lemma by_contact_time_ascending_key a b :
  by_contact_time_ascending a b
  = time_diff (contact_getTime a) (contact_getTime b).
Proof. done. Qed.

(** X26. The lead number of the selected conversation is its position,
    counted from one, in the summaries ordered by the time of their latest
    message, oldest first: it is set whenever the aggregation succeeded and
    lists the conversation, every summary before that position belongs to
    another conversation and, when the timestamps are valid dates, is not
    newer.  When the aggregation failed or does not list the conversation
    the previous number stays. *)
Theorem calculateLeadNumber_is_rank_by_latest_message (selected : string)
    (result : ApiResponse (list Contact)) (leadNumber : option nat) :
  selected ≠ "" →
  let sorted := js_sort by_contact_time_ascending (data result) in
  (error_truthy result = None → selected ∈ phone <$> data result →
   ∃ index c,
     calculateLeadNumber (Some selected) result leadNumber
     = Some (index + 1)%nat
     ∧ (index < length (data result))%nat
     ∧ sorted !! index = Some c ∧ phone c = selected
     ∧ (∀ j c', (j < index)%nat → sorted !! j = Some c' →
                phone c' ≠ selected)
     ∧ (Forall (λ c, is_Some (contact_getTime c)) (data result) →
        ∀ j c', (j < index)%nat → sorted !! j = Some c' →
                key_le contact_getTime c' c))
  ∧ ((is_Some (error_truthy result) ∨ (selected ∉ phone <$> data result)) →
     calculateLeadNumber (Some selected) result leadNumber = leadNumber).
Proof.
  intros Hsel sorted.
  assert (JsString.truthy selected = true) as Htruthy
    by by destruct selected.
  unfold calculateLeadNumber. rewrite Htruthy. cbn [negb]. fold sorted.
  split.
  - intros Herr (c0 & Hphone & Hc0)%list_elem_of_fmap.
    rewrite Herr. rewrite bool_decide_false by by intros [? ?].
    rewrite bool_decide_true by (destruct (data result); [by apply elem_of_nil in Hc0|simpl; lia]).
    cbn [negb andb].
    destruct (list_find_elem_of (λ c, phone c = selected) sorted c0)
      as [[index c] Hfind]; [by apply js_sort_elem_of|done|].
    rewrite Hfind. apply list_find_Some in Hfind as (Hlook & Hc & Hbefore).
    exists index, c. split_and!; [done| |done|done| |].
    + apply lookup_lt_Some in Hlook. subst sorted.
      by rewrite js_sort_length in Hlook.
    + intros j c' Hj Hc'. by eapply Hbefore.
    + intros Hvalid j c' Hj Hc'.
      assert (StronglySorted (key_le contact_getTime) sorted) as Hsorted
        by by apply js_sort_sorted.
      by eapply (StronglySorted_lookup_lt _ sorted Hsorted j index).
  - intros [[e He]|Hnot].
    + rewrite He. by rewrite bool_decide_true by eauto.
    + destruct (negb _ && _); [|done].
      destruct (list_find _ sorted) as [[index c]|] eqn:Hfind; [|done].
      apply list_find_Some in Hfind as (Hlook & Hc & _).
      destruct Hnot. apply list_elem_of_fmap. exists c. split; [done|].
      eapply js_sort_elem_of, list_elem_of_lookup_2, Hlook.
Qed.

End ChatViewFacts.

(** ** The single subscriber slot *)

Lemma told_subscribers_app t1 t2 :
  told_subscribers (t1 ++ t2) = told_subscribers t1 ++ told_subscribers t2.
Proof.
  induction t1 as [|e t1 IH]; [done|]. destruct e; simpl; by rewrite ?IH.
Qed.

Section SubscriberFacts.
Context `{DateApi}.

Lemma told_only_merge env result s :
  told_only s (state_of (pollMessages_merge env result s))
    (trace_of (pollMessages_merge env result s)).
Proof.
  destruct (error_truthy result) as [e|] eqn:Herr.
  - rewrite (pollMessages_merge_failure _ _ _ e) by done.
    split; [done|]. unfold trace_of, error_notification. cbn [snd].
    destruct (onErrorCallback s); constructor.
  - rewrite pollMessages_merge_success by done.
    split; [done|]. unfold trace_of, notification. cbn [snd].
    destruct (filter_new _ _).1; [constructor|].
    destruct (onNewMessageCallback s); repeat constructor.
Qed.

Lemma told_only_silent s s' t :
  onNewMessageCallback s' = onNewMessageCallback s →
  told_subscribers t = [] → told_only s s' t.
Proof. intros ? Ht. split; [done|]. rewrite Ht. constructor. Qed.

Lemma perform_told_only o s :
  is_subscription o = false → told_only s (perform o s).1 (perform o s).2.
Proof.
  intros Hsub. destruct o as
    [env|env result|env to text|env to text| | |key| |handle| |handle p|callback|callback];
    try done; cbn [perform outcome fst snd].
  - destruct (fetchMessagesFromApi_trace (poll_outcome env) s)
      as (r & Hf & _).
    destruct (told_only_merge env r s) as [Hs Ht].
    unfold pollMessages. run_js. rewrite Hf.
    destruct (pollMessages_merge env r s) as [[? ?] ?]. cbn [fst snd] in *.
    split; [done|]. rewrite told_subscribers_app.
    by destruct (url_blank _).
  - apply told_only_merge.
  - destruct (send_fails env s) eqn:Hf.
    + rewrite sendMessage_failure by done. apply told_only_silent; [done|].
      unfold trace_of. cbn [snd]. by destruct (url_blank _).
    + rewrite sendMessage_success by done. by apply told_only_silent.
  - apply told_only_silent; [|by rewrite sendMessage_completes_trace].
    by destruct (sendMessage_completes_state env to text s) as [->| ->].
  - rewrite fetchConversations_run. by apply told_only_silent.
  - destruct (startPolling_run handle s) as (s' & -> & _ & _ & _ & Hsame).
    apply told_only_silent; [apply Hsame|].
    unfold trace_of, cancels, request. cbn [snd].
    rewrite !told_subscribers_app.
    by destruct (pollingTimer s), (retryTimeout s), (url_blank _).
  - destruct (stopPolling_run s) as (s' & -> & _ & _ & _ & Hsame).
    apply told_only_silent; [apply Hsame|].
    unfold trace_of, cancels. cbn [snd].
    by destruct (pollingTimer s), (retryTimeout s).
  - destruct (updateSettings_run handle p s) as (s' & -> & _ & _ & _ & Hsame).
    apply told_only_silent; [apply Hsame|].
    unfold trace_of, cancels, request. cbn [snd].
    destruct (pollingTimer s); [|done].
    rewrite !told_subscribers_app.
    by destruct (retryTimeout s), (url_blank _).
Qed.

Lemma execute_told_only ops :
  ∀ s, Forall (λ o, is_subscription o = false) ops →
       told_only s (execute ops s).1 (execute ops s).2.
Proof.
  induction ops as [|o ops IH]; intros s Hops.
  - by apply told_only_silent.
  - apply Forall_cons in Hops as [Ho Hops]. rewrite execute_cons.
    cbn [fst snd].
    destruct (perform_told_only o s Ho) as [Hs1 Ht1].
    destruct (IH (perform o s).1 Hops) as [Hs2 Ht2].
    split; [congruence|]. rewrite told_subscribers_app.
    apply Forall_app. split; [done|].
    eapply Forall_impl; [exact Ht2|]. intros h. by rewrite Hs1.
Qed.

(** X27. The service has one slot for the new-message subscriber: a
    registration replaces the subscriber registered before, and along any
    sequence of operations without a further registration only the last
    registered subscriber is ever told of new messages, never the one it
    replaced. *)
Theorem only_last_subscriber_is_told (first last : nat)
    (ops : list Operation) (s : ApiService) :
  Forall (λ o, is_subscription o = false) ops →
  let s2 := state_of (setNewMessageCallback last
                        (state_of (setNewMessageCallback first s))) in
  onNewMessageCallback (execute ops s2).1 = Some last
  ∧ Forall (λ h, h = last) (told_subscribers (execute ops s2).2)
  ∧ (first ≠ last → first ∉ told_subscribers (execute ops s2).2).
Proof.
  intros Hops s2. destruct (execute_told_only ops s2 Hops) as [Hs Ht].
  assert (onNewMessageCallback s2 = Some last) as Hlast by done.
  assert (Forall (λ h, h = last) (told_subscribers (execute ops s2).2))
    as Hall.
  { eapply Forall_impl; [exact Ht|]. intros h. rewrite Hlast. congruence. }
  split_and!; [congruence|done|].
  intros Hne Hin. by apply (proj1 (Forall_forall _ _) Hall) in Hin.
Qed.

End SubscriberFacts.

(** ** Concrete runs of the further properties *)

Section FurtherRuns.
Import Sample Scenario.
#[local] Existing Instance IsoDate.api.

Ltac by_computation := apply (bool_decide_unpack _); vm_compute; exact I.

(** X2 on a response whose second element is [null]. *)
Lemma null_element_fails_fetch_witness :
  JNull ∈ items_with_null
  ∧ fetchMessagesFromApi (FetchResponds (answer (JArray items_with_null)))
      service
    = (Normal {| data := []; error := Some null_id_error |}, service,
       [NetGet (n8nGetMessagesUrl (settings service))]).
Proof.
  assert (Hnull : JNull ∈ items_with_null) by (right; left).
  split; [exact Hnull|].
  exact (null_element_fails_fetch (answer (JArray items_with_null))
           items_with_null service eq_refl eq_refl eq_refl Hnull).
Defined.

(** X3 on a response whose second element is a string: the first element
    is delivered, the second dropped. *)
Lemma fetch_delivers_valid_elements_witness :
  (JNull ∉ items_with_junk)
  ∧ ∃ batch,
      fetchMessagesFromApi (FetchResponds (answer (JArray items_with_junk)))
        service
      = (Normal {| data := batch; error := None |}, service,
         [NetGet (n8nGetMessagesUrl (settings service))])
      ∧ length batch = 1%nat.
Proof.
  assert (Hnone : JNull ∉ items_with_junk).
  { intros [Heq|[Heq|Hin%elem_of_nil]%elem_of_cons]%elem_of_cons;
      [discriminate Heq|discriminate Heq|exact Hin]. }
  split; [exact Hnone|].
  destruct (fetch_delivers_valid_elements (answer (JArray items_with_junk))
              items_with_junk service eq_refl eq_refl eq_refl Hnone)
    as (batch & Hrun & _ & Hlen & _).
  exists batch. split; [exact Hrun|]. rewrite Hlen. reflexivity.
Defined.

(** X4 on a response whose body is an object. *)
Lemma non_array_response_is_an_error_witness :
  let env := env_of (FetchResponds (answer not_a_list)) in
  result_of (fetchMessagesFromApi (poll_outcome env) service)
  = Normal {| data := []; error := Some not_an_array_message |}
  ∧ allMessages (state_of (pollMessages env service)) = allMessages service
  ∧ retryTimeout (state_of (pollMessages env service)) = Some 7%nat.
Proof.
  intros env.
  assert (Hbody : ∀ items, not_a_list ≠ JArray items)
    by (intros items Heq; discriminate Heq).
  destruct (non_array_response_is_an_error env (answer not_a_list) not_a_list
              service eq_refl eq_refl eq_refl eq_refl Hbody)
    as (Hres & Hmsgs & _ & Hretry).
  split_and!; [exact Hres|exact Hmsgs|exact Hretry].
Defined.

(** X5 on a poll, a send and a second poll that overlaps the first. *)
Lemma no_identifier_notified_twice_witness :
  let ops := [OpPollMessages (answering batch_ab);
              OpSendMessage sending "555" "yo";
              OpPollMessages (answering batch_bc)] in
  NoDup (notified_ids (execute ops service).2)
  ∧ length (notified_ids (execute ops service).2)
    = length (notified (execute ops service).2).
Proof.
  intros ops.
  assert (Hops : Forall (λ o, is_reset o = false) ops)
    by (repeat constructor).
  destruct (no_identifier_notified_twice ops service Hops)
    as (Hnd & _ & _ & Hlen).
  split; [exact Hnd|exact Hlen].
Defined.

(** X10 on two failed poll cycles with the retry handles 7 and 8. *)
Lemma second_failure_forgets_first_retry_witness :
  let env1 := env_of (FetchRejects ThrownOther) in
  let env2 := later env1 in
  let s1 := state_of (pollMessages_merge env1 (failed "down") service) in
  let s2 := state_of (pollMessages_merge env2 (failed "down") s1) in
  retryTimeout s2 = Some 8%nat
  ∧ (ClearTimeout 7 ∉ trace_of (stopPolling s2)).
Proof.
  intros env1 env2 s1 s2.
  assert (Herr : is_Some (error_truthy (failed "down")))
    by (exists "down"; reflexivity).
  assert (Hne : poll_timer env1 ≠ poll_timer env2)
    by (intros Heq; discriminate Heq).
  destruct (second_failure_forgets_first_retry env1 env2 (failed "down")
              (failed "down") service Herr Herr Hne)
    as (_ & Hretry & _ & _ & Hleak).
  split; [exact Hretry|exact Hleak].
Defined.

(** X11 on a service that has seen the batch [a, b], reset. *)
Lemma reset_resurfaces_everything_witness :
  let seen := state_of (replaceAll (answering batch_ab) batch_ab service) in
  let s0 := state_of (resetProcessedMessages seen) in
  increment (answering batch_ab) batch_ab seen = []
  ∧ increment (answering batch_ab) batch_ab s0
    = sorted_batch (answering batch_ab) batch_ab.
Proof.
  intros seen s0.
  assert (H1 : NoDup (api_id <$> batch_ab)) by by_computation.
  assert (H2 : Forall (λ r, api_id r ≠ "") batch_ab) by by_computation.
  destruct (reset_resurfaces_everything (answering batch_ab) batch_ab seen
              H1 H2)
    as (_ & _ & _ & _ & _ & _ & _ & _ & Hinc & _).
  split; [by_computation|exact Hinc].
Defined.

(** X12 on a new service, which has no subscriber. *)
Lemma unsubscribed_poll_loses_notifications_witness :
  let s := new_ApiService default_settings in
  let s1 := state_of (replaceAll (answering batch_ab) batch_ab s) in
  let s2 := state_of (setNewMessageCallback 1 s1) in
  onNewMessageCallback s = None
  ∧ length (allMessages s1) = 2%nat
  ∧ trace_of (replaceAll (answering batch_ab) batch_ab s) = []
  ∧ trace_of (replaceAll (answering batch_ab) batch_ab s2) = [].
Proof.
  intros s s1 s2.
  assert (Hnone : onNewMessageCallback s = None) by reflexivity.
  destruct (unsubscribed_poll_loses_notifications (answering batch_ab)
              (answering batch_ab) batch_ab 1 s Hnone)
    as (Hfirst & _ & _ & _ & Hsecond).
  split_and!; [exact Hnone|by_computation|exact Hfirst|exact Hsecond].
Defined.

(** X13 on the batch [b, c] merged into a service that has seen [a, b]. *)
Lemma increment_in_store_order_witness :
  let seen := state_of (replaceAll (answering batch_ab) batch_ab service) in
  let s' := state_of (replaceAll (answering batch_bc) batch_bc seen) in
  timestamps_valid (convertedMessages (poll_clock (answering batch_bc)) batch_bc)
  ∧ increment (answering batch_bc) batch_bc seen `sublist_of` allMessages s'
  ∧ StronglySorted (key_le getTime) (allMessages s').
Proof.
  intros seen s'.
  assert (Hvalid : timestamps_valid
                     (convertedMessages (poll_clock (answering batch_bc))
                        batch_bc)) by by_computation.
  destruct (increment_in_store_order (answering batch_bc) batch_bc seen Hvalid)
    as (Hsub & Hsorted & _).
  split_and!; [exact Hvalid|exact Hsub|exact Hsorted].
Defined.

(** X15 on a send to 555 from a service that holds the batch [a, b]. *)
Lemma send_shows_in_its_conversation_only_witness :
  let s := state_of (replaceAll (answering batch_ab) batch_ab service) in
  let s' := state_of (sendMessage sending "555" "yo" s) in
  send_fails sending s = false
  ∧ result_of (fetchMessages "777" s') = result_of (fetchMessages "777" s).
Proof.
  intros s s'.
  assert (Hok : send_fails sending s = false) by reflexivity.
  destruct (send_shows_in_its_conversation_only sending "555" "yo" s Hok)
    as (before & after & _ & _ & _ & _ & Hother).
  split; [exact Hok|]. apply Hother. intros Heq. discriminate Heq.
Defined.

(** X16 on two sends in the same millisecond. *)
Lemma temporary_identifier_is_the_clock_witness :
  let s1 := state_of (sendMessage sending "555" "one" service) in
  let s2 := state_of (sendMessage sending "555" "two" s1) in
  allMessages s2
  = [optimisticMessage sending "555" "one";
     optimisticMessage sending "555" "two"]
  ∧ processedMessageIds s2 = processedMessageIds s1.
Proof.
  intros s1 s2.
  destruct (temporary_identifier_is_the_clock sending sending "555" "one"
              "555" "two" service eq_refl eq_refl)
    as (Hmsgs & _ & Hseen).
  split; [exact Hmsgs|exact (Hseen eq_refl)].
Defined.

(** X17 on a service that holds the batch [a, b]: two conversations. *)
Lemma fetchConversations_one_summary_each_witness :
  let s := state_of (replaceAll (answering batch_ab) batch_ab service) in
  timestamps_valid (allMessages s)
  ∧ ∃ cs, fetchConversations s
          = (Normal {| data := cs; error := None |}, s, [])
          ∧ NoDup (phone <$> cs).
Proof.
  intros s.
  assert (Hvalid : timestamps_valid (allMessages s)) by by_computation.
  destruct (fetchConversations_one_summary_each s Hvalid)
    as (cs & Hrun & Hnd & _).
  split; [exact Hvalid|]. exists cs. split; [exact Hrun|exact Hnd].
Defined.

(** X18 on a store that holds one message dated [yesterday]. *)
Lemma fetchConversations_fails_on_invalid_date_witness :
  let s := set_allMessages (allMessages
                              (state_of (replaceAll (answering batch_ab)
                                           batch_ab service))
                            ++ [undated]) service in
  getTime undated = None
  ∧ fetchConversations s
    = (Normal {| data := []; error := Some "Invalid time value" |}, s, []).
Proof.
  intros s.
  assert (Hnone : getTime undated = None) by reflexivity.
  assert (Hin : undated ∈ allMessages s).
  { apply elem_of_app. right. left. }
  split; [exact Hnone|].
  exact (fetchConversations_fails_on_invalid_date s undated Hin Hnone).
Defined.

(** X19 on the ISO-8601 [Date], for a string that is no date. *)
Lemma convertTimestamp_canonical_witness :
  valid_time noon
  ∧ Date_parse (convertTimestamp noon "yesterday") = Some noon
  ∧ convertTimestamp (noon + 1) (convertTimestamp noon "yesterday")
    = convertTimestamp noon "yesterday".
Proof.
  assert (Hnoon : valid_time noon) by by_computation.
  destruct (@convertTimestamp_canonical IsoDate.api IsoDate_lawful noon
              (noon + 1) "yesterday" Hnoon) as [Hparse Hidem].
  split_and!; [exact Hnoon|exact Hparse|exact Hidem].
Defined.

(** X26 on two summaries, the selected one being the older. *)
Lemma calculateLeadNumber_is_rank_by_latest_message_witness :
  let result := {| data := [summary "555" "2025-01-01T12:00:00.000Z";
                            summary "777" "2025-01-01T09:00:00.000Z"];
                   error := None |} in
  (∃ index, calculateLeadNumber (Some "777") result None
            = Some (index + 1)%nat
            ∧ (index < 2)%nat)
  ∧ calculateLeadNumber (Some "777") result None = Some 1%nat.
Proof.
  intros result.
  assert (Hsel : "777" ≠ "") by (intros Heq; discriminate Heq).
  assert (Hin : "777" ∈ phone <$> data result) by (right; left).
  destruct (calculateLeadNumber_is_rank_by_latest_message "777" result
              None Hsel) as [Hset _].
  destruct (Hset eq_refl Hin) as (index & c & Hrun & Hlt & _).
  split; [|reflexivity]. exists index. split; [exact Hrun|exact Hlt].
Defined.

(** X27 on a second registration followed by a poll. *)
Lemma only_last_subscriber_is_told_witness :
  let s2 := state_of (setNewMessageCallback 4
                        (state_of (setNewMessageCallback 3 service))) in
  let ops := [OpPollMessages (answering batch_ab)] in
  told_subscribers (execute ops s2).2 = [4%nat]
  ∧ (3%nat ∉ told_subscribers (execute ops s2).2).
Proof.
  intros s2 ops.
  assert (Hops : Forall (λ o, is_subscription o = false) ops)
    by (repeat constructor).
  destruct (only_last_subscriber_is_told 3 4 ops service Hops)
    as (_ & _ & Hnot).
  split; [by_computation|]. apply Hnot. intros Heq. discriminate Heq.
Defined.

End FurtherRuns.
